(** * videojs-persist-controls: the plugin and its persisted record

    A shallow embedding of the plugin ([plugin.js], in its fullest variant,
    the one that also persists the audio track; the variants without audio
    tracks or captions follow it and are this one with those options off)
    together with the part of the browser and of video.js it talks to:
    [window.localStorage], [JSON.parse] / [JSON.stringify], and the player's
    getters, setters, track lists and event subscriptions. *)

From Stdlib Require Import ZArith Ascii String List Lia Bool.
From Stdlib Require Import SpecFloat Decimal.
From stdpp Require Import gmap strings list.
Import ListNotations.

Local Open Scope char_scope.
Local Open Scope list_scope.
#[local] Set Warnings "-register-all".

(** ** Numbers

    A JavaScript number is an IEEE 754 binary64 value: a zero with its
    sign, an infinity with its sign, NaN, or a finite [m * 2^e].  The
    plugin never computes with one: it copies it, tests it for truthiness,
    looks it up with [includes], and hands it to [JSON.stringify]; reading
    one is [JSON.parse]'s business.  Both directions of the conversion
    between a number and its decimal text are below, next to the text. *)

Definition number := spec_float.

Definition prec : Z := 53.
Definition emax : Z := 1024.

(** The same number, bit for bit (one NaN). *)
Definition number_eqb (a b : number) : bool :=
  match a, b with
  | S754_zero s, S754_zero s' => Bool.eqb s s'
  | S754_infinity s, S754_infinity s' => Bool.eqb s s'
  | S754_nan, S754_nan => true
  | S754_finite s m e, S754_finite s' m' e' =>
      Bool.eqb s s' && Pos.eqb m m' && Z.eqb e e'
  | _, _ => false
  end.

(** SameValueZero, the comparison of [Array.prototype.includes]: the two
    zeros are the same and NaN is the same as NaN. *)
Definition same_value_zero (a b : number) : bool :=
  match a, b with
  | S754_zero _, S754_zero _ => true
  | _, _ => number_eqb a b
  end.

(** The number nearest to [m * 10^e], ties to even, with the sign given:
    the one division of the two integers, rounded once.  A magnitude too
    large gives an infinity, one too small a zero. *)
Definition number_of_decimal (neg : bool) (m e : Z) : number :=
  match m with
  | Zpos p =>
      if (0 <=? e)%Z
      then SFdiv prec emax (S754_finite neg (Z.to_pos (Zpos p * 10 ^ e)) 0)
                           (S754_finite false 1 0)
      else SFdiv prec emax (S754_finite neg p 0)
                           (S754_finite false (Z.to_pos (10 ^ (- e))) 0)
  | _ => S754_zero neg
  end.

Inductive digit := d0 | d1 | d2 | d3 | d4 | d5 | d6 | d7 | d8 | d9.

Definition digit_eqb (a b : digit) : bool :=
  match a, b with
  | d0, d0 | d1, d1 | d2, d2 | d3, d3 | d4, d4
  | d5, d5 | d6, d6 | d7, d7 | d8, d8 | d9, d9 => true
  | _, _ => false
  end.

Definition is_d0 (d : digit) : bool := digit_eqb d d0.

(** ** Values

    What [JSON.parse] can return and what the plugin stores in its record.
    [undefined] is the [None] of an [option value].  An object is its own
    properties in insertion order, one entry per key.  (JavaScript lists
    keys that look like array indices first; none of the plugin's keys does,
    and the order shows in the text of a record only.) *)

Inductive value :=
| VNull
| VBool (b : bool)
| VNum (n : number)
| VStr (s : string)
| VArr (elems : list value)
| VObj (props : list (string * value)).

(** ToBoolean. *)
Definition truthy (v : value) : bool :=
  match v with
  | VNull => false
  | VBool b => b
  | VNum (S754_zero _) | VNum S754_nan => false
  | VNum _ => true
  | VStr s => negb (String.eqb s EmptyString)
  | VArr _ | VObj _ => true
  end.

Definition truthy_opt (o : option value) : bool :=
  match o with Some v => truthy v | None => false end.

(** [o[k]] on an object's own properties. *)
Fixpoint obj_get (k : string) (props : list (string * value)) : option value :=
  match props with
  | [] => None
  | (k', v) :: r => if String.eqb k k' then Some v else obj_get k r
  end.

(** [o[k] = v]: an existing property keeps its place, a new one goes last. *)
Fixpoint obj_set (k : string) (v : value) (props : list (string * value))
  : list (string * value) :=
  match props with
  | [] => [(k, v)]
  | (k', v') :: r =>
      if String.eqb k k' then (k', v) :: r else (k', v') :: obj_set k v r
  end.

(** [data[option]] for the five preference names.  None of them is an index
    or a property of [Array.prototype], [String.prototype] and the like, so
    on anything but an object the read gives [undefined]. *)
Definition get_prop (data : value) (k : string) : option value :=
  match data with
  | VObj props => obj_get k props
  | _ => None
  end.

(** [data[k] = v] in strict-mode code (the plugin is an ES module).  On a
    primitive the assignment throws a [TypeError], reported here as [None].
    An array takes the named property, but [JSON.stringify] prints the
    elements only and the plugin never reads the record again after its
    start-up pass, so the property is not kept. *)
Definition set_prop (data : value) (k : string) (v : value) : option value :=
  match data with
  | VObj props => Some (VObj (obj_set k v props))
  | VArr elems => Some (VArr elems)
  | _ => None
  end.

(** [a === b] where [a] is a string. *)
Definition strict_eq_str (a : string) (b : value) : bool :=
  match b with VStr s => String.eqb a s | _ => false end.

(** [rates.includes(v)] on an array of numbers. *)
Definition includes (rates : list number) (v : value) : bool :=
  match v with
  | VNum n => existsb (same_value_zero n) rates
  | _ => false
  end.

(** ** JSON text

    Text is a list of bytes, the UTF-8 image of the JavaScript string; a
    string that holds half of a surrogate pair has no such image and is
    outside the model. *)

(** The quotation mark, U+0022. *)
Definition dquote : ascii := Ascii false true false false false true false false.

Definition digit_char (d : digit) : ascii :=
  match d with
  | d0 => "0" | d1 => "1" | d2 => "2" | d3 => "3" | d4 => "4"
  | d5 => "5" | d6 => "6" | d7 => "7" | d8 => "8" | d9 => "9"
  end.

Definition char_digit (c : ascii) : option digit :=
  if Ascii.eqb c "0" then Some d0 else if Ascii.eqb c "1" then Some d1
  else if Ascii.eqb c "2" then Some d2 else if Ascii.eqb c "3" then Some d3
  else if Ascii.eqb c "4" then Some d4 else if Ascii.eqb c "5" then Some d5
  else if Ascii.eqb c "6" then Some d6 else if Ascii.eqb c "7" then Some d7
  else if Ascii.eqb c "8" then Some d8 else if Ascii.eqb c "9" then Some d9
  else None.

Definition hex_char (n : N) : ascii :=
  if (n <? 10)%N then ascii_of_N (48 + n) else ascii_of_N (87 + n).

Definition char_hex (c : ascii) : option N :=
  let n := N_of_ascii c in
  if ((48 <=? n) && (n <=? 57))%N then Some (n - 48)%N
  else if ((97 <=? n) && (n <=? 102))%N then Some (n - 87)%N
  else if ((65 <=? n) && (n <=? 70))%N then Some (n - 55)%N
  else None.

(** *** [JSON.stringify] *)

(** Number::toString.  For a finite number [x] other than zero it takes
    the integers [n], [k] and [s] with [k >= 1] as small as possible,
    [10^(k-1) <= s < 10^k] and [s * 10^(n-k)] read as [x], and among
    several such [s] the one for which [s * 10^(n-k)] is closest to [x],
    the even one of two.  [x] is [num / den]. *)

Definition fraction (p : positive) (e : Z) : Z * Z :=
  if (0 <=? e)%Z then (Zpos p * 2 ^ e, 1)%Z else (Zpos p, 2 ^ (- e))%Z.

(** The [n] with [10^(n-1) <= num / den < 10^n]. *)
Fixpoint exponent_up (fuel : nat) (num den n : Z) : Z :=
  match fuel with
  | O => n
  | S f => if (num <? den * 10 ^ n)%Z then n else exponent_up f num den (n + 1)%Z
  end.

Fixpoint exponent_down (fuel : nat) (num den j : Z) : Z :=
  match fuel with
  | O => j
  | S f => if (den <=? num * 10 ^ j)%Z then j else exponent_down f num den (j + 1)%Z
  end.

Definition decimal_exponent (num den : Z) : Z :=
  if (den <=? num)%Z then exponent_up 400 num den 1
  else (1 - exponent_down 400 num den 1)%Z.

(** [x * 10^(k-n)], as a fraction. *)
Definition scaled (num den n k : Z) : Z * Z :=
  let p := (k - n)%Z in
  if (0 <=? p)%Z then (num * 10 ^ p, den)%Z else (num, den * 10 ^ (- p))%Z.

Definition reads_as (x : number) (s n k : Z) : bool :=
  number_eqb (number_of_decimal false s (n - k)) x.

Definition nearest (lo r d : Z) : Z :=
  match (2 * r ?= d)%Z with
  | Lt => lo
  | Gt => (lo + 1)%Z
  | Eq => if Z.even lo then lo else (lo + 1)%Z
  end.

(** The [s] of [k] digits, if there is one: it is next to [x * 10^(k-n)],
    below or above. *)
Definition significand (x : number) (num den n k : Z) : option Z :=
  let '(N, D) := scaled num den n k in
  let lo := (N / D)%Z in
  let r := (N mod D)%Z in
  match reads_as x lo n k, reads_as x (lo + 1) n k with
  | true, true => Some (nearest lo r D)
  | true, false => Some lo
  | false, true => Some (lo + 1)%Z
  | false, false => None
  end.

(** The least [k], from the given one on; seventeen digits always do. *)
Fixpoint shortest (fuel : nat) (x : number) (num den n k : Z) : Z * Z :=
  match fuel with
  | O => let '(N, D) := scaled num den n k in (nearest (N / D) (N mod D) D, k)
  | S f =>
      match significand x num den n k with
      | Some s => (s, k)
      | None => shortest f x num den n (k + 1)%Z
      end
  end.

(** [s], [k] and [n] for [p * 2^e]. *)
Definition decimal_of (p : positive) (e : Z) : Z * Z * Z :=
  let '(num, den) := fraction p e in
  let n := decimal_exponent num den in
  let '(s, k) := shortest 16 (S754_finite false p e) num den n 1 in
  if (s =? 10 ^ k)%Z then (10 ^ (k - 1), k, n + 1)%Z else (s, k, n).

Fixpoint uint_chars (u : Decimal.uint) : list ascii :=
  match u with
  | Nil => []
  | D0 u => "0" :: uint_chars u | D1 u => "1" :: uint_chars u
  | D2 u => "2" :: uint_chars u | D3 u => "3" :: uint_chars u
  | D4 u => "4" :: uint_chars u | D5 u => "5" :: uint_chars u
  | D6 u => "6" :: uint_chars u | D7 u => "7" :: uint_chars u
  | D8 u => "8" :: uint_chars u | D9 u => "9" :: uint_chars u
  end.

(** The decimal digits of a natural number. *)
Definition Z_chars (z : Z) : list ascii := uint_chars (N.to_uint (Z.to_N z)).

Definition zeros (n : Z) : list ascii := repeat "0" (Z.to_nat n).

(** The text: plain digits up to [10^21], a leading [0.] down to [10^-6],
    the exponent notation beyond. *)
Definition Number_toString_finite (p : positive) (e : Z) : list ascii :=
  let '(s, k, n) := decimal_of p e in
  let ds := Z_chars s in
  if ((k <=? n) && (n <=? 21))%Z then ds ++ zeros (n - k)%Z
  else if ((0 <? n) && (n <=? 21))%Z then
    firstn (Z.to_nat n) ds ++ "." :: skipn (Z.to_nat n) ds
  else if ((-6 <? n) && (n <=? 0))%Z then
    "0" :: "." :: zeros (- n)%Z ++ ds
  else
    let ex := (n - 1)%Z in
    let sign := if (ex <? 0)%Z then "-" else "+" in
    match ds with
    | [] => []
    | [d] => d :: "e" :: sign :: Z_chars (Z.abs ex)
    | d :: rest => d :: "." :: rest ++ "e" :: sign :: Z_chars (Z.abs ex)
    end.

Definition Number_toString (x : number) : list ascii :=
  match x with
  | S754_zero _ => ["0"]
  | S754_nan => list_ascii_of_string "NaN"
  | S754_infinity s => (if s then ["-"] else []) ++ list_ascii_of_string "Infinity"
  | S754_finite s p e => (if s then ["-"] else []) ++ Number_toString_finite p e
  end.

(** A number in JSON text: its [toString] when it is finite, [null] when
    it is an infinity or NaN. *)
Definition print_number (n : number) : list ascii :=
  match n with
  | S754_zero _ | S754_finite _ _ _ => Number_toString n
  | S754_infinity _ | S754_nan => list_ascii_of_string "null"
  end.

(** QuoteJSONString, one byte at a time. *)
Definition print_char (c : ascii) : list ascii :=
  let n := N_of_ascii c in
  if Ascii.eqb c dquote then ["\"; dquote]
  else if Ascii.eqb c "\" then ["\"; "\"]
  else if (n =? 8)%N then ["\"; "b"]
  else if (n =? 9)%N then ["\"; "t"]
  else if (n =? 10)%N then ["\"; "n"]
  else if (n =? 12)%N then ["\"; "f"]
  else if (n =? 13)%N then ["\"; "r"]
  else if (n <? 32)%N then ["\"; "u"; "0"; "0"; hex_char (n / 16); hex_char (n mod 16)]
  else [c].

Definition print_string (s : string) : list ascii :=
  dquote :: flat_map print_char (list_ascii_of_string s) ++ [dquote].

(** The pieces of an array or object, with commas between them. *)
Fixpoint commas (pieces : list (list ascii)) : list ascii :=
  match pieces with
  | [] => []
  | [p] => p
  | p :: rest => p ++ "," :: commas rest
  end.

Fixpoint print_value (v : value) : list ascii :=
  match v with
  | VNull => list_ascii_of_string "null"
  | VBool true => list_ascii_of_string "true"
  | VBool false => list_ascii_of_string "false"
  | VNum n => print_number n
  | VStr s => print_string s
  | VArr elems => "[" :: commas (map print_value elems) ++ ["]"]
  | VObj props =>
      "{" :: commas (map (fun kv => print_string (fst kv) ++ ":" :: print_value (snd kv)) props)
          ++ ["}"]
  end.

Definition JSON_stringify (v : value) : string :=
  string_of_list_ascii (print_value v).

(** *** [JSON.parse] *)

Definition is_ws (c : ascii) : bool :=
  let n := N_of_ascii c in ((n =? 32) || (n =? 9) || (n =? 10) || (n =? 13))%N.

Fixpoint skip_ws (s : list ascii) : list ascii :=
  match s with
  | c :: r => if is_ws c then skip_ws r else s
  | [] => []
  end.

Fixpoint scan_digits (s : list ascii) : list digit * list ascii :=
  match s with
  | c :: r =>
      match char_digit c with
      | Some d => let '(ds, rest) := scan_digits r in (d :: ds, rest)
      | None => ([], s)
      end
  | [] => ([], [])
  end.

Definition digit_val (d : digit) : N :=
  match d with
  | d0 => 0 | d1 => 1 | d2 => 2 | d3 => 3 | d4 => 4
  | d5 => 5 | d6 => 6 | d7 => 7 | d8 => 8 | d9 => 9
  end%N.

Definition digits_val (ds : list digit) : N :=
  fold_left (fun acc d => (10 * acc + digit_val d)%N) ds 0%N.

(** The JSON grammar wants [0] or a first digit other than [0]. *)
Definition int_ok (i : list digit) : bool :=
  match i with
  | [] => false
  | [_] => true
  | d :: _ => negb (is_d0 d)
  end.

(** The exponent part, if there is one: sign, digits, rest. *)
Definition scan_exponent (s : list ascii) : option (bool * list digit * list ascii) :=
  match s with
  | c :: r =>
      if Ascii.eqb c "e" || Ascii.eqb c "E" then
        let '(neg, r') :=
          match r with
          | c' :: r'' =>
              if Ascii.eqb c' "-" then (true, r'')
              else if Ascii.eqb c' "+" then (false, r'') else (false, r)
          | [] => (false, r)
          end in
        match scan_digits r' with
        | ([], _) => None
        | (ds, rest) => Some (neg, ds, rest)
        end
      else Some (false, [], s)
  | [] => Some (false, [], s)
  end.

(** The fraction part, if there is one: digits, rest. *)
Definition scan_fraction (s : list ascii) : option (list digit * list ascii) :=
  match s with
  | c :: r =>
      if Ascii.eqb c "." then
        match scan_digits r with
        | ([], _) => None
        | (f, rest) => Some (f, rest)
        end
      else Some ([], s)
  | [] => Some ([], s)
  end.

(** A number after its sign: the digits before and after the point are
    one integer, and the exponent is less by the number of digits after
    the point. *)
Definition parse_unsigned (neg : bool) (s : list ascii) : option (number * list ascii) :=
  let '(i, s2) := scan_digits s in
  if negb (int_ok i) then None
  else
    match scan_fraction s2 with
    | None => None
    | Some (f, s3) =>
        match scan_exponent s3 with
        | None => None
        | Some (eneg, eds, rest) =>
            let ex := Z.of_N (digits_val eds) in
            Some (number_of_decimal neg (Z.of_N (digits_val (i ++ f)))
                    ((if eneg then - ex else ex) - Z.of_nat (length f))%Z, rest)
        end
    end.

Definition parse_number (s : list ascii) : option (number * list ascii) :=
  match s with
  | c :: r => if Ascii.eqb c "-" then parse_unsigned true r else parse_unsigned false s
  | [] => None
  end.

(** A code point as UTF-8 bytes. *)
Definition utf8 (cp : N) : list ascii :=
  (if cp <? 128 then [ascii_of_N cp]
   else if cp <? 2048 then [ascii_of_N (192 + cp / 64); ascii_of_N (128 + cp mod 64)]
   else if cp <? 65536 then
     [ascii_of_N (224 + cp / 4096); ascii_of_N (128 + (cp / 64) mod 64);
      ascii_of_N (128 + cp mod 64)]
   else
     [ascii_of_N (240 + cp / 262144); ascii_of_N (128 + (cp / 4096) mod 64);
      ascii_of_N (128 + (cp / 64) mod 64); ascii_of_N (128 + cp mod 64)])%N.

Definition hex4 (a b c d : ascii) : option N :=
  match char_hex a, char_hex b, char_hex c, char_hex d with
  | Some x, Some y, Some z, Some w => Some (((x * 16 + y) * 16 + z) * 16 + w)%N
  | _, _, _, _ => None
  end.

Definition is_high_surrogate (cp : N) : bool := ((55296 <=? cp) && (cp <? 56320))%N.
Definition is_low_surrogate (cp : N) : bool := ((56320 <=? cp) && (cp <? 57344))%N.

Definition prepend (cs : list ascii) (r : option (list ascii * list ascii))
  : option (list ascii * list ascii) :=
  match r with
  | Some (body, rest) => Some (cs ++ body, rest)
  | None => None
  end.

(** The one-letter escapes. *)
Definition simple_escape (e : ascii) : option ascii :=
  if Ascii.eqb e dquote then Some dquote
  else if Ascii.eqb e "\" then Some "\"
  else if Ascii.eqb e "/" then Some "/"
  else if Ascii.eqb e "b" then Some (ascii_of_N 8)
  else if Ascii.eqb e "f" then Some (ascii_of_N 12)
  else if Ascii.eqb e "n" then Some (ascii_of_N 10)
  else if Ascii.eqb e "r" then Some (ascii_of_N 13)
  else if Ascii.eqb e "t" then Some (ascii_of_N 9)
  else None.

(** The characters of a string, after its opening quotation mark, up to
    and including the closing one. *)
Fixpoint parse_chars (s : list ascii) : option (list ascii * list ascii) :=
  match s with
  | [] => None
  | c :: r =>
      if Ascii.eqb c dquote then Some ([], r)
      else if Ascii.eqb c "\" then
        match r with
        | [] => None
        | e :: r1 =>
            match simple_escape e with
            | Some c' => prepend [c'] (parse_chars r1)
            | None =>
                if Ascii.eqb e "u" then
                  match r1 with
                  | h1 :: h2 :: h3 :: h4 :: r2 =>
                      match hex4 h1 h2 h3 h4 with
                      | None => None
                      | Some cp =>
                          if is_high_surrogate cp then
                            (* a pair of escapes for one code point? *)
                            match r2 with
                            | b :: u :: l1 :: l2 :: l3 :: l4 :: r3 =>
                                match hex4 l1 l2 l3 l4 with
                                | Some lo =>
                                    if Ascii.eqb b "\" && Ascii.eqb u "u"
                                       && is_low_surrogate lo
                                    then prepend
                                           (utf8 (65536 + (cp - 55296) * 1024 + (lo - 56320))%N)
                                           (parse_chars r3)
                                    else prepend (utf8 cp) (parse_chars r2)
                                | None => prepend (utf8 cp) (parse_chars r2)
                                end
                            | _ => prepend (utf8 cp) (parse_chars r2)
                            end
                          else prepend (utf8 cp) (parse_chars r2)
                      end
                  | _ => None
                  end
                else None
            end
        end
      else if (N_of_ascii c <? 32)%N then None
      else prepend [c] (parse_chars r)
  end.

Definition parse_string (s : list ascii) : option (string * list ascii) :=
  match parse_chars s with
  | Some (body, rest) => Some (string_of_list_ascii body, rest)
  | None => None
  end.

(** A literal name, [null], [true] or [false]. *)
Fixpoint expect (word s : list ascii) : option (list ascii) :=
  match word with
  | [] => Some s
  | w :: word' =>
      match s with
      | c :: r => if Ascii.eqb c w then expect word' r else None
      | [] => None
      end
  end.

Inductive presult (A : Type) :=
| POk (a : A) (rest : list ascii)
| PErr
| PFuel.
Arguments POk {A} a rest.
Arguments PErr {A}.
Arguments PFuel {A}.

(** A value, the elements of an array after its first one is known to be
    there, and the members of an object likewise.  Each call uses up one
    unit of [fuel]. *)
Fixpoint parse_value (fuel : nat) (s : list ascii) : presult value :=
  match fuel with
  | O => PFuel
  | S fuel' =>
      match skip_ws s with
      | [] => PErr
      | c :: r =>
          if Ascii.eqb c "{" then
            match skip_ws r with
            | c' :: r' =>
                if Ascii.eqb c' "}" then POk (VObj []) r'
                else
                  match parse_members fuel' r with
                  | POk ms rest =>
                      POk (VObj (fold_left (fun o kv => obj_set (fst kv) (snd kv) o) ms [])) rest
                  | PErr => PErr
                  | PFuel => PFuel
                  end
            | [] => PErr
            end
          else if Ascii.eqb c "[" then
            match skip_ws r with
            | c' :: r' =>
                if Ascii.eqb c' "]" then POk (VArr []) r'
                else
                  match parse_elems fuel' r with
                  | POk vs rest => POk (VArr vs) rest
                  | PErr => PErr
                  | PFuel => PFuel
                  end
            | [] => PErr
            end
          else if Ascii.eqb c dquote then
            match parse_string r with
            | Some (str, rest) => POk (VStr str) rest
            | None => PErr
            end
          else if Ascii.eqb c "n" then
            match expect (list_ascii_of_string "ull") r with
            | Some rest => POk VNull rest
            | None => PErr
            end
          else if Ascii.eqb c "t" then
            match expect (list_ascii_of_string "rue") r with
            | Some rest => POk (VBool true) rest
            | None => PErr
            end
          else if Ascii.eqb c "f" then
            match expect (list_ascii_of_string "alse") r with
            | Some rest => POk (VBool false) rest
            | None => PErr
            end
          else
            match parse_number (c :: r) with
            | Some (n, rest) => POk (VNum n) rest
            | None => PErr
            end
      end
  end
with parse_elems (fuel : nat) (s : list ascii) : presult (list value) :=
  match fuel with
  | O => PFuel
  | S fuel' =>
      match parse_value fuel' s with
      | POk v r =>
          match skip_ws r with
          | c :: r' =>
              if Ascii.eqb c "," then
                match parse_elems fuel' r' with
                | POk vs rest => POk (v :: vs) rest
                | PErr => PErr
                | PFuel => PFuel
                end
              else if Ascii.eqb c "]" then POk [v] r'
              else PErr
          | [] => PErr
          end
      | PErr => PErr
      | PFuel => PFuel
      end
  end
with parse_members (fuel : nat) (s : list ascii) : presult (list (string * value)) :=
  match fuel with
  | O => PFuel
  | S fuel' =>
      match skip_ws s with
      | q :: r0 =>
          if Ascii.eqb q dquote then
            match parse_string r0 with
            | Some (k, r1) =>
                match skip_ws r1 with
                | colon :: r2 =>
                    if Ascii.eqb colon ":" then
                      match parse_value fuel' r2 with
                      | POk v r3 =>
                          match skip_ws r3 with
                          | c :: r4 =>
                              if Ascii.eqb c "," then
                                match parse_members fuel' r4 with
                                | POk ms rest => POk ((k, v) :: ms) rest
                                | PErr => PErr
                                | PFuel => PFuel
                                end
                              else if Ascii.eqb c "}" then POk [(k, v)] r4
                              else PErr
                          | [] => PErr
                          end
                      | PErr => PErr
                      | PFuel => PFuel
                      end
                    else PErr
                | [] => PErr
                end
            | None => PErr
            end
          else PErr
      | [] => PErr
      end
  end.

(** [JSON.parse(text)]: [None] is the [SyntaxError] it throws.  Two units
    of fuel for every byte of the text cannot run out ([parse_fuel_enough]
    below). *)
Definition JSON_parse (text : string) : option value :=
  let s := list_ascii_of_string text in
  match parse_value (2 * length s + 2) s with
  | POk v rest => match skip_ws rest with [] => Some v | _ => None end
  | PErr | PFuel => None
  end.

(** *** What the two do to a value, one after the other

    [JSON.stringify] prints an infinity or NaN as [null] and either zero
    as [0]; everything else it prints is read back by [JSON.parse] as it
    was. *)

Definition carried (n : number) : value :=
  match n with
  | S754_finite _ _ _ => VNum n
  | S754_zero _ => VNum (S754_zero false)
  | S754_infinity _ | S754_nan => VNull
  end.

(** What [JSON.parse(JSON.stringify(v))] gives ([JSON_parse_stringify]
    below). *)
Fixpoint through_JSON (v : value) : value :=
  match v with
  | VNum n => carried n
  | VArr elems => VArr (map through_JSON elems)
  | VObj props => VObj (map (fun kv => (fst kv, through_JSON (snd kv))) props)
  | VNull | VBool _ | VStr _ => v
  end.

(** The text of the number is a number's text and is read as the number
    itself: at this number the two conversions above are inverse to each
    other.  They are at every finite binary64 number but the negative zero
    (that theorem of floating-point arithmetic is not proved here; the
    test is run where a number is given), and at no other. *)
Definition reads_back (n : number) : bool :=
  match parse_number (print_number n) with
  | Some (n', []) => number_eqb n' n
  | _ => false
  end.

Definition has_key (k : string) (props : list (string * value)) : bool :=
  existsb (fun kv => String.eqb k (fst kv)) props.

Fixpoint unique_keys (props : list (string * value)) : bool :=
  match props with
  | [] => true
  | kv :: r => negb (has_key (fst kv) r) && unique_keys r
  end.

(** Values that go through JSON unchanged: every number is read back and
    every object has one entry per key, all the way down. *)
Fixpoint wf_value (v : value) : bool :=
  match v with
  | VNull | VBool _ | VStr _ => true
  | VNum n => reads_back n
  | VArr elems => forallb wf_value elems
  | VObj props => unique_keys props && forallb (fun kv => wf_value (snd kv)) props
  end.

(** Values that go through JSON as [through_JSON] says: the same, but an
    infinity, NaN or the negative zero may be among the numbers. *)
Fixpoint serializable (v : value) : bool :=
  match v with
  | VNull | VBool _ | VStr _ => true
  | VNum (S754_finite s m e) => reads_back (S754_finite s m e)
  | VNum _ => true
  | VArr elems => forallb serializable elems
  | VObj props => unique_keys props && forallb (fun kv => serializable (snd kv)) props
  end.

(** One entry per key in every object, all the way down: what [JSON.parse]
    builds. *)
Fixpoint keys_ok (v : value) : bool :=
  match v with
  | VNull | VBool _ | VNum _ | VStr _ => true
  | VArr elems => forallb keys_ok elems
  | VObj props => unique_keys props && forallb (fun kv => keys_ok (snd kv)) props
  end.

(** Every finite number in the value is read back. *)
Fixpoint numbers_read_back (v : value) : bool :=
  match v with
  | VNull | VBool _ | VStr _ => true
  | VNum (S754_finite s m e) => reads_back (S754_finite s m e)
  | VNum _ => true
  | VArr elems => forallb numbers_read_back elems
  | VObj props => forallb (fun kv => numbers_read_back (snd kv)) props
  end.

(** ** The host: [window.localStorage]

    A store either takes every write or refuses every write (storage
    disabled by the user, a frame without access to it, a zero quota):
    [setItem] then throws.  A quota reached in the middle of a session is
    not modelled.  [calls] records every call made on the store, refused
    ones too. *)

Inductive exn := SyntaxError | TypeError | QuotaExceededError.

Inductive storage_call :=
| GetItem (k : string)
| SetItem (k v : string)
| RemoveItem (k : string).

Record Storage := mkStorage {
  items : gmap string string;
  writable : bool;
  calls : list storage_call
}.

(** ** The host: the video.js player *)

Record TextTrack := mkTextTrack {
  tt_language : string;
  tt_default : bool;
  tt_mode : string
}.

Record AudioTrack := mkAudioTrack {
  at_language : string;
  at_enabled : bool
}.

(** The merged options [onPlayerReady] receives. *)
Record Options := mkOptions {
  o_muted : bool;
  o_volume : bool;
  o_playbackRate : bool;
  o_captions : bool;
  o_audioTrack : bool
}.

(** The four closures [onPlayerReady] subscribes.  [data] is the address of
    the record object they all close over; the volume handler also closes
    over the [muted] and [volume] options. *)
Inductive Handler :=
| OnVolumeChange (muted volume : bool) (data : nat)
| OnRateChange (data : nat)
| OnTextTrackChange (data : nat)
| OnAudioTrackChange (data : nat).

(** The player is a loosely typed bag: a setter stores what it is given
    and a getter returns what is stored.  What video.js itself does with a
    value or in reaction to a write (coercing or clamping it, disabling the
    other audio tracks when one is enabled, firing the change events) is its
    own business and not the plugin's: changes of the player's state and the
    events that go with them are the [change]s below. *)
Record Player := mkPlayer {
  classes : list string;
  p_muted : value;
  p_volume : value;
  p_playbackRate : value;
  p_defaultMuted : value;
  p_defaultPlaybackRate : value;
  (** [player.playbackRates()], where the video.js version has the method *)
  p_playbackRates : option (list number);
  (** [player.options_.playbackRates] *)
  p_options_playbackRates : option (list number);
  (** [player.textTracks().tracks_] *)
  textTracks : list TextTrack;
  (** whether the private [player.textTracks_] is set.  video.js fills it
      with the list [player.textTracks()] returns, and with no other, when
      the getter is called before a tech is loaded and when a tech is
      unloaded; on a player that has had neither it is [undefined] *)
  has_textTracks_ : bool;
  (** [player.audioTracks().tracks_] *)
  audioTracks : list AudioTrack;
  (** [player.on(event, handler)] *)
  listeners : list (string * Handler);
  (** [player.audioTracks().addEventListener(event, handler)] *)
  audio_listeners : list (string * Handler);
  (** callbacks given to [player.ready] that have not run yet: the plugin's
      closure, with the merged options it will pass to [onPlayerReady] *)
  ready_queue : list Options
}.

(** The world: the player, the store, the log, and the objects the
    handlers' closures refer to. *)
Record World := mkWorld {
  player : Player;
  localStorage : Storage;
  (** [videojs.log] *)
  console : list string;
  heap : list value
}.

(** ** Computations on the world that may throw *)

Inductive result (A : Type) :=
| Ret (a : A) (w : World)
| Throw (e : exn) (w : World).
Arguments Ret {A} a w.
Arguments Throw {A} e w.

Definition M (A : Type) : Type := World -> result A.

Definition ret {A} (a : A) : M A := fun w => Ret a w.
Definition throw {A} (e : exn) : M A := fun w => Throw e w.
Definition bind {A B} (m : M A) (k : A -> M B) : M B :=
  fun w => match m w with
           | Ret a w' => k a w'
           | Throw e w' => Throw e w'
           end.

(** [try { body } catch (error) { handler }] *)
Definition try_catch {A} (body : M A) (handler : exn -> M A) : M A :=
  fun w => match body w with
           | Ret a w' => Ret a w'
           | Throw e w' => handler e w'
           end.

Notation "'let*' x := c 'in' k" := (bind c (fun x => k))
  (at level 10, x name, c at level 100, k at level 200).
Notation "c ;; k" := (bind c (fun _ => k))
  (at level 100, k at level 200, right associativity).

Definition get_player : M Player := fun w => Ret (player w) w.

Definition modify_player (f : Player -> Player) : M unit :=
  fun w => Ret tt (mkWorld (f (player w)) (localStorage w) (console w) (heap w)).

Definition with_storage (st : Storage) (w : World) : World :=
  mkWorld (player w) st (console w) (heap w).

(** [localStorage.getItem(k)]: [None] is [null]. *)
Definition localStorage_getItem (k : string) : M (option string) :=
  fun w =>
    let st := localStorage w in
    Ret (items st !! k)
        (with_storage (mkStorage (items st) (writable st) (calls st ++ [GetItem k])) w).

Definition localStorage_setItem (k v : string) : M unit :=
  fun w =>
    let st := localStorage w in
    if writable st then
      Ret tt (with_storage
                (mkStorage (<[k := v]> (items st)) true (calls st ++ [SetItem k v])) w)
    else
      Throw QuotaExceededError
            (with_storage (mkStorage (items st) false (calls st ++ [SetItem k v])) w).

Definition localStorage_removeItem (k : string) : M unit :=
  fun w =>
    let st := localStorage w in
    Ret tt (with_storage
              (mkStorage (delete k (items st)) (writable st) (calls st ++ [RemoveItem k])) w).

Definition videojs_log (msg : string) : M unit :=
  fun w => Ret tt (mkWorld (player w) (localStorage w) (console w ++ [msg]) (heap w)).

(** A new object; its address is returned. *)
Definition alloc (v : value) : M nat :=
  fun w => Ret (length (heap w))
               (mkWorld (player w) (localStorage w) (console w) (heap w ++ [v])).

(** The object at an address.  Handlers are only made by [onPlayerReady],
    after it has made their object, so the address is always in the heap;
    the other case is there for totality. *)
Definition deref (r : nat) : M value :=
  fun w => match heap w !! r with
           | Some v => Ret v w
           | None => Throw TypeError w
           end.

(** [data[k] = v] on the object at address [r]. *)
Definition assign (r : nat) (k : string) (v : value) : M unit :=
  fun w => match heap w !! r with
           | Some d =>
               match set_prop d k v with
               | Some d' =>
                   Ret tt (mkWorld (player w) (localStorage w) (console w)
                                   (<[r := d']> (heap w)))
               | None => Throw TypeError w
               end
           | None => Throw TypeError w
           end.

(** [JSON.parse(raw)]; a [null] argument is first turned into the text
    [null]. *)
Definition JSON_parse_arg (raw : option string) : M value :=
  match JSON_parse (match raw with Some s => s | None => "null"%string end) with
  | Some v => ret v
  | None => throw SyntaxError
  end.

(** *** Player accessors *)

Definition set_classes (x : list string) (p : Player) : Player :=
  mkPlayer x (p_muted p) (p_volume p) (p_playbackRate p) (p_defaultMuted p)
           (p_defaultPlaybackRate p) (p_playbackRates p) (p_options_playbackRates p)
           (textTracks p) (has_textTracks_ p) (audioTracks p) (listeners p)
           (audio_listeners p) (ready_queue p).

Definition set_muted (x : value) (p : Player) : Player :=
  mkPlayer (classes p) x (p_volume p) (p_playbackRate p) (p_defaultMuted p)
           (p_defaultPlaybackRate p) (p_playbackRates p) (p_options_playbackRates p)
           (textTracks p) (has_textTracks_ p) (audioTracks p) (listeners p)
           (audio_listeners p) (ready_queue p).

Definition set_volume (x : value) (p : Player) : Player :=
  mkPlayer (classes p) (p_muted p) x (p_playbackRate p) (p_defaultMuted p)
           (p_defaultPlaybackRate p) (p_playbackRates p) (p_options_playbackRates p)
           (textTracks p) (has_textTracks_ p) (audioTracks p) (listeners p)
           (audio_listeners p) (ready_queue p).

Definition set_playbackRate (x : value) (p : Player) : Player :=
  mkPlayer (classes p) (p_muted p) (p_volume p) x (p_defaultMuted p)
           (p_defaultPlaybackRate p) (p_playbackRates p) (p_options_playbackRates p)
           (textTracks p) (has_textTracks_ p) (audioTracks p) (listeners p)
           (audio_listeners p) (ready_queue p).

Definition set_defaultMuted (x : value) (p : Player) : Player :=
  mkPlayer (classes p) (p_muted p) (p_volume p) (p_playbackRate p) x
           (p_defaultPlaybackRate p) (p_playbackRates p) (p_options_playbackRates p)
           (textTracks p) (has_textTracks_ p) (audioTracks p) (listeners p)
           (audio_listeners p) (ready_queue p).

Definition set_defaultPlaybackRate (x : value) (p : Player) : Player :=
  mkPlayer (classes p) (p_muted p) (p_volume p) (p_playbackRate p) (p_defaultMuted p)
           x (p_playbackRates p) (p_options_playbackRates p)
           (textTracks p) (has_textTracks_ p) (audioTracks p) (listeners p)
           (audio_listeners p) (ready_queue p).

Definition set_textTracks (x : list TextTrack) (p : Player) : Player :=
  mkPlayer (classes p) (p_muted p) (p_volume p) (p_playbackRate p) (p_defaultMuted p)
           (p_defaultPlaybackRate p) (p_playbackRates p) (p_options_playbackRates p)
           x (has_textTracks_ p) (audioTracks p) (listeners p) (audio_listeners p)
           (ready_queue p).

Definition set_audioTracks (x : list AudioTrack) (p : Player) : Player :=
  mkPlayer (classes p) (p_muted p) (p_volume p) (p_playbackRate p) (p_defaultMuted p)
           (p_defaultPlaybackRate p) (p_playbackRates p) (p_options_playbackRates p)
           (textTracks p) (has_textTracks_ p) x (listeners p) (audio_listeners p)
           (ready_queue p).

Definition set_listeners (x : list (string * Handler)) (p : Player) : Player :=
  mkPlayer (classes p) (p_muted p) (p_volume p) (p_playbackRate p) (p_defaultMuted p)
           (p_defaultPlaybackRate p) (p_playbackRates p) (p_options_playbackRates p)
           (textTracks p) (has_textTracks_ p) (audioTracks p) x (audio_listeners p)
           (ready_queue p).

Definition set_audio_listeners (x : list (string * Handler)) (p : Player) : Player :=
  mkPlayer (classes p) (p_muted p) (p_volume p) (p_playbackRate p) (p_defaultMuted p)
           (p_defaultPlaybackRate p) (p_playbackRates p) (p_options_playbackRates p)
           (textTracks p) (has_textTracks_ p) (audioTracks p) (listeners p) x
           (ready_queue p).

Definition set_ready_queue (x : list Options) (p : Player) : Player :=
  mkPlayer (classes p) (p_muted p) (p_volume p) (p_playbackRate p) (p_defaultMuted p)
           (p_defaultPlaybackRate p) (p_playbackRates p) (p_options_playbackRates p)
           (textTracks p) (has_textTracks_ p) (audioTracks p) (listeners p)
           (audio_listeners p) x.

(** [player.addClass(c)] *)
Definition addClass (c : string) (p : Player) : Player :=
  if existsb (String.eqb c) (classes p) then p else set_classes (classes p ++ [c]) p.

(** [player.textTracks_.tracks_]: a [TypeError] where [player.textTracks_]
    is [undefined]. *)
Definition player_textTracks_tracks_ : M (list TextTrack) :=
  fun w => if has_textTracks_ (player w) then Ret (textTracks (player w)) w
           else Throw TypeError w.

(** [player.on(event, handler)] *)
Definition player_on (event : string) (h : Handler) : M unit :=
  modify_player (fun p => set_listeners (listeners p ++ [(event, h)]) p).

(** [audioTrackList.addEventListener(event, handler)] *)
Definition audioTracks_addEventListener (event : string) (h : Handler) : M unit :=
  modify_player (fun p => set_audio_listeners (audio_listeners p ++ [(event, h)]) p).

(** [player.ready(callback)]: the callback runs later, never inside the call. *)
Definition player_ready (callback : Options) : M unit :=
  modify_player (fun p => set_ready_queue (ready_queue p ++ [callback]) p).

(** [array.find(p)] where the caller goes on to write to what it found:
    the track object itself is found, so the model finds its index.  Where
    the caller only reads, [List.find] does. *)
Fixpoint find_index {A} (p : A -> bool) (l : list A) : option nat :=
  match l with
  | [] => None
  | x :: r => if p x then Some 0 else option_map S (find_index p r)
  end.

(** [array.forEach(f)] *)
Fixpoint forEach {A} (l : list A) (f : A -> M unit) : M unit :=
  match l with
  | [] => ret tt
  | x :: r => f x ;; forEach r f
  end.

(** [track.mode = m] *)
Definition set_mode (m : string) (track : TextTrack) : TextTrack :=
  mkTextTrack (tt_language track) (tt_default track) m.

(** [track.enabled = b] *)
Definition set_enabled (b : bool) (track : AudioTrack) : AudioTrack :=
  mkAudioTrack (at_language track) b.

(** ** The plugin, [src/plugin.js] *)

Local Open Scope string_scope.

Module PLUGIN_CONFIG.
Definition key : string := "persist-controls".
Definition defaultOptions : Options := mkOptions true true true true true.
Definition persistOptions : list string :=
  ["volume"; "muted"; "playbackRate"; "captions"; "audioTrack"].
End PLUGIN_CONFIG.

Module PLAYER_ACTIONS.
Definition volumeChange : string := "volumechange".
Definition rateChange : string := "ratechange".
Definition textTrackChange : string := "texttrackchange".
End PLAYER_ACTIONS.

(** The options object the caller passes: each recognised key is there or
    not. *)
Record UserOptions := mkUserOptions {
  u_muted : option bool;
  u_volume : option bool;
  u_playbackRate : option bool;
  u_captions : option bool;
  u_audioTrack : option bool
}.

(** [videojs.obj.merge(defaults, options)] on the recognised keys. *)
Definition merge (defaults : Options) (options : UserOptions) : Options :=
  mkOptions (default (o_muted defaults) (u_muted options))
            (default (o_volume defaults) (u_volume options))
            (default (o_playbackRate defaults) (u_playbackRate options))
            (default (o_captions defaults) (u_captions options))
            (default (o_audioTrack defaults) (u_audioTrack options)).

(** [options[option]] *)
Definition option_enabled (options : Options) (option : string) : bool :=
  if String.eqb option "muted" then o_muted options
  else if String.eqb option "volume" then o_volume options
  else if String.eqb option "playbackRate" then o_playbackRate options
  else if String.eqb option "captions" then o_captions options
  else if String.eqb option "audioTrack" then o_audioTrack options
  else false.

(** [player[option](value)] *)
Definition player_call (option : string) (v : value) : M unit :=
  if String.eqb option "muted" then modify_player (set_muted v)
  else if String.eqb option "volume" then modify_player (set_volume v)
  else if String.eqb option "playbackRate" then modify_player (set_playbackRate v)
  else throw TypeError.

Definition checkLocalStorageAvailability : M bool :=
  let testKey := "persist-controls-test" in
  try_catch
    (localStorage_setItem testKey "." ;;
     localStorage_removeItem testKey ;;
     ret true)
    (fun error => ret false).

(** The [captions] branch of the start-up pass, on the track list it
    reads and writes. *)
Definition show_track (v : value) (tracks : list TextTrack) : list TextTrack :=
  let defaultTrack := find_index tt_default tracks in
  let trackToShow := find_index (fun track => strict_eq_str (tt_language track) v) tracks in
  match defaultTrack, trackToShow with
  | Some i, _ => alter (set_mode "showing") i tracks
  | None, Some j => alter (set_mode "showing") j tracks
  | None, None => tracks
  end.

Definition apply_captions (v : value) : M unit :=
  modify_player (fun p => set_textTracks (show_track v (textTracks p)) p).

(** The [audioTrack] branch of the start-up pass, likewise. *)
Definition swap_audioTrack (v : value) (audioTrackList : list AudioTrack) : list AudioTrack :=
  let defaultTrack := find_index at_enabled audioTrackList in
  let trackToShow :=
    find_index (fun track => strict_eq_str (at_language track) v) audioTrackList in
  let disabled :=
    match defaultTrack, trackToShow with
    | Some i, Some _ => alter (set_enabled false) i audioTrackList
    | _, _ => audioTrackList
    end in
  match trackToShow with
  | Some j => alter (set_enabled true) j disabled
  | None => disabled
  end.

Definition apply_audioTrack (v : value) : M unit :=
  modify_player (fun p => set_audioTracks (swap_audioTrack v (audioTracks p)) p).

(** The callback of [persistOptions.forEach].  [data] is the record, which
    the pass reads and does not write. *)
Definition apply_option (options : Options) (data : value) (playerRates : list number)
    (option : string) : M unit :=
  if negb (option_enabled options option) then ret tt
  else
    let value := get_prop data option in
    match value with
    | Some v =>
        if truthy v then
          if String.eqb option "playbackRate" && negb (includes playerRates v) then ret tt
          else if String.eqb option "captions" then apply_captions v
          else if String.eqb option "audioTrack" then apply_audioTrack v
          else player_call option v
        else ret tt
    | None => ret tt
    end.

(** The listeners. *)
Definition run_handler (h : Handler) : M unit :=
  match h with
  | OnVolumeChange muted volume data =>
      (if muted then
         let* p := get_player in
         let isMuted := p_muted p in
         modify_player (set_defaultMuted isMuted) ;;
         assign data "muted" isMuted
       else ret tt) ;;
      (if volume then
         let* p := get_player in
         assign data "volume" (p_volume p)
       else ret tt) ;;
      let* d := deref data in
      localStorage_setItem PLUGIN_CONFIG.key (JSON_stringify d)
  | OnRateChange data =>
      let* p := get_player in
      let _playbackRate := p_playbackRate p in
      modify_player (set_defaultPlaybackRate _playbackRate) ;;
      assign data "playbackRate" _playbackRate ;;
      let* d := deref data in
      localStorage_setItem PLUGIN_CONFIG.key (JSON_stringify d)
  | OnTextTrackChange data =>
      let* tracks := player_textTracks_tracks_ in
      let selectedTrack := List.find (fun track => String.eqb (tt_mode track) "showing") tracks in
      match selectedTrack with
      | Some track =>
          assign data "captions" (VStr (tt_language track)) ;;
          let* d := deref data in
          localStorage_setItem PLUGIN_CONFIG.key (JSON_stringify d)
      | None =>
          assign data "captions" (VStr EmptyString) ;;
          let* d := deref data in
          localStorage_setItem PLUGIN_CONFIG.key (JSON_stringify d)
      end
  | OnAudioTrackChange data =>
      let* p := get_player in
      let selectedTrack := List.find at_enabled (audioTracks p) in
      match selectedTrack with
      | Some track =>
          assign data "audioTrack" (VStr (at_language track)) ;;
          let* d := deref data in
          localStorage_setItem PLUGIN_CONFIG.key (JSON_stringify d)
      | None => throw TypeError
      end
  end.

Definition onPlayerReady (options : Options) : M unit :=
  modify_player (addClass "vjs-persist-controls") ;;
  let volume := o_volume options in
  let muted := o_muted options in
  let playbackRate := o_playbackRate options in
  let captions := o_captions options in
  let audioTrack := o_audioTrack options in
  let* raw := localStorage_getItem PLUGIN_CONFIG.key in
  let* parsed := JSON_parse_arg raw in
  let record := if truthy parsed then parsed else VObj [] in
  let* data := alloc record in
  let* p := get_player in
  let playerRates :=
    match p_playbackRates p with
    | Some rates => rates
    | None => default [] (p_options_playbackRates p)
    end in
  forEach PLUGIN_CONFIG.persistOptions (apply_option options record playerRates) ;;
  (if muted || volume
   then player_on PLAYER_ACTIONS.volumeChange (OnVolumeChange muted volume data)
   else ret tt) ;;
  (if playbackRate
   then player_on PLAYER_ACTIONS.rateChange (OnRateChange data)
   else ret tt) ;;
  (if captions
   then player_on PLAYER_ACTIONS.textTrackChange (OnTextTrackChange data)
   else ret tt) ;;
  (if audioTrack
   then audioTracks_addEventListener "change" (OnAudioTrackChange data)
   else ret tt).

Definition persistControls (options : UserOptions) : M unit :=
  let* isLocalStorageAvailable := checkLocalStorageAvailability in
  if negb isLocalStorageAvailable then
    videojs_log "localStorage unavailable."
  else
    player_ready (merge PLUGIN_CONFIG.defaultOptions options).

(** ** The host runs what the plugin registered *)

(** The player becomes ready: the queued callbacks run, each one
    [onPlayerReady] with its options. *)
Definition run_ready : M unit :=
  let* p := get_player in
  modify_player (set_ready_queue []) ;;
  forEach (ready_queue p) onPlayerReady.

(** video.js catches what a listener throws, reports it and goes on with
    the next listener. *)
Definition call_listener (h : Handler) : M unit :=
  try_catch (run_handler h) (fun _ => ret tt).

Definition listeners_for (event : string) (ls : list (string * Handler)) : list Handler :=
  map snd (filter (fun eh => String.eqb (fst eh) event = true) ls).

(** [player.trigger(event)] *)
Definition trigger (event : string) : M unit :=
  let* p := get_player in
  forEach (listeners_for event (listeners p)) call_listener.

(** [audioTrackList.trigger(event)] *)
Definition audioTracks_trigger (event : string) : M unit :=
  let* p := get_player in
  forEach (listeners_for event (audio_listeners p)) call_listener.

(** What happens to the player during a session: the user or the page
    changes a setting, the player updates its state and fires the event. *)
Inductive change :=
| VolumeChanged (muted volume : value)
| RateChanged (rate : value)
| TextTracksChanged (tracks : list TextTrack)
| AudioTracksChanged (tracks : list AudioTrack).

Definition occur (c : change) : M unit :=
  match c with
  | VolumeChanged muted volume =>
      modify_player (fun p => set_volume volume (set_muted muted p)) ;;
      trigger "volumechange"
  | RateChanged rate =>
      modify_player (set_playbackRate rate) ;;
      trigger "ratechange"
  | TextTracksChanged tracks =>
      modify_player (set_textTracks tracks) ;;
      trigger "texttrackchange"
  | AudioTracksChanged tracks =>
      modify_player (set_audioTracks tracks) ;;
      audioTracks_trigger "change"
  end.

(** The world a computation ends in, thrown or not. *)
Definition world_of {A} (r : result A) : World :=
  match r with Ret _ w => w | Throw _ w => w end.

Definition run (cs : list change) (w : World) : World :=
  fold_left (fun w c => world_of (occur c w)) cs w.

(** What a later start-up would take as its record: the store's text under
    the plugin's key, parsed, with [{}] in place of a falsy result.  [None]
    is the [SyntaxError]. *)
Definition decode (raw : option string) : option value :=
  match JSON_parse (match raw with Some s => s | None => "null" end) with
  | Some v => Some (if truthy v then v else VObj [])
  | None => None
  end.

Definition persisted (w : World) : option value :=
  decode (items (localStorage w) !! PLUGIN_CONFIG.key).

(** ** Notions used to state the properties *)

(** What may follow a value inside a text: nothing, or a comma, or the
    bracket or brace that closes what the value is in. *)
Definition terminated (rest : list ascii) : bool :=
  match rest with
  | [] => true
  | c :: _ => (Ascii.eqb c "," || Ascii.eqb c "]" || Ascii.eqb c "}")%char
  end.

(** The first byte of a value's text is not white space and closes
    nothing. *)
Definition value_head (c : ascii) : bool :=
  (negb (is_ws c) && negb (Ascii.eqb c "]") && negb (Ascii.eqb c "}"))%char.

(** The text of [v], followed by anything that may follow a value, parses
    to [v] as JSON carries it and leaves what follows, given fuel for the
    length of the text. *)
Definition parsed_back (v : value) : Prop :=
  forall fuel rest,
    length (print_value v) <= fuel -> terminated rest = true ->
    parse_value fuel (print_value v ++ rest) = POk (through_JSON v) rest.

Definition print_member (kv : string * value) : list ascii :=
  (print_string (fst kv) ++ ":"%char :: print_value (snd kv))%list.

(** The listeners [onPlayerReady] subscribes for [options], all closing
    over the record at address [data]. *)
Definition subscriptions (options : Options) (data : nat) : list (string * Handler) :=
  (if o_muted options || o_volume options
   then [(PLAYER_ACTIONS.volumeChange, OnVolumeChange (o_muted options) (o_volume options) data)]
   else [])
  ++ (if o_playbackRate options then [(PLAYER_ACTIONS.rateChange, OnRateChange data)] else [])
  ++ (if o_captions options
      then [(PLAYER_ACTIONS.textTrackChange, OnTextTrackChange data)] else []).

Definition audio_subscriptions (options : Options) (data : nat) : list (string * Handler) :=
  if o_audioTrack options then [("change", OnAudioTrackChange data)] else [].

(** The player has the listeners of one activation of the plugin, and no
    others. *)
Definition listening (options : Options) (data : nat) (w : World) : Prop :=
  listeners (player w) = subscriptions options data
  /\ audio_listeners (player w) = audio_subscriptions options data.

(** A session of the plugin: its listeners are subscribed, the store takes
    writes, the record the listeners close over is an object, and the
    store holds the record: it holds the text the record was read from, or
    the text a listener wrote from it, so that what the store gives and the
    record are the same once through JSON. *)
Definition session (options : Options) (data : nat) (w : World) : Prop :=
  listening options data w
  /\ writable (localStorage w) = true
  /\ exists props,
       heap w !! data = Some (VObj props)
       /\ serializable (VObj props) = true
       /\ through_JSON <$> persisted w = Some (through_JSON (VObj props)).

(** A field of the stored record is kept from one reading of the store to
    the next: it is read as it was, or, when the record has been written
    in between, as JSON carries what it was: a string, a boolean, [null], a
    finite number and what is made of them as they were, an infinity as
    [null] and the negative zero as [0] (the start-up can have read those
    from text such as [1e400] and [-0]). *)
Definition kept (x x' : option value) : Prop :=
  x' = x \/ x' = through_JSON <$> x.

(** The store after the record [d] has been written to it. *)
Definition written (d : value) (st : Storage) : Storage :=
  mkStorage (<[PLUGIN_CONFIG.key := JSON_stringify d]> (items st)) true
            (calls st ++ [SetItem PLUGIN_CONFIG.key (JSON_stringify d)]).

(** The values a change brings go through JSON unchanged: the player
    reports a volume between 0 and 1 and a rate that is a finite number. *)
Definition wf_change (c : change) : bool :=
  match c with
  | VolumeChanged muted volume => wf_value muted && wf_value volume
  | RateChanged rate => wf_value rate
  | TextTracksChanged _ | AudioTracksChanged _ => true
  end.

(** The fields of the record the listener of a change assigns, on the
    player [p]. *)
Definition assigned (options : Options) (p : Player) (c : change) : list string :=
  match c with
  | VolumeChanged _ _ =>
      (if o_muted options then ["muted"] else [])
      ++ (if o_volume options then ["volume"] else [])
  | RateChanged _ => if o_playbackRate options then ["playbackRate"] else []
  | TextTracksChanged _ =>
      if o_captions options && has_textTracks_ p then ["captions"] else []
  | AudioTracksChanged tracks =>
      if o_audioTrack options && existsb at_enabled tracks then ["audioTrack"] else []
  end.

Definition showing (track : TextTrack) : bool := String.eqb (tt_mode track) "showing".

(** The record after the listener of a change has run, on the player
    [p]. *)
Definition record_after (options : Options) (p : Player) (c : change)
    (props : list (string * value)) : list (string * value) :=
  match c with
  | VolumeChanged muted volume =>
      let props1 := if o_muted options then obj_set "muted" muted props else props in
      if o_volume options then obj_set "volume" volume props1 else props1
  | RateChanged rate =>
      if o_playbackRate options then obj_set "playbackRate" rate props else props
  | TextTracksChanged tracks =>
      if o_captions options && has_textTracks_ p then
        match List.find showing tracks with
        | Some track => obj_set "captions" (VStr (tt_language track)) props
        | None => obj_set "captions" (VStr EmptyString) props
        end
      else props
  | AudioTracksChanged tracks =>
      if o_audioTrack options then
        match List.find at_enabled tracks with
        | Some track => obj_set "audioTrack" (VStr (at_language track)) props
        | None => props
        end
      else props
  end.

(** The value the start-up pass goes on with for a preference: the option
    is enabled, the record has the key, and what is under it is truthy. *)
Definition persisted_truthy (options : Options) (data : value) (name : string)
  : option value :=
  if option_enabled options name then
    match get_prop data name with
    | Some v => if truthy v then Some v else None
    | None => None
    end
  else None.

(** The rates [onPlayerReady] takes as supported. *)
Definition supported_rates (p : Player) : list number :=
  match p_playbackRates p with
  | Some rates => rates
  | None => default [] (p_options_playbackRates p)
  end.

(** [track.language === v] *)
Definition text_language_is (v : value) (track : TextTrack) : bool :=
  strict_eq_str (tt_language track) v.

Definition audio_language_is (v : value) (track : AudioTrack) : bool :=
  strict_eq_str (at_language track) v.

(** The player once the listeners for [options] are subscribed on it. *)
Definition subscribe (options : Options) (r : nat) (p : Player) : Player :=
  set_audio_listeners
    (audio_listeners p ++ audio_subscriptions options r)
    (set_listeners (listeners p ++ subscriptions options r) p).

Definition with_player (p : Player) (w : World) : World :=
  mkWorld p (localStorage w) (console w) (heap w).

(** The store after [onPlayerReady] has read the record. *)
Definition read_storage (w : World) : Storage :=
  mkStorage (items (localStorage w)) (writable (localStorage w))
            (calls (localStorage w) ++ [GetItem PLUGIN_CONFIG.key]).

(** One round of the start-up pass that goes as far as touching the
    player: [f] is what it does with the value. *)
Definition restore (options : Options) (data : value) (name : string)
    (f : value -> Player -> Player) (p : Player) : Player :=
  match persisted_truthy options data name with
  | Some v => f v p
  | None => p
  end.

(** The player after [onPlayerReady] has found the record [data] and put
    it at address [r]. *)
Definition startup_player (options : Options) (data : value) (r : nat) (p : Player)
  : Player :=
  let p0 := addClass "vjs-persist-controls" p in
  let rates := supported_rates p0 in
  subscribe options r
    (restore options data "audioTrack"
       (fun v p => set_audioTracks (swap_audioTrack v (audioTracks p)) p)
       (restore options data "captions"
          (fun v p => set_textTracks (show_track v (textTracks p)) p)
          (restore options data "playbackRate"
             (fun v p => if includes rates v then set_playbackRate v p else p)
             (restore options data "muted" set_muted
                (restore options data "volume" set_volume p0))))).

(** ** Worlds to evaluate the plugin on *)

Module Examples.

(** 0, 1, 2 and 0.42. *)
Definition n0 : number := S754_zero false.
Definition n1 : number := Eval vm_compute in number_of_decimal false 1 0.
Definition n2 : number := Eval vm_compute in number_of_decimal false 2 0.
Definition n042 : number := Eval vm_compute in number_of_decimal false 42 (-2).

(** A player that starts muted at full volume, with the given rates and
    tracks; its private text-track list is set. *)
Definition a_player (rates : list number) (texts : list TextTrack)
    (audios : list AudioTrack) : Player :=
  mkPlayer [] (VBool true) (VNum n1) (VNum n1) (VBool true) (VNum n1)
           (Some rates) None texts true audios [] [] [].


Definition no_items : gmap string string := empty.

(** A store that takes writes, with the given text under the plugin's
    key or with nothing. *)
Definition a_world (p : Player) (stored : option string) : World :=
  mkWorld p
          (mkStorage (match stored with
                      | Some s => <[ PLUGIN_CONFIG.key := s ]> no_items
                      | None => no_items
                      end) true [])
          [] [].

(** A store that refuses writes. *)
Definition a_disabled_world (p : Player) : World :=
  mkWorld p (mkStorage no_items false []) [] [].

Definition no_options : UserOptions := mkUserOptions None None None None None.

(** A name between quotation marks, as it stands in JSON text. *)
Definition quoted (name : string) : string :=
  String dquote (name ++ String dquote EmptyString).

(** The text [JSON.stringify] gives for a record with these entries. *)
Definition stored (props : list (string * value)) : option string :=
  Some (JSON_stringify (VObj props)).

(** The text of a record with one entry, the value spelled as given. *)
Definition stored_text (name spelling : string) : option string :=
  Some ("{" ++ quoted name ++ ":" ++ spelling ++ "}").

Definition en_default : TextTrack := mkTextTrack "en" true "disabled".
Definition en_text : TextTrack := mkTextTrack "en" false "disabled".
Definition fr_text : TextTrack := mkTextTrack "fr" false "disabled".
Definition en_audio : AudioTrack := mkAudioTrack "en" true.
Definition fr_audio : AudioTrack := mkAudioTrack "fr" false.
(** An audio track without a language: video.js gives it the empty one. *)
Definition unnamed_audio : AudioTrack := mkAudioTrack EmptyString false.

(** The player is ready and [onPlayerReady] has run. *)
Definition started (options : Options) (p : Player) (stored : option string) : World :=
  world_of (onPlayerReady options (a_world p stored)).

(** Every preference but the volume. *)
Definition no_volume : Options := mkOptions true false true true true.

End Examples.

(** ** The plugin without audio tracks, [src/plugin.js]

    The file as the repository has it under [src/]: the configuration has
    four preferences, the start-up pass has no audio branch and no listener
    is put on the audio track list.  The three listeners it subscribes are,
    text for text, the closures of the full variant, so the [Handler]s are
    the same.  The merged options have an [audioTrack] key only when the
    caller passes one, and nothing reads it. *)

Module NoAudio.

Module PLUGIN_CONFIG.
Definition key : string := "persist-controls".
Definition defaultOptions : Options := mkOptions true true true true false.
Definition persistOptions : list string :=
  ["volume"; "muted"; "playbackRate"; "captions"].
End PLUGIN_CONFIG.

Module PLAYER_ACTIONS.
Definition volumeChange : string := "volumechange".
Definition rateChange : string := "ratechange".
Definition textTrackChange : string := "texttrackchange".
End PLAYER_ACTIONS.

Definition apply_option (options : Options) (data : value) (playerRates : list number)
    (option : string) : M unit :=
  if negb (option_enabled options option) then ret tt
  else
    let value := get_prop data option in
    match value with
    | Some v =>
        if truthy v then
          if String.eqb option "playbackRate" && negb (includes playerRates v) then ret tt
          else if String.eqb option "captions" then apply_captions v
          else player_call option v
        else ret tt
    | None => ret tt
    end.

Definition onPlayerReady (options : Options) : M unit :=
  modify_player (addClass "vjs-persist-controls") ;;
  let volume := o_volume options in
  let muted := o_muted options in
  let playbackRate := o_playbackRate options in
  let captions := o_captions options in
  let* raw := localStorage_getItem PLUGIN_CONFIG.key in
  let* parsed := JSON_parse_arg raw in
  let record := if truthy parsed then parsed else VObj [] in
  let* data := alloc record in
  let* p := get_player in
  let playerRates :=
    match p_playbackRates p with
    | Some rates => rates
    | None => default [] (p_options_playbackRates p)
    end in
  forEach PLUGIN_CONFIG.persistOptions (apply_option options record playerRates) ;;
  (if muted || volume
   then player_on PLAYER_ACTIONS.volumeChange (OnVolumeChange muted volume data)
   else ret tt) ;;
  (if playbackRate
   then player_on PLAYER_ACTIONS.rateChange (OnRateChange data)
   else ret tt) ;;
  (if captions
   then player_on PLAYER_ACTIONS.textTrackChange (OnTextTrackChange data)
   else ret tt).

Definition persistControls (options : UserOptions) : M unit :=
  let* isLocalStorageAvailable := checkLocalStorageAvailability in
  if negb isLocalStorageAvailable then
    videojs_log "localStorage unavailable."
  else
    player_ready (merge PLUGIN_CONFIG.defaultOptions options).

(** The player becomes ready, with this file loaded. *)
Definition run_ready : M unit :=
  let* p := get_player in
  modify_player (set_ready_queue []) ;;
  forEach (ready_queue p) onPlayerReady.

End NoAudio.

(** ** The plugin without tracks, the first version of [plugin.js]

    Volume, muted state and playback rate only: three preferences, two
    events.  The options' [captions] is taken out of the merged options and
    never used. *)

Module NoTracks.

Module PLUGIN_CONFIG.
Definition key : string := "persist-controls".
Definition defaultOptions : Options := mkOptions true true true false false.
Definition persistOptions : list string := ["volume"; "muted"; "playbackRate"].
End PLUGIN_CONFIG.

Module PLAYER_ACTIONS.
Definition volumeChange : string := "volumechange".
Definition rateChange : string := "ratechange".
End PLAYER_ACTIONS.

Definition apply_option (options : Options) (data : value) (playerRates : list number)
    (option : string) : M unit :=
  if negb (option_enabled options option) then ret tt
  else
    let value := get_prop data option in
    match value with
    | Some v =>
        if truthy v then
          if String.eqb option "playbackRate" && negb (includes playerRates v) then ret tt
          else player_call option v
        else ret tt
    | None => ret tt
    end.

Definition onPlayerReady (options : Options) : M unit :=
  modify_player (addClass "vjs-persist-controls") ;;
  let volume := o_volume options in
  let muted := o_muted options in
  let playbackRate := o_playbackRate options in
  let captions := o_captions options in
  let* raw := localStorage_getItem PLUGIN_CONFIG.key in
  let* parsed := JSON_parse_arg raw in
  let record := if truthy parsed then parsed else VObj [] in
  let* data := alloc record in
  let* p := get_player in
  let playerRates :=
    match p_playbackRates p with
    | Some rates => rates
    | None => default [] (p_options_playbackRates p)
    end in
  forEach PLUGIN_CONFIG.persistOptions (apply_option options record playerRates) ;;
  (if muted || volume
   then player_on PLAYER_ACTIONS.volumeChange (OnVolumeChange muted volume data)
   else ret tt) ;;
  (if playbackRate
   then player_on PLAYER_ACTIONS.rateChange (OnRateChange data)
   else ret tt).

Definition persistControls (options : UserOptions) : M unit :=
  let* isLocalStorageAvailable := checkLocalStorageAvailability in
  if negb isLocalStorageAvailable then
    videojs_log "localStorage unavailable."
  else
    player_ready (merge PLUGIN_CONFIG.defaultOptions options).

Definition run_ready : M unit :=
  let* p := get_player in
  modify_player (set_ready_queue []) ;;
  forEach (ready_queue p) onPlayerReady.

End NoTracks.

(** ** A page's life with the plugin

    What the page and the player do with the plugin, in the order they do
    it: the page activates the plugin ([player.persistControls(options)]),
    the player becomes ready, the player reports a change. *)

Inductive action :=
| Activate (options : UserOptions)
| BecomeReady
| Change (c : change).

Definition perform (a : action) : M unit :=
  match a with
  | Activate options => persistControls options
  | BecomeReady => run_ready
  | Change c => occur c
  end.

Definition lifetime (acts : list action) (w : World) : World :=
  fold_left (fun w a => world_of (perform a w)) acts w.

Definition is_change (a : action) : bool :=
  match a with Change _ => true | _ => false end.

(** ** More notions used to state the properties *)

(** A computation never takes a world out of a relation: whether it returns
    or throws, the world it ends in is related to the one it started in. *)
Definition keeps {A} (R : World -> World -> Prop) (m : M A) : Prop :=
  forall w, R w (world_of (m w)).

(** The store but for the plugin's two keys, the record's and the probe's:
    every other key holds what it held, and the store takes writes as
    before. *)
Definition same_foreign_items (w w' : World) : Prop :=
  writable (localStorage w') = writable (localStorage w)
  /\ forall k, k <> PLUGIN_CONFIG.key -> k <> "persist-controls-test" ->
               items (localStorage w') !! k = items (localStorage w) !! k.

(** The record's text. *)
Definition same_record_text (w w' : World) : Prop :=
  writable (localStorage w') = writable (localStorage w)
  /\ items (localStorage w') !! PLUGIN_CONFIG.key
     = items (localStorage w) !! PLUGIN_CONFIG.key.

(** The options with the audio track off, and with the captions off too. *)
Definition without_audioTrack (options : Options) : Options :=
  mkOptions (o_muted options) (o_volume options) (o_playbackRate options)
            (o_captions options) false.

Definition without_tracks (options : Options) : Options :=
  mkOptions (o_muted options) (o_volume options) (o_playbackRate options) false false.

(** A value that is not an object: what [JSON.parse] gives for the text of
    a number, a string, [true], [false], [null] or an array. *)
Definition is_object (v : value) : bool :=
  match v with VObj _ => true | _ => false end.

(** The language the text-track listener records: that of the first
    track showing, the empty one when none is. *)
Definition showing_language (tracks : list TextTrack) : string :=
  match List.find showing tracks with
  | Some track => tt_language track
  | None => EmptyString
  end.

(** The record a listener closes over. *)
Definition data_of (h : Handler) : nat :=
  match h with
  | OnVolumeChange _ _ data | OnRateChange data
  | OnTextTrackChange data | OnAudioTrackChange data => data
  end.

(** From a world where the plugin's listeners close over the value [d] at
    address [r] and the store holds [d], as it was read or as JSON carries
    it, to a world where it is still so. *)
Definition still (options : Options) (r : nat) (d : value) (w w' : World) : Prop :=
  listening options r w -> heap w !! r = Some d -> kept (Some d) (persisted w) ->
  listening options r w' /\ heap w' !! r = Some d /\ kept (Some d) (persisted w').

(** Nothing but the state of the player differs. *)
Definition player_only (w w' : World) : Prop :=
  listeners (player w') = listeners (player w)
  /\ audio_listeners (player w') = audio_listeners (player w)
  /\ heap w' = heap w
  /\ localStorage w' = localStorage w.

(** In a world where the value [d] is at address [r], the computation
    throws before anything but the player has changed. *)
Definition halts {A} (r : nat) (d : value) (m : M A) : Prop :=
  forall w, heap w !! r = Some d ->
            exists e w', m w = Throw e w' /\ player_only w w'.

(** The computation returns, and nothing but the player has changed. *)
Definition passes {A} (m : M A) : Prop :=
  forall w, exists a w', m w = Ret a w' /\ player_only w w'.

(** A listener as [onPlayerReady] subscribes it: the volume listener is
    there for the muted state, the volume, or both. *)
Definition subscribed (h : Handler) : bool :=
  match h with
  | OnVolumeChange muted volume _ => muted || volume
  | _ => true
  end.

(** The caller's options with [audioTrack: false], and with
    [captions: false] as well. *)
Definition audio_off (options : UserOptions) : UserOptions :=
  mkUserOptions (u_muted options) (u_volume options) (u_playbackRate options)
                (u_captions options) (Some false).

Definition tracks_off (options : UserOptions) : UserOptions :=
  mkUserOptions (u_muted options) (u_volume options) (u_playbackRate options)
                (Some false) (Some false).

(** What the captions branch may do to a track: nothing, or set it to
    showing. *)
Definition shown_or_same (t t' : TextTrack) : Prop :=
  tt_language t' = tt_language t /\ tt_default t' = tt_default t
  /\ (tt_mode t' = tt_mode t \/ tt_mode t' = "showing").

(** Two activations with the same options: the listeners of one close over
    the record at [r], those of the other over the record at [r'], both
    records are the object with properties [props], and the store takes
    writes. *)
Definition two_sessions (options : Options) (r r' : nat)
    (props : list (string * value)) (w : World) : Prop :=
  r <> r'
  /\ listeners (player w) = (subscriptions options r ++ subscriptions options r')%list
  /\ audio_listeners (player w)
     = (audio_subscriptions options r ++ audio_subscriptions options r')%list
  /\ writable (localStorage w) = true
  /\ heap w !! r = Some (VObj props) /\ heap w !! r' = Some (VObj props).

(** * Properties *)

Section JSONText.
Local Open Scope char_scope.
Local Open Scope list_scope.


(** ** Numbers *)

Lemma number_eqb_eq a b : number_eqb a b = true <-> a = b.
Proof.
  destruct a as [s | s | | s m e], b as [s' | s' | | s' m' e']; simpl;
    try (split; congruence).
  - rewrite Bool.eqb_true_iff. split; congruence.
  - rewrite Bool.eqb_true_iff. split; congruence.
  - rewrite !andb_true_iff, Bool.eqb_true_iff, Pos.eqb_eq, Z.eqb_eq. split.
    + intros [[-> ->] ->]. reflexivity.
    + intros [= -> -> ->]. auto.
Qed.

Lemma reads_back_parse n :
  reads_back n = true -> parse_number (print_number n) = Some (n, []).
Proof.
  unfold reads_back. destruct (parse_number (print_number n)) as [[n' [|c r]]|];
    try discriminate.
  intros H. apply number_eqb_eq in H. subst n'. reflexivity.
Qed.

(** ** The text of a value parses back to the value *)

Lemma char_digit_digit_char d : char_digit (digit_char d) = Some d.
Proof. destruct d; reflexivity. Qed.

Lemma char_digit_Some c d : char_digit c = Some d -> c = digit_char d.
Proof.
  unfold char_digit.
  repeat match goal with
         | |- context [Ascii.eqb c ?x] =>
             destruct (Ascii.eqb_spec c x) as [-> | _];
             [intros [= <-]; reflexivity|]
         end.
  discriminate.
Qed.

Lemma terminated_cases rest :
  terminated rest = true ->
  rest = [] \/ exists c r, rest = c :: r /\ (c = "," \/ c = "]" \/ c = "}")%char.
Proof.
  destruct rest as [|c r]; simpl; [auto|]. intros H. right. exists c, r. split; [reflexivity|].
  rewrite !orb_true_iff, !Ascii.eqb_eq in H. tauto.
Qed.

Ltac term_cases H :=
  apply terminated_cases in H;
  destruct H as [-> | (? & ? & -> & [-> | [-> | ->]])].

Lemma scan_fraction_terminated rest :
  terminated rest = true -> scan_fraction rest = Some ([], rest).
Proof. intros Ht. term_cases Ht; reflexivity. Qed.

Lemma scan_exponent_terminated rest :
  terminated rest = true -> scan_exponent rest = Some (false, [], rest).
Proof. intros Ht. term_cases Ht; reflexivity. Qed.

Lemma terminated_no_digit rest :
  terminated rest = true -> match rest with [] => True | c :: _ => char_digit c = None end.
Proof. intros Ht. term_cases Ht; simpl; auto. Qed.

(** What the scanners leave is left when more text follows, as long as
    what follows cannot be part of a number. *)

Lemma scan_digits_app s rest :
  match rest with [] => True | c :: _ => char_digit c = None end ->
  forall ds r, scan_digits s = (ds, r) -> scan_digits (s ++ rest) = (ds, r ++ rest).
Proof.
  intros Hrest. induction s as [|c s IH]; intros ds r.
  - simpl. intros [= <- <-]. destruct rest as [|c rest]; [reflexivity|].
    simpl. rewrite Hrest. reflexivity.
  - simpl. destruct (char_digit c) as [d|].
    + destruct (scan_digits s) as [ds' r'] eqn:E. intros [= <- <-].
      rewrite (IH ds' r' eq_refl). reflexivity.
    + intros [= <- <-]. reflexivity.
Qed.

Lemma scan_fraction_app s rest f r :
  terminated rest = true ->
  scan_fraction s = Some (f, r) -> scan_fraction (s ++ rest) = Some (f, r ++ rest).
Proof.
  intros Ht. destruct s as [|c s].
  - simpl. intros [= <- <-]. apply scan_fraction_terminated, Ht.
  - simpl. destruct (Ascii.eqb c ".").
    + destruct (scan_digits s) as [ds r'] eqn:E.
      rewrite (scan_digits_app s rest (terminated_no_digit rest Ht) ds r' E).
      destruct ds; [discriminate|]. intros [= <- <-]. reflexivity.
    + intros [= <- <-]. reflexivity.
Qed.

Lemma scan_exponent_app s rest x r :
  terminated rest = true ->
  scan_exponent s = Some (x, r) -> scan_exponent (s ++ rest) = Some (x, r ++ rest).
Proof.
  intros Ht. pose proof (terminated_no_digit rest Ht) as Hnd.
  destruct s as [|c s].
  - simpl. intros [= <- <-]. apply scan_exponent_terminated, Ht.
  - simpl. destruct (Ascii.eqb c "e" || Ascii.eqb c "E").
    + destruct s as [|c' s].
      * simpl. discriminate.
      * cbn [app]. destruct (Ascii.eqb c' "-").
        { destruct (scan_digits s) as [ds r'] eqn:E.
          rewrite (scan_digits_app s rest Hnd ds r' E).
          destruct ds; [discriminate|]. intros [= <- <-]. reflexivity. }
        destruct (Ascii.eqb c' "+").
        { destruct (scan_digits s) as [ds r'] eqn:E.
          rewrite (scan_digits_app s rest Hnd ds r' E).
          destruct ds; [discriminate|]. intros [= <- <-]. reflexivity. }
        destruct (scan_digits (c' :: s)) as [ds r'] eqn:E.
        change (c' :: s ++ rest) with ((c' :: s) ++ rest).
        rewrite (scan_digits_app (c' :: s) rest Hnd ds r' E).
        destruct ds; [discriminate|]. intros [= <- <-]. reflexivity.
    + intros [= <- <-]. reflexivity.
Qed.

Lemma parse_unsigned_app neg s rest n r :
  terminated rest = true ->
  parse_unsigned neg s = Some (n, r) -> parse_unsigned neg (s ++ rest) = Some (n, r ++ rest).
Proof.
  intros Ht. unfold parse_unsigned.
  destruct (scan_digits s) as [i s2] eqn:E1.
  rewrite (scan_digits_app s rest (terminated_no_digit rest Ht) i s2 E1).
  destruct (negb (int_ok i)); [discriminate|].
  destruct (scan_fraction s2) as [[f s3]|] eqn:E2; [|discriminate].
  rewrite (scan_fraction_app s2 rest f s3 Ht E2).
  destruct (scan_exponent s3) as [[[eneg eds] r']|] eqn:E3; [|discriminate].
  rewrite (scan_exponent_app s3 rest (eneg, eds) r' Ht E3).
  intros [= <- <-]. reflexivity.
Qed.

Lemma parse_number_app s rest n r :
  terminated rest = true ->
  parse_number s = Some (n, r) -> parse_number (s ++ rest) = Some (n, r ++ rest).
Proof.
  intros Ht. destruct s as [|c s]; [discriminate|]. cbn [app parse_number].
  destruct (Ascii.eqb c "-").
  - apply parse_unsigned_app, Ht.
  - apply (parse_unsigned_app false (c :: s) rest n r Ht).
Qed.

(** A number's text starts with the sign or a digit. *)
Lemma parse_number_head s n r :
  parse_number s = Some (n, r) ->
  exists c s', s = c :: s' /\ (c = "-" \/ exists d, c = digit_char d).
Proof.
  destruct s as [|c s]; [discriminate|]. intros H. exists c, s. split; [reflexivity|].
  simpl in H. destruct (Ascii.eqb_spec c "-") as [-> | _]; [left; reflexivity|].
  right. unfold parse_unsigned in H. simpl in H.
  destruct (char_digit c) as [d|] eqn:E.
  - exists d. apply char_digit_Some, E.
  - simpl in H. discriminate.
Qed.

Lemma parse_chars_print_char c s :
  parse_chars (print_char c ++ s) = prepend [c] (parse_chars s).
Proof.
  destruct c as [[] [] [] [] [] [] [] []]; reflexivity.
Qed.

Lemma parse_chars_print l rest :
  parse_chars (flat_map print_char l ++ dquote :: rest) = Some (l, rest).
Proof.
  induction l as [|c l IH]; [reflexivity|].
  cbn [flat_map]. rewrite <- app_assoc, parse_chars_print_char, IH. reflexivity.
Qed.

Lemma parse_string_print s rest :
  parse_string (flat_map print_char (list_ascii_of_string s) ++ dquote :: rest)
  = Some (s, rest).
Proof.
  unfold parse_string. rewrite parse_chars_print, string_of_list_ascii_of_string.
  reflexivity.
Qed.

Lemma value_ind_nested (P : value -> Prop) :
  P VNull ->
  (forall b, P (VBool b)) ->
  (forall n, P (VNum n)) ->
  (forall s, P (VStr s)) ->
  (forall elems, Forall P elems -> P (VArr elems)) ->
  (forall props, Forall (fun kv => P (snd kv)) props -> P (VObj props)) ->
  forall v, P v.
Proof.
  intros Hnull Hbool Hnum Hstr Harr Hobj.
  fix IH 1. intros [| b | n | s | elems | props].
  - exact Hnull.
  - apply Hbool.
  - apply Hnum.
  - apply Hstr.
  - apply Harr. induction elems as [|v elems IHl]; constructor; [apply IH | exact IHl].
  - apply Hobj. induction props as [|[k v] props IHl]; constructor; [apply IH | exact IHl].
Qed.

Lemma print_number_head n :
  reads_back n = true ->
  exists c r, print_number n = c :: r /\
              (c = "-" \/ exists d, c = digit_char d).
Proof. intros H. apply reads_back_parse in H. exact (parse_number_head _ _ _ H). Qed.

Lemma print_value_head v :
  serializable v = true ->
  exists c r, print_value v = c :: r /\ value_head c = true.
Proof.
  destruct v as [| [] | n | s | elems | props]; simpl;
    try (intros _; do 2 eexists; split; reflexivity).
  destruct n as [sg | sg | | sg m e]; try (intros _; do 2 eexists; split; reflexivity).
  intros H. destruct (print_number_head _ H) as (c & r & -> & [-> | [d ->]]).
  - do 2 eexists; split; reflexivity.
  - exists (digit_char d), r. split; [reflexivity|]. destruct d; reflexivity.
Qed.

Lemma skip_ws_head c r : value_head c = true -> skip_ws (c :: r) = c :: r.
Proof.
  unfold value_head. simpl. destruct (is_ws c); [discriminate | reflexivity].
Qed.

Lemma parse_elems_S f s :
  parse_elems (S f) s =
  match parse_value f s with
  | POk v r =>
      match skip_ws r with
      | c :: r' =>
          if Ascii.eqb c "," then
            match parse_elems f r' with
            | POk vs rest => POk (v :: vs) rest
            | PErr => PErr
            | PFuel => PFuel
            end
          else if Ascii.eqb c "]" then POk [v] r'
          else PErr
      | [] => PErr
      end
  | PErr => PErr
  | PFuel => PFuel
  end.
Proof. reflexivity. Qed.

Lemma parse_members_quote f r0 :
  parse_members (S f) (dquote :: r0) =
  match parse_string r0 with
  | Some (k, r1) =>
      match skip_ws r1 with
      | colon :: r2 =>
          if Ascii.eqb colon ":" then
            match parse_value f r2 with
            | POk v r3 =>
                match skip_ws r3 with
                | c :: r4 =>
                    if Ascii.eqb c "," then
                      match parse_members f r4 with
                      | POk ms rest => POk ((k, v) :: ms) rest
                      | PErr => PErr
                      | PFuel => PFuel
                      end
                    else if Ascii.eqb c "}" then POk [(k, v)] r4
                    else PErr
                | [] => PErr
                end
            | PErr => PErr
            | PFuel => PFuel
            end
          else PErr
      | [] => PErr
      end
  | None => PErr
  end.
Proof. reflexivity. Qed.

Lemma parse_value_number f c r :
  (c = "-" \/ exists d, c = digit_char d) ->
  parse_value (S f) (c :: r) =
  match parse_number (c :: r) with
  | Some (n, rest) => POk (VNum n) rest
  | None => PErr
  end.
Proof. intros [-> | [[] ->]]; reflexivity. Qed.

Lemma parse_value_array f c r :
  value_head c = true ->
  parse_value (S f) ("[" :: c :: r) =
  match parse_elems f (c :: r) with
  | POk vs rest => POk (VArr vs) rest
  | PErr => PErr
  | PFuel => PFuel
  end.
Proof.
  intros H. change (parse_value (S f) ("[" :: c :: r)) with
    (match skip_ws (c :: r) with
     | c' :: r' =>
         if Ascii.eqb c' "]" then POk (VArr []) r'
         else
           match parse_elems f (c :: r) with
           | POk vs rest => POk (VArr vs) rest
           | PErr => PErr
           | PFuel => PFuel
           end
     | [] => PErr
     end).
  rewrite skip_ws_head by exact H.
  unfold value_head in H. destruct (Ascii.eqb c "]"); [|reflexivity].
  rewrite andb_false_r in H. discriminate.
Qed.

Lemma length_commas_cons (p p' : list ascii) ps :
  length (commas (p :: p' :: ps)) = length p + 1 + length (commas (p' :: ps)).
Proof.
  change (commas (p :: p' :: ps)) with (p ++ "," :: commas (p' :: ps)).
  rewrite length_app. simpl. lia.
Qed.

Lemma parse_elems_print elems :
  Forall parsed_back elems -> elems <> [] ->
  forall fuel rest,
    S (length (commas (map print_value elems))) <= fuel ->
    parse_elems fuel (commas (map print_value elems) ++ "]" :: rest)
    = POk (map through_JSON elems) rest.
Proof.
  induction 1 as [|v elems Hv _ IH]; [congruence|]. intros _ fuel rest Hfuel.
  destruct fuel as [|fuel]; [lia|]. rewrite parse_elems_S.
  destruct elems as [|v' elems].
  - simpl map in *. simpl commas in *. rewrite Hv by (auto; lia). reflexivity.
  - cbn [map] in *. rewrite length_commas_cons in Hfuel.
    change (commas (print_value v :: print_value v' :: map print_value elems))
      with (print_value v ++ "," :: commas (map print_value (v' :: elems))).
    rewrite <- app_assoc. cbn [app]. rewrite Hv by (auto; lia).
    cbn [skip_ws is_ws]. simpl. rewrite IH; [reflexivity | congruence | simpl in *; lia].
Qed.

Lemma parse_members_print props :
  Forall (fun kv => parsed_back (snd kv)) props -> props <> [] ->
  forall fuel rest,
    S (length (commas (map print_member props))) <= fuel ->
    parse_members fuel (commas (map print_member props) ++ "}" :: rest)
    = POk (map (fun kv => (fst kv, through_JSON (snd kv))) props) rest.
Proof.
  induction 1 as [|[k v] props Hv _ IH]; [congruence|]. intros _ fuel rest Hfuel.
  destruct fuel as [|fuel]; [lia|]. simpl snd in Hv.
  assert (Hone : forall tail,
    terminated tail = true ->
    parse_members (S fuel) (print_member (k, v) ++ tail) =
    match skip_ws tail with
    | c :: r4 =>
        if Ascii.eqb c "," then
          match parse_members fuel r4 with
          | POk ms rest => POk ((k, through_JSON v) :: ms) rest
          | PErr => PErr
          | PFuel => PFuel
          end
        else if Ascii.eqb c "}" then POk [(k, through_JSON v)] r4
        else PErr
    | [] => PErr
    end).
  { intros tail Ht. unfold print_member, print_string. cbn [fst snd].
    cbn [app]. rewrite <- !app_assoc. cbn [app].
    rewrite parse_members_quote, parse_string_print.
    change (skip_ws (":" :: print_value v ++ tail)) with (":" :: print_value v ++ tail).
    cbv iota. change (Ascii.eqb ":" ":") with true. cbv iota.
    rewrite Hv; [reflexivity | | exact Ht].
    destruct props as [|kv' props].
    - simpl in Hfuel. unfold print_member, print_string in Hfuel. simpl in Hfuel.
      rewrite !length_app in Hfuel. simpl in Hfuel. lia.
    - cbn [map] in Hfuel. rewrite length_commas_cons in Hfuel.
      unfold print_member at 1, print_string in Hfuel. simpl in Hfuel.
      rewrite !length_app in Hfuel. simpl in Hfuel. lia. }
  destruct props as [|kv' props].
  - simpl map. simpl commas. rewrite Hone by reflexivity. reflexivity.
  - cbn [map] in *. rewrite length_commas_cons in Hfuel.
    change (commas (print_member (k, v) :: print_member kv' :: map print_member props))
      with (print_member (k, v) ++ "," :: commas (map print_member (kv' :: props))).
    rewrite <- app_assoc. cbn [app]. rewrite Hone by reflexivity.
    cbn [skip_ws is_ws]. simpl. rewrite IH; [reflexivity | congruence | simpl in *; lia].
Qed.

Lemma obj_set_fresh k v acc :
  has_key k acc = false -> obj_set k v acc = acc ++ [(k, v)].
Proof.
  induction acc as [|[k' v'] acc IH]; simpl; [reflexivity|].
  destruct (String.eqb k k'); [discriminate|]. simpl. intros H. rewrite IH by exact H.
  reflexivity.
Qed.

Lemma has_key_app k a b : has_key k (a ++ b) = has_key k a || has_key k b.
Proof. unfold has_key. apply existsb_app. Qed.

Lemma build_unique props : forall acc,
  unique_keys props = true ->
  (forall kv, In kv props -> has_key (fst kv) acc = false) ->
  fold_left (fun o kv => obj_set (fst kv) (snd kv) o) props acc = acc ++ props.
Proof.
  induction props as [|[k v] props IH]; intros acc Hu Hfresh; simpl.
  - rewrite app_nil_r. reflexivity.
  - simpl in Hu. apply andb_true_iff in Hu as [Hk Hu].
    rewrite obj_set_fresh by (apply (Hfresh (k, v)); left; reflexivity).
    rewrite IH; [rewrite <- app_assoc; reflexivity | exact Hu |].
    intros kv Hin. rewrite has_key_app, (Hfresh kv) by (right; exact Hin).
    simpl. rewrite orb_false_r.
    destruct (String.eqb (fst kv) k) eqn:E; [|reflexivity].
    apply String.eqb_eq in E. subst k.
    apply negb_true_iff in Hk. unfold has_key in Hk.
    assert (existsb (fun kv0 => String.eqb (fst kv) (fst kv0)) props = true) as Hex.
    { apply existsb_exists. exists kv. split; [exact Hin | apply String.eqb_refl]. }
    congruence.
Qed.

Lemma parse_value_object f r :
  parse_value (S f) ("{" :: dquote :: r) =
  match parse_members f (dquote :: r) with
  | POk ms rest =>
      POk (VObj (fold_left (fun o kv => obj_set (fst kv) (snd kv) o) ms [])) rest
  | PErr => PErr
  | PFuel => PFuel
  end.
Proof. reflexivity. Qed.

Lemma parse_value_string f r :
  parse_value (S f) (dquote :: r) =
  match parse_string r with
  | Some (str, rest) => POk (VStr str) rest
  | None => PErr
  end.
Proof. reflexivity. Qed.

Lemma has_key_through k props :
  has_key k (map (fun kv => (fst kv, through_JSON (snd kv))) props) = has_key k props.
Proof.
  unfold has_key. induction props as [|[k' v'] props IH]; simpl; [reflexivity|].
  rewrite IH. reflexivity.
Qed.

Lemma unique_keys_through props :
  unique_keys (map (fun kv => (fst kv, through_JSON (snd kv))) props) = unique_keys props.
Proof.
  induction props as [|[k v] props IH]; simpl; [reflexivity|].
  rewrite has_key_through, IH. reflexivity.
Qed.

Lemma parse_value_print_number n : serializable (VNum n) = true -> parsed_back (VNum n).
Proof.
  intros Hs fuel rest Hfuel Ht.
  destruct n as [sg | sg | | sg m e].
  - destruct fuel; [simpl in Hfuel; lia|]. term_cases Ht; reflexivity.
  - destruct fuel; [simpl in Hfuel; lia | reflexivity].
  - destruct fuel; [simpl in Hfuel; lia | reflexivity].
  - cbn [serializable] in Hs. cbn [print_value through_JSON carried] in *.
    destruct (print_number_head _ Hs) as (c & r & E & Hc).
    pose proof (parse_number_app _ rest _ _ Ht (reads_back_parse _ Hs)) as Hn.
    destruct fuel; [rewrite E in Hfuel; simpl in Hfuel; lia|].
    rewrite E in *. cbn [app] in *.
    rewrite parse_value_number by exact Hc. rewrite Hn. reflexivity.
Qed.

Lemma parse_value_print v : serializable v = true -> parsed_back v.
Proof.
  induction v as [| b | n | s | elems IH | props IH] using value_ind_nested;
    intros Hwf fuel rest Hfuel Ht.
  - destruct fuel; [simpl in Hfuel; lia | reflexivity].
  - destruct fuel; [destruct b; simpl in Hfuel; lia | destruct b; reflexivity].
  - apply parse_value_print_number; assumption.
  - destruct fuel; [simpl in Hfuel; lia|].
    cbn [print_value]. unfold print_string. cbn [app]. rewrite <- app_assoc. cbn [app].
    rewrite parse_value_string, parse_string_print. reflexivity.
  - cbn [serializable] in Hwf. rewrite forallb_forall in Hwf.
    assert (Hall : Forall parsed_back elems).
    { rewrite List.Forall_forall in *. intros x Hx. apply IH; [exact Hx | apply Hwf, Hx]. }
    destruct fuel; [simpl in Hfuel; lia|].
    cbn [print_value through_JSON] in *. cbn [app]. rewrite <- app_assoc. cbn [app].
    cbn [length] in Hfuel. rewrite length_app in Hfuel. simpl in Hfuel.
    destruct elems as [|v elems]; [reflexivity|].
    destruct (print_value_head v) as (c & r & E & Hc); [apply Hwf; left; reflexivity|].
    assert (Eh : exists r', commas (map print_value (v :: elems)) ++ "]" :: rest = c :: r').
    { destruct elems; cbn [map commas]; rewrite E; cbn [app]; eauto. }
    destruct Eh as [r' Eh]. pose proof Eh as Eh'. rewrite Eh.
    rewrite parse_value_array by exact Hc. rewrite <- Eh'.
    rewrite parse_elems_print; [reflexivity | exact Hall | congruence | lia].
  - cbn [serializable] in Hwf. apply andb_true_iff in Hwf as [Hu Hwf].
    rewrite forallb_forall in Hwf.
    assert (Hall : Forall (fun kv => parsed_back (snd kv)) props).
    { rewrite List.Forall_forall in *. intros x Hx. apply IH; [exact Hx | apply Hwf, Hx]. }
    destruct fuel; [simpl in Hfuel; lia|].
    cbn [print_value through_JSON] in *.
    change (map (fun kv => print_string (fst kv) ++ ":" :: print_value (snd kv)) props)
      with (map print_member props) in *.
    cbn [app]. rewrite <- app_assoc. cbn [app].
    cbn [length] in Hfuel. rewrite length_app in Hfuel. cbn [length] in Hfuel.
    destruct props as [|kv props]; [reflexivity|].
    assert (Eh : exists r', commas (map print_member (kv :: props)) ++ "}" :: rest
                            = dquote :: r').
    { destruct props; cbn [map commas]; unfold print_member at 1, print_string;
        cbn [app]; eauto. }
    destruct Eh as [r' Eh]. pose proof Eh as Eh'. rewrite Eh.
    rewrite parse_value_object. rewrite <- Eh'.
    rewrite parse_members_print; [| exact Hall | congruence | lia].
    rewrite build_unique; [reflexivity | rewrite unique_keys_through; exact Hu | reflexivity].
Qed.

(** What parsing the [JSON.stringify] text of a value gives: the value,
    with [null] for an infinity or NaN and [0] for the negative zero. *)
Lemma JSON_parse_stringify v :
  serializable v = true -> JSON_parse (JSON_stringify v) = Some (through_JSON v).
Proof.
  intros Hwf. unfold JSON_parse, JSON_stringify.
  rewrite list_ascii_of_string_of_list_ascii.
  pose proof (parse_value_print v Hwf (2 * length (print_value v) + 2) []) as H.
  rewrite app_nil_r in H. rewrite H; [reflexivity | lia | reflexivity].
Qed.

(** A number that is read back is finite and not the negative zero. *)
Lemma reads_back_carried n : reads_back n = true -> carried n = VNum n.
Proof.
  destruct n as [[] | sg | | sg m e]; try reflexivity; intros H; exfalso.
  - vm_compute in H. discriminate.
  - destruct sg; vm_compute in H; discriminate.
  - vm_compute in H. discriminate.
Qed.

Lemma reads_back_serializable n : reads_back n = true -> serializable (VNum n) = true.
Proof. destruct n; simpl; auto. Qed.

Lemma wf_serializable v : wf_value v = true -> serializable v = true.
Proof.
  induction v as [| b | n | s | elems IH | props IH] using value_ind_nested;
    try reflexivity.
  - apply reads_back_serializable.
  - cbn [wf_value serializable]. rewrite !forallb_forall. intros H x Hx.
    rewrite List.Forall_forall in IH. apply IH; [exact Hx | apply H, Hx].
  - cbn [wf_value serializable]. rewrite !andb_true_iff, !forallb_forall.
    intros [Hu H]. split; [exact Hu|]. intros x Hx.
    rewrite List.Forall_forall in IH. apply IH; [exact Hx | apply H, Hx].
Qed.

Lemma wf_through_JSON v : wf_value v = true -> through_JSON v = v.
Proof.
  induction v as [| b | n | s | elems IH | props IH] using value_ind_nested;
    try reflexivity.
  - apply reads_back_carried.
  - cbn [wf_value through_JSON]. rewrite forallb_forall. intros H. f_equal.
    rewrite <- (map_id elems) at 2. apply map_ext_in. intros x Hx.
    rewrite List.Forall_forall in IH. apply IH; [exact Hx | apply H, Hx].
  - cbn [wf_value through_JSON]. rewrite andb_true_iff, forallb_forall.
    intros [_ H]. f_equal.
    rewrite <- (map_id props) at 2. apply map_ext_in. intros [k x] Hx. simpl.
    rewrite List.Forall_forall in IH. f_equal. exact (IH _ Hx (H _ Hx)).
Qed.

(** A value that goes through JSON unchanged is what parsing its
    [JSON.stringify] text gives. *)
Lemma JSON_parse_stringify_wf v :
  wf_value v = true -> JSON_parse (JSON_stringify v) = Some v.
Proof.
  intros H. rewrite JSON_parse_stringify by (apply wf_serializable, H).
  rewrite wf_through_JSON by exact H. reflexivity.
Qed.

Lemma carried_idem n : through_JSON (carried n) = carried n.
Proof. destruct n; reflexivity. Qed.

Lemma through_JSON_idem v : through_JSON (through_JSON v) = through_JSON v.
Proof.
  induction v as [| b | n | s | elems IH | props IH] using value_ind_nested;
    try reflexivity.
  - apply carried_idem.
  - cbn [through_JSON]. f_equal. rewrite map_map. apply map_ext_in. intros x Hx.
    rewrite List.Forall_forall in IH. apply IH, Hx.
  - cbn [through_JSON]. f_equal. rewrite map_map. apply map_ext_in. intros [k x] Hx.
    simpl. rewrite List.Forall_forall in IH. f_equal. exact (IH _ Hx).
Qed.

End JSONText.

(** ** The record under assignment *)

Section Record.
Local Open Scope string_scope.
Local Open Scope list_scope.

Lemma obj_get_set_eq k v props : obj_get k (obj_set k v props) = Some v.
Proof.
  induction props as [|[k' v'] props IH]; simpl.
  - rewrite String.eqb_refl. reflexivity.
  - destruct (String.eqb k k') eqn:E; simpl; rewrite E; [reflexivity | exact IH].
Qed.

Lemma obj_get_set_ne k k' v props :
  k' <> k -> obj_get k' (obj_set k v props) = obj_get k' props.
Proof.
  intros Hne. induction props as [|[k0 v0] props IH]; simpl.
  - apply String.eqb_neq in Hne. rewrite Hne. reflexivity.
  - destruct (String.eqb k k0) eqn:E; simpl.
    + apply String.eqb_eq in E. subst k0.
      apply String.eqb_neq in Hne. rewrite Hne. reflexivity.
    + rewrite IH. reflexivity.
Qed.

Lemma has_key_obj_set k' k v props :
  has_key k' (obj_set k v props) = has_key k' props || String.eqb k' k.
Proof.
  induction props as [|[k0 v0] props IH]; simpl.
  - rewrite orb_false_r. reflexivity.
  - destruct (String.eqb k k0) eqn:E; simpl.
    + apply String.eqb_eq in E. subst k0.
      destruct (String.eqb k' k); simpl; [reflexivity | rewrite orb_false_r; reflexivity].
    + fold (has_key k' (obj_set k v props)). rewrite IH.
      fold (has_key k' props). rewrite orb_assoc. reflexivity.
Qed.

Lemma unique_keys_obj_set k v props :
  unique_keys props = true -> unique_keys (obj_set k v props) = true.
Proof.
  induction props as [|[k0 v0] props IH]; simpl; [reflexivity|].
  intros H. apply andb_true_iff in H as [Hk Hu].
  destruct (String.eqb k k0) eqn:E; simpl.
  - rewrite Hk, Hu. reflexivity.
  - rewrite has_key_obj_set, IH by exact Hu.
    apply negb_true_iff in Hk. rewrite Hk. simpl.
    rewrite String.eqb_sym, E. reflexivity.
Qed.

Lemma forallb_obj_set (P : value -> bool) k v props :
  P v = true ->
  forallb (fun kv => P (snd kv)) props = true ->
  forallb (fun kv => P (snd kv)) (obj_set k v props) = true.
Proof.
  intros Hv. induction props as [|[k0 v0] props IH]; simpl.
  - rewrite Hv. reflexivity.
  - intros H. apply andb_true_iff in H as [H0 H].
    destruct (String.eqb k k0); simpl.
    + rewrite Hv, H. reflexivity.
    + rewrite H0, IH by exact H. reflexivity.
Qed.

Lemma serializable_obj_set k v props :
  serializable v = true -> serializable (VObj props) = true ->
  serializable (VObj (obj_set k v props)) = true.
Proof.
  intros Hv H. cbn [serializable] in *. apply andb_true_iff in H as [Hu Hf].
  rewrite unique_keys_obj_set, (forallb_obj_set serializable) by assumption. reflexivity.
Qed.

Lemma serializable_record_after options p c props :
  wf_change c = true -> serializable (VObj props) = true ->
  serializable (VObj (record_after options p c props)) = true.
Proof.
  intros Hc Hp. destruct c as [m v | v | tracks | tracks]; cbn [record_after wf_change] in *.
  - apply andb_true_iff in Hc as [Hm Hv].
    apply wf_serializable in Hm, Hv.
    destruct (o_muted options), (o_volume options); auto using serializable_obj_set.
  - apply wf_serializable in Hc.
    destruct (o_playbackRate options); auto using serializable_obj_set.
  - destruct (o_captions options && has_textTracks_ p); [|assumption].
    destruct (List.find showing tracks); apply serializable_obj_set; auto.
  - destruct (o_audioTrack options); [|assumption].
    destruct (List.find at_enabled tracks); [apply serializable_obj_set; auto | assumption].
Qed.

(** The fields a change does not assign stay as they are in the record. *)
Lemma record_after_other options p c props k :
  ~ In k (assigned options p c) ->
  obj_get k (record_after options p c props) = obj_get k props.
Proof.
  destruct c as [m v | v | tracks | tracks]; cbn [record_after assigned]; intros Hk.
  - destruct (o_muted options), (o_volume options); cbn in Hk;
      rewrite ?obj_get_set_ne by (intro; subst; apply Hk; cbn; auto); reflexivity.
  - destruct (o_playbackRate options); cbn in Hk;
      rewrite ?obj_get_set_ne by (intro; subst; apply Hk; cbn; auto); reflexivity.
  - destruct (o_captions options && has_textTracks_ p); [|reflexivity]. cbn in Hk.
    destruct (List.find showing tracks);
      rewrite obj_get_set_ne by (intro; subst; apply Hk; cbn; auto); reflexivity.
  - destruct (o_audioTrack options); [|reflexivity]. cbn [andb] in Hk.
    destruct (List.find at_enabled tracks) as [t|] eqn:E; [|reflexivity].
    assert (existsb at_enabled tracks = true) as Hex.
    { apply find_some in E. apply existsb_exists. eauto. }
    rewrite Hex in Hk. cbn in Hk.
    rewrite obj_get_set_ne by (intro; subst; apply Hk; cbn; auto). reflexivity.
Qed.

Lemma record_after_unassigned options p c props :
  assigned options p c = [] -> record_after options p c props = props.
Proof.
  destruct c as [m v | v | tracks | tracks]; cbn [record_after assigned].
  - destruct (o_muted options), (o_volume options); simpl; congruence.
  - destruct (o_playbackRate options); simpl; congruence.
  - destruct (o_captions options && has_textTracks_ p); simpl; congruence.
  - destruct (o_audioTrack options); [|reflexivity]. cbn [andb].
    destruct (List.find at_enabled tracks) as [t|] eqn:E; [|reflexivity].
    assert (existsb at_enabled tracks = true) as Hex.
    { apply find_some in E. apply existsb_exists. eauto. }
    rewrite Hex. discriminate.
Qed.

(** A field of the record as JSON carries the record. *)
Lemma obj_get_through k props :
  obj_get k (map (fun kv => (fst kv, through_JSON (snd kv))) props)
  = through_JSON <$> obj_get k props.
Proof.
  induction props as [|[k' v'] props IH]; simpl; [reflexivity|].
  destruct (String.eqb k k'); [reflexivity | exact IH].
Qed.

Lemma get_prop_through d k :
  get_prop (through_JSON d) k = through_JSON <$> get_prop d k.
Proof.
  destruct d as [| b | n | s | elems | props]; try reflexivity.
  - destruct n; reflexivity.
  - apply obj_get_through.
Qed.

Lemma decode_stringify d :
  serializable d = true -> truthy (through_JSON d) = true ->
  decode (Some (JSON_stringify d)) = Some (through_JSON d).
Proof.
  intros Hwf Ht. unfold decode. rewrite JSON_parse_stringify by exact Hwf.
  rewrite Ht. reflexivity.
Qed.

Lemma persisted_written d w p con hp :
  serializable d = true -> truthy (through_JSON d) = true ->
  persisted (mkWorld p (written d (localStorage w)) con hp) = Some (through_JSON d).
Proof.
  intros Hwf Ht. unfold persisted, written. cbn [localStorage items].
  rewrite lookup_insert_eq. apply decode_stringify; assumption.
Qed.

End Record.

(** ** What the parser returns has one entry per key, and its fuel suffices *)

Section ParserTotal.
Local Open Scope char_scope.
Local Open Scope list_scope.

Ltac break_match H :=
  repeat match type of H with
         | context [match ?x with _ => _ end] =>
             let E := fresh "E" in destruct x eqn:E; try discriminate H
         | context [if ?x then _ else _] =>
             let E := fresh "E" in destruct x eqn:E; try discriminate H
         end.

Lemma build_keys ms : forall acc,
  keys_ok (VObj acc) = true ->
  forallb (fun kv => keys_ok (snd kv)) ms = true ->
  keys_ok (VObj (fold_left (fun o kv => obj_set (fst kv) (snd kv) o) ms acc)) = true.
Proof.
  induction ms as [|[k v] ms IH]; intros acc Hacc Hms; [exact Hacc|].
  cbn [forallb snd] in Hms. apply andb_true_iff in Hms as [Hv Hms].
  cbn [fold_left fst snd]. apply IH; [|exact Hms].
  cbn [keys_ok] in *. apply andb_true_iff in Hacc as [Hu Hf].
  rewrite unique_keys_obj_set, (forallb_obj_set keys_ok) by assumption. reflexivity.
Qed.

Lemma parse_value_S f s :
  parse_value (S f) s =
  match skip_ws s with
  | [] => PErr
  | c :: r =>
      if Ascii.eqb c "{" then
        match skip_ws r with
        | c' :: r' =>
            if Ascii.eqb c' "}" then POk (VObj []) r'
            else
              match parse_members f r with
              | POk ms rest =>
                  POk (VObj (fold_left (fun o kv => obj_set (fst kv) (snd kv) o) ms [])) rest
              | PErr => PErr
              | PFuel => PFuel
              end
        | [] => PErr
        end
      else if Ascii.eqb c "[" then
        match skip_ws r with
        | c' :: r' =>
            if Ascii.eqb c' "]" then POk (VArr []) r'
            else
              match parse_elems f r with
              | POk vs rest => POk (VArr vs) rest
              | PErr => PErr
              | PFuel => PFuel
              end
        | [] => PErr
        end
      else if Ascii.eqb c dquote then
        match parse_string r with
        | Some (str, rest) => POk (VStr str) rest
        | None => PErr
        end
      else if Ascii.eqb c "n" then
        match expect (list_ascii_of_string "ull") r with
        | Some rest => POk VNull rest
        | None => PErr
        end
      else if Ascii.eqb c "t" then
        match expect (list_ascii_of_string "rue") r with
        | Some rest => POk (VBool true) rest
        | None => PErr
        end
      else if Ascii.eqb c "f" then
        match expect (list_ascii_of_string "alse") r with
        | Some rest => POk (VBool false) rest
        | None => PErr
        end
      else
        match parse_number (c :: r) with
        | Some (n, rest) => POk (VNum n) rest
        | None => PErr
        end
  end.
Proof. reflexivity. Qed.

Lemma parse_members_S f s :
  parse_members (S f) s =
  match skip_ws s with
  | q :: r0 =>
      if Ascii.eqb q dquote then
        match parse_string r0 with
        | Some (k, r1) =>
            match skip_ws r1 with
            | colon :: r2 =>
                if Ascii.eqb colon ":" then
                  match parse_value f r2 with
                  | POk v r3 =>
                      match skip_ws r3 with
                      | c :: r4 =>
                          if Ascii.eqb c "," then
                            match parse_members f r4 with
                            | POk ms rest => POk ((k, v) :: ms) rest
                            | PErr => PErr
                            | PFuel => PFuel
                            end
                          else if Ascii.eqb c "}" then POk [(k, v)] r4
                          else PErr
                      | [] => PErr
                      end
                  | PErr => PErr
                  | PFuel => PFuel
                  end
                else PErr
            | [] => PErr
            end
        | None => PErr
        end
      else PErr
  | [] => PErr
  end.
Proof. reflexivity. Qed.

Lemma parser_keys fuel :
  (forall s v r, parse_value fuel s = POk v r -> keys_ok v = true)
  /\ (forall s vs r, parse_elems fuel s = POk vs r -> forallb keys_ok vs = true)
  /\ (forall s ms r, parse_members fuel s = POk ms r ->
                     forallb (fun kv => keys_ok (snd kv)) ms = true).
Proof.
  induction fuel as [|f (IHv & IHe & IHm)]; [repeat split; discriminate|].
  repeat split.
  - intros s v r H. rewrite parse_value_S in H. break_match H;
      injection H as <- <-; try reflexivity.
    + apply build_keys; [reflexivity | eapply IHm; eassumption].
    + cbn [keys_ok]. eapply IHe; eassumption.
  - intros s vs r H. rewrite parse_elems_S in H. break_match H;
      injection H as <- <-; cbn [forallb].
    + erewrite IHv, IHe by eassumption. reflexivity.
    + erewrite IHv by eassumption. reflexivity.
  - intros s ms r H. rewrite parse_members_S in H. break_match H;
      injection H as <- <-; cbn [forallb snd].
    + erewrite IHv, IHm by eassumption. reflexivity.
    + erewrite IHv by eassumption. reflexivity.
Qed.

(** What [JSON.parse] returns has one entry per key in every object. *)
Lemma JSON_parse_keys text v : JSON_parse text = Some v -> keys_ok v = true.
Proof.
  unfold JSON_parse. intros H.
  destruct (parse_value _ _) as [v' rest| |] eqn:E; try discriminate.
  destruct (skip_ws rest); [|discriminate]. injection H as <-.
  eapply parser_keys, E.
Qed.

Lemma keys_numbers_serializable v :
  keys_ok v = true -> numbers_read_back v = true -> serializable v = true.
Proof.
  induction v as [| b | n | s | elems IH | props IH] using value_ind_nested;
    try reflexivity.
  - intros _ H. exact H.
  - cbn [keys_ok numbers_read_back serializable]. rewrite !forallb_forall.
    intros Hk Hn x Hx. rewrite List.Forall_forall in IH.
    apply IH; [exact Hx | apply Hk, Hx | apply Hn, Hx].
  - cbn [keys_ok numbers_read_back serializable].
    rewrite !andb_true_iff, !forallb_forall.
    intros [Hu Hk] Hn. split; [exact Hu|]. intros x Hx.
    rewrite List.Forall_forall in IH.
    apply IH; [exact Hx | apply Hk, Hx | apply Hn, Hx].
Qed.

(** What [JSON.parse] returns goes back through JSON as [through_JSON]
    says, as soon as its finite numbers are read back. *)
Lemma JSON_parse_serializable text v :
  JSON_parse text = Some v -> numbers_read_back v = true -> serializable v = true.
Proof. intros H. apply keys_numbers_serializable, (JSON_parse_keys _ _ H). Qed.

Lemma serializable_numbers v : serializable v = true -> numbers_read_back v = true.
Proof.
  induction v as [| b | n | s | elems IH | props IH] using value_ind_nested;
    try reflexivity.
  - intros H. exact H.
  - cbn [numbers_read_back serializable]. rewrite !forallb_forall.
    intros H x Hx. rewrite List.Forall_forall in IH. apply IH; [exact Hx | apply H, Hx].
  - cbn [numbers_read_back serializable]. rewrite andb_true_iff, !forallb_forall.
    intros [_ H] x Hx. rewrite List.Forall_forall in IH. apply IH; [exact Hx | apply H, Hx].
Qed.

Lemma skip_ws_length s : length (skip_ws s) <= length s.
Proof.
  induction s as [|c s IH]; simpl; [lia|]. destruct (is_ws c); simpl; lia.
Qed.

Lemma scan_digits_length s ds r : scan_digits s = (ds, r) -> length r <= length s.
Proof.
  revert ds r. induction s as [|c s IH]; simpl; intros ds r.
  - intros [= <- <-]. simpl. lia.
  - destruct (char_digit c).
    + destruct (scan_digits s) as [ds' r'] eqn:E. intros [= <- <-].
      specialize (IH _ _ eq_refl). lia.
    + intros [= <- <-]. simpl. lia.
Qed.

Lemma scan_fraction_length s f r : scan_fraction s = Some (f, r) -> length r <= length s.
Proof.
  unfold scan_fraction. destruct s as [|c s]; [intros [= <- <-]; simpl; lia|].
  destruct (Ascii.eqb c ".").
  - destruct (scan_digits s) as [[|d ds] r'] eqn:E; [discriminate|].
    intros [= <- <-]. apply scan_digits_length in E. simpl. lia.
  - intros [= <- <-]. lia.
Qed.

Lemma scan_exponent_length s x r : scan_exponent s = Some (x, r) -> length r <= length s.
Proof.
  unfold scan_exponent. destruct s as [|c s]; [intros [= <- <-]; simpl; lia|].
  destruct (Ascii.eqb c "e" || Ascii.eqb c "E"); [|intros [= <- <-]; lia].
  destruct s as [|c' s'].
  - simpl. discriminate.
  - destruct (Ascii.eqb c' "-"); [|destruct (Ascii.eqb c' "+")];
      match goal with
      | |- context [scan_digits ?l] =>
          destruct (scan_digits l) as [[|d ds] r'] eqn:E; [discriminate|];
          intros [= <- <-]; apply scan_digits_length in E; simpl in *; lia
      end.
Qed.

Lemma parse_unsigned_length neg s n r :
  parse_unsigned neg s = Some (n, r) -> length r <= length s.
Proof.
  unfold parse_unsigned. intros H.
  destruct (scan_digits s) as [i s2] eqn:E1.
  destruct (negb (int_ok i)); [discriminate|].
  destruct (scan_fraction s2) as [[f s3]|] eqn:E2; [|discriminate].
  destruct (scan_exponent s3) as [[[eneg eds] rest]|] eqn:E3; [|discriminate].
  cbv zeta in H. injection H as _ <-.
  apply scan_digits_length in E1. apply scan_fraction_length in E2.
  apply scan_exponent_length in E3. lia.
Qed.

Lemma parse_number_length s n r : parse_number s = Some (n, r) -> length r <= length s.
Proof.
  unfold parse_number. destruct s as [|c s]; [discriminate|].
  destruct (Ascii.eqb c "-"); intros H; apply parse_unsigned_length in H; simpl in *; lia.
Qed.

Lemma expect_length word : forall s r, expect word s = Some r -> length r <= length s.
Proof.
  induction word as [|w word IH]; intros s r; simpl.
  - intros [= <-]. lia.
  - destruct s as [|c s]; [discriminate|]. destruct (Ascii.eqb c w); [|discriminate].
    intros H. apply IH in H. simpl. lia.
Qed.

Lemma prepend_length cs res b r n :
  prepend cs res = Some (b, r) ->
  (forall b' r', res = Some (b', r') -> length r' <= n) ->
  length r <= n.
Proof.
  unfold prepend. destruct res as [[b' r']|]; [|discriminate].
  intros [= <- <-] H. eapply H. reflexivity.
Qed.

Lemma parse_chars_length n : forall s b r,
  length s <= n -> parse_chars s = Some (b, r) -> length r < length s.
Proof.
  induction n as [|n IH]; intros s b r Hn H.
  - destruct s; [discriminate | simpl in Hn; lia].
  - destruct s as [|c s]; [discriminate|]. cbn [parse_chars] in H. cbn [length] in *.
    destruct (Ascii.eqb c dquote); [injection H as <- <-; lia|].
    destruct (Ascii.eqb c "\").
    + destruct s as [|e r1]; [discriminate|]. cbn [length] in *.
      destruct (simple_escape e).
      * eapply prepend_length with (n := length r1) in H; [lia|].
        intros b' r' H'. apply IH in H'; lia.
      * destruct (Ascii.eqb e "u"); [|discriminate].
        destruct r1 as [|h1 [|h2 [|h3 [|h4 r2]]]]; try discriminate. cbn [length] in *.
        destruct (hex4 h1 h2 h3 h4); [|discriminate].
        assert (Hplain : forall cs b0 r0,
                   prepend cs (parse_chars r2) = Some (b0, r0) -> length r0 <= length r2).
        { intros cs b0 r0 H0. eapply prepend_length in H0; [exact H0|].
          intros b' r' H'. apply IH in H'; lia. }
        destruct (is_high_surrogate n0); [|apply Hplain in H; lia].
        destruct r2 as [|b0 [|u [|l1 [|l2 [|l3 [|l4 r3]]]]]];
          try (apply Hplain in H; cbn [length] in *; lia).
        destruct (hex4 l1 l2 l3 l4); [|apply Hplain in H; cbn [length] in *; lia].
        destruct (Ascii.eqb b0 "\" && Ascii.eqb u "u" && is_low_surrogate n1);
          [|apply Hplain in H; cbn [length] in *; lia].
        eapply prepend_length with (n := length r3) in H; [cbn [length] in *; lia|].
        intros b' r' H'. apply IH in H'; cbn [length] in *; lia.
    + destruct (N_of_ascii c <? 32)%N; [discriminate|].
      eapply prepend_length with (n := length s) in H; [lia|].
      intros b' r' H'. apply IH in H'; lia.
Qed.

Lemma parse_string_length s k r : parse_string s = Some (k, r) -> length r < length s.
Proof.
  unfold parse_string. destruct (parse_chars s) as [[b r']|] eqn:E; [|discriminate].
  intros [= _ <-]. eapply parse_chars_length; [reflexivity | exact E].
Qed.

Lemma cons_length_le {A} (l : list A) c r n : l = c :: r -> length l <= n -> length r < n.
Proof. intros -> H. simpl in H. lia. Qed.

(** The parser never returns more than it was given. *)
Lemma parser_length fuel :
  (forall s v r, parse_value fuel s = POk v r -> length r <= length s)
  /\ (forall s vs r, parse_elems fuel s = POk vs r -> length r <= length s)
  /\ (forall s ms r, parse_members fuel s = POk ms r -> length r <= length s).
Proof.
  induction fuel as [|f (IHv & IHe & IHm)]; [repeat split; discriminate|].
  repeat split.
  - intros s v r H. rewrite parse_value_S in H.
    pose proof (skip_ws_length s) as Hs.
    destruct (skip_ws s) as [|c r0] eqn:E0; [discriminate|]. cbn [length] in Hs.
    destruct (Ascii.eqb c "{").
    { pose proof (skip_ws_length r0) as Hr.
      destruct (skip_ws r0) as [|c' r'] eqn:E1; [discriminate|]. cbn [length] in Hr.
      destruct (Ascii.eqb c' "}"); [injection H as _ <-; lia|].
      destruct (parse_members f r0) eqn:Em; try discriminate.
      injection H as _ <-. apply IHm in Em. lia. }
    destruct (Ascii.eqb c "[").
    { pose proof (skip_ws_length r0) as Hr.
      destruct (skip_ws r0) as [|c' r'] eqn:E1; [discriminate|]. cbn [length] in Hr.
      destruct (Ascii.eqb c' "]"); [injection H as _ <-; lia|].
      destruct (parse_elems f r0) eqn:Em; try discriminate.
      injection H as _ <-. apply IHe in Em. lia. }
    destruct (Ascii.eqb c dquote).
    { destruct (parse_string r0) as [[str rest]|] eqn:Es; [|discriminate].
      injection H as _ <-. apply parse_string_length in Es. lia. }
    destruct (Ascii.eqb c "n").
    { destruct (expect _ r0) eqn:Ee; [|discriminate].
      injection H as _ <-. apply expect_length in Ee. lia. }
    destruct (Ascii.eqb c "t").
    { destruct (expect _ r0) eqn:Ee; [|discriminate].
      injection H as _ <-. apply expect_length in Ee. lia. }
    destruct (Ascii.eqb c "f").
    { destruct (expect _ r0) eqn:Ee; [|discriminate].
      injection H as _ <-. apply expect_length in Ee. lia. }
    destruct (parse_number (c :: r0)) as [[n rest]|] eqn:En; [|discriminate].
    injection H as _ <-. apply parse_number_length in En. cbn [length] in En. lia.
  - intros s vs r H. rewrite parse_elems_S in H.
    destruct (parse_value f s) as [v r1| |] eqn:Ev; try discriminate.
    apply IHv in Ev. pose proof (skip_ws_length r1) as Hr.
    destruct (skip_ws r1) as [|c r'] eqn:E1; [discriminate|]. cbn [length] in Hr.
    destruct (Ascii.eqb c ",").
    + destruct (parse_elems f r') eqn:Ee; try discriminate.
      injection H as _ <-. apply IHe in Ee. lia.
    + destruct (Ascii.eqb c "]"); [|discriminate]. injection H as _ <-. lia.
  - intros s ms r H. rewrite parse_members_S in H.
    pose proof (skip_ws_length s) as Hs.
    destruct (skip_ws s) as [|q r0] eqn:E0; [discriminate|]. cbn [length] in Hs.
    destruct (Ascii.eqb q dquote); [|discriminate].
    destruct (parse_string r0) as [[k r1]|] eqn:Es; [|discriminate].
    apply parse_string_length in Es. pose proof (skip_ws_length r1) as Hr1.
    destruct (skip_ws r1) as [|colon r2] eqn:E1; [discriminate|]. cbn [length] in Hr1.
    destruct (Ascii.eqb colon ":"); [|discriminate].
    destruct (parse_value f r2) as [v r3| |] eqn:Ev; try discriminate.
    apply IHv in Ev. pose proof (skip_ws_length r3) as Hr3.
    destruct (skip_ws r3) as [|c r4] eqn:E3; [discriminate|]. cbn [length] in Hr3.
    destruct (Ascii.eqb c ",").
    + destruct (parse_members f r4) eqn:Em; try discriminate.
      injection H as _ <-. apply IHm in Em. lia.
    + destruct (Ascii.eqb c "}"); [|discriminate]. injection H as _ <-. lia.
Qed.

(** Two units of fuel for every byte are enough. *)
Lemma parser_fuel fuel :
  (forall s, 2 * length s + 1 <= fuel -> parse_value fuel s <> PFuel)
  /\ (forall s, 2 * length s + 2 <= fuel -> parse_elems fuel s <> PFuel)
  /\ (forall s, 2 * length s + 2 <= fuel -> parse_members fuel s <> PFuel).
Proof.
  induction fuel as [|f (IHv & IHe & IHm)]; [repeat split; intros; lia|].
  destruct (parser_length f) as (Lv & Le & Lm).
  repeat split.
  - intros s Hf. rewrite parse_value_S.
    pose proof (skip_ws_length s) as Hs.
    destruct (skip_ws s) as [|c r0] eqn:E0; [discriminate|]. cbn [length] in Hs.
    destruct (Ascii.eqb c "{").
    { pose proof (skip_ws_length r0) as Hr.
      destruct (skip_ws r0) as [|c' r'] eqn:E1; [discriminate|].
      destruct (Ascii.eqb c' "}"); [discriminate|].
      specialize (IHm r0). destruct (parse_members f r0); try discriminate.
      exfalso. apply IHm; [lia | reflexivity]. }
    destruct (Ascii.eqb c "[").
    { pose proof (skip_ws_length r0) as Hr.
      destruct (skip_ws r0) as [|c' r'] eqn:E1; [discriminate|].
      destruct (Ascii.eqb c' "]"); [discriminate|].
      specialize (IHe r0). destruct (parse_elems f r0); try discriminate.
      exfalso. apply IHe; [lia | reflexivity]. }
    destruct (Ascii.eqb c dquote); [destruct parse_string as [[]|]; discriminate|].
    destruct (Ascii.eqb c "n"); [destruct expect; discriminate|].
    destruct (Ascii.eqb c "t"); [destruct expect; discriminate|].
    destruct (Ascii.eqb c "f"); [destruct expect; discriminate|].
    destruct parse_number as [[]|]; discriminate.
  - intros s Hf. rewrite parse_elems_S.
    specialize (IHv s). destruct (parse_value f s) as [v r1| |] eqn:Ev; try discriminate.
    + apply Lv in Ev. pose proof (skip_ws_length r1) as Hr.
      destruct (skip_ws r1) as [|c r'] eqn:E1; [discriminate|]. cbn [length] in Hr.
      destruct (Ascii.eqb c ",").
      * specialize (IHe r'). destruct (parse_elems f r'); try discriminate.
        exfalso. apply IHe; [lia | reflexivity].
      * destruct (Ascii.eqb c "]"); discriminate.
    + exfalso. apply IHv; [lia | reflexivity].
  - intros s Hf. rewrite parse_members_S.
    pose proof (skip_ws_length s) as Hs.
    destruct (skip_ws s) as [|q r0] eqn:E0; [discriminate|]. cbn [length] in Hs.
    destruct (Ascii.eqb q dquote); [|discriminate].
    destruct (parse_string r0) as [[k r1]|] eqn:Es; [|discriminate].
    apply parse_string_length in Es. pose proof (skip_ws_length r1) as Hr1.
    destruct (skip_ws r1) as [|colon r2] eqn:E1; [discriminate|]. cbn [length] in Hr1.
    destruct (Ascii.eqb colon ":"); [|discriminate].
    specialize (IHv r2).
    destruct (parse_value f r2) as [v r3| |] eqn:Ev; try discriminate.
    + apply Lv in Ev. pose proof (skip_ws_length r3) as Hr3.
      destruct (skip_ws r3) as [|c r4] eqn:E3; [discriminate|]. cbn [length] in Hr3.
      destruct (Ascii.eqb c ",").
      * specialize (IHm r4). destruct (parse_members f r4); try discriminate.
        exfalso. apply IHm; [lia | reflexivity].
      * destruct (Ascii.eqb c "}"); discriminate.
    + exfalso. apply IHv; [lia | reflexivity].
Qed.

(** [JSON_parse] never runs out of fuel: when it gives [None], the text is
    not JSON. *)
Lemma parse_fuel_enough text :
  let s := list_ascii_of_string text in
  parse_value (2 * length s + 2) s <> PFuel.
Proof. cbv zeta. apply parser_fuel. lia. Qed.

End ParserTotal.

(** ** The codec on examples *)

Section CodecExamples.
Local Open Scope list_scope.
Local Open Scope string_scope.

(** Numbers are read as the nearest binary64 number: several spellings
    give one number, too many digits are rounded away, a magnitude too
    small is zero and one too large is an infinity. *)
Lemma JSON_parse_numbers :
  JSON_parse "[25e-1, 1E+2, 0.001e3, 120.50, 0.42]"
  = JSON_parse "[2.5, 100, 1, 120.5, 42e-2]"
  /\ JSON_parse "2.00000000000000000001" = Some (VNum Examples.n2)
  /\ JSON_parse "0.1" = Some (VNum (S754_finite false 7205759403792794 (-56)))
  /\ JSON_parse "9007199254740993" = JSON_parse "9007199254740992"
  /\ JSON_parse "1e-400" = Some (VNum (S754_zero false))
  /\ JSON_parse "-0.0" = Some (VNum (S754_zero true))
  /\ JSON_parse "1e400" = Some (VNum (S754_infinity false))
  /\ JSON_parse "-1e400" = Some (VNum (S754_infinity true)).
Proof. vm_compute. repeat split; reflexivity. Qed.

(** Numbers are written with the fewest digits that are read back as the
    same number, an infinity as [null] and the negative zero as [0]. *)
Lemma JSON_stringify_numbers :
  JSON_stringify <$>
    JSON_parse "[25e-1, 1E+2, 0.001e3, -0.0, 120.50, 0.1, 0.30000000000000004, 1e21, 1e-7, 1e400, 5e-324]"
  = Some "[2.5,100,1,0,120.5,0.1,0.30000000000000004,1e+21,1e-7,null,5e-324]".
Proof. vm_compute. reflexivity. Qed.

(** Numbers of every size are read back from their text: the largest and
    the smallest, numbers that need seventeen digits, numbers written with an
    exponent; and the text is the one JavaScript prints. *)
Lemma reads_back_examples :
  let texts := ["0.42"; "1"; "0.1"; "0.30000000000000004"; "1.7976931348623157e+308";
                "5e-324"; "2.2250738585072014e-308"; "9007199254740992"; "1e+21";
                "123456789012345680000"; "1e-7"; "0.000001"; "-1.5"; "4.35"] in
  forallb (fun text =>
             match JSON_parse text with
             | Some (VNum n) => reads_back n && String.eqb (JSON_stringify (VNum n)) text
             | _ => false
             end) texts = true.
Proof. vm_compute. reflexivity. Qed.

Lemma JSON_parse_record :
  JSON_parse ("{ " ++ Examples.quoted "volume" ++ " : 0.42, "
              ++ Examples.quoted "muted" ++ ":false,"
              ++ Examples.quoted "captions" ++ ":" ++ Examples.quoted "fr"
              ++ ", " ++ Examples.quoted "volume" ++ ": 1 }") =
  Some (VObj [("volume", VNum Examples.n1); ("muted", VBool false);
              ("captions", VStr "fr")]).
Proof. vm_compute. reflexivity. Qed.

Lemma JSON_stringify_record :
  JSON_stringify (VObj [("volume", VNum Examples.n042); ("muted", VBool false);
                        ("captions", VStr EmptyString)]) =
  "{" ++ Examples.quoted "volume" ++ ":0.42,"
      ++ Examples.quoted "muted" ++ ":false,"
      ++ Examples.quoted "captions" ++ ":" ++ Examples.quoted EmptyString ++ "}".
Proof. vm_compute. reflexivity. Qed.

Lemma JSON_parse_rejects :
  JSON_parse "not json" = None
  /\ JSON_parse EmptyString = None
  /\ JSON_parse "01" = None
  /\ JSON_parse "[1,]" = None
  /\ JSON_parse "{volume: 1}" = None
  /\ JSON_parse "1 2" = None.
Proof. repeat split; reflexivity. Qed.

Lemma JSON_parse_falsy :
  decode None = Some (VObj [])
  /\ decode (Some "null") = Some (VObj [])
  /\ decode (Some "false") = Some (VObj [])
  /\ decode (Some "0") = Some (VObj [])
  /\ decode (Some (Examples.quoted EmptyString)) = Some (VObj [])
  /\ decode (Some "[]") = Some (VArr [])
  /\ decode (Some "1e-400") = Some (VObj [])
  /\ decode (Some "7") = JSON_parse "7"
  /\ truthy_opt (decode (Some "7")) = true.
Proof. vm_compute. repeat split; reflexivity. Qed.

End CodecExamples.

(** ** The probe and the activation entry point *)

Section Plugin.
Local Open Scope string_scope.
Local Open Scope list_scope.

Lemma probe_refused w :
  writable (localStorage w) = false ->
  checkLocalStorageAvailability w =
  Ret false
      (with_storage
         (mkStorage (items (localStorage w)) false
                    (calls (localStorage w) ++ [SetItem "persist-controls-test" "."])) w).
Proof.
  intros H. unfold checkLocalStorageAvailability, try_catch, bind, localStorage_setItem.
  rewrite H. reflexivity.
Qed.

Lemma probe_accepted w :
  writable (localStorage w) = true ->
  checkLocalStorageAvailability w =
  Ret true
      (with_storage
         (mkStorage (delete "persist-controls-test"
                            (<["persist-controls-test" := "."]> (items (localStorage w))))
                    true
                    (calls (localStorage w)
                     ++ [SetItem "persist-controls-test" "."]
                     ++ [RemoveItem "persist-controls-test"])) w).
Proof.
  intros H. unfold checkLocalStorageAvailability, try_catch, bind, localStorage_setItem.
  rewrite H. cbn. rewrite <- app_assoc. reflexivity.
Qed.

Lemma probe_result w b w1 :
  checkLocalStorageAvailability w = Ret b w1 -> b = writable (localStorage w).
Proof.
  destruct (writable (localStorage w)) eqn:E.
  - rewrite probe_accepted by exact E. congruence.
  - rewrite probe_refused by exact E. congruence.
Qed.

(** C5.  When the probe fails, [persistControls] does nothing but log: with
    any options, the only call on the store is the probe's own refused test
    write (the record is neither read nor written and the store's content
    stays), the player is untouched (no state changed, no listener
    subscribed, no ready callback queued), no record object is made, one
    notice is logged, and the call returns normally. *)
Theorem disabled_storage_is_noop (options : UserOptions) (w w1 : World) :
  checkLocalStorageAvailability w = Ret false w1 ->
  exists w',
    persistControls options w = Ret tt w'
    /\ player w' = player w
    /\ heap w' = heap w
    /\ items (localStorage w') = items (localStorage w)
    /\ calls (localStorage w') =
       calls (localStorage w) ++ [SetItem "persist-controls-test" "."]
    /\ console w' = console w ++ ["localStorage unavailable."].
Proof.
  intros Hprobe. pose proof (probe_result _ _ _ Hprobe) as Hw. symmetry in Hw.
  unfold persistControls, bind. rewrite (probe_refused w Hw). cbn.
  eexists. split; [reflexivity|]. cbn. repeat split; reflexivity.
Qed.

Lemma disabled_storage_is_noop_witness :
  let w := Examples.a_disabled_world (Examples.a_player [] [] []) in
  checkLocalStorageAvailability w
  = Ret false (with_storage (mkStorage Examples.no_items false
                                       [SetItem "persist-controls-test" "."]) w)
  /\ exists w',
    persistControls Examples.no_options w = Ret tt w'
    /\ player w' = player w
    /\ heap w' = heap w
    /\ items (localStorage w') = items (localStorage w)
    /\ calls (localStorage w') =
       calls (localStorage w) ++ [SetItem "persist-controls-test" "."]
    /\ console w' = console w ++ ["localStorage unavailable."].
Proof.
  intros w. split; [reflexivity|].
  apply (disabled_storage_is_noop Examples.no_options w
           (with_storage (mkStorage Examples.no_items false
                                    [SetItem "persist-controls-test" "."]) w)).
  reflexivity.
Defined.

(** ** The start-up pass *)

Lemma apply_option_eq options d rates name w :
  apply_option options d rates name w =
  match persisted_truthy options d name with
  | None => Ret tt w
  | Some v =>
      (if String.eqb name "playbackRate" && negb (includes rates v) then ret tt
       else if String.eqb name "captions" then apply_captions v
       else if String.eqb name "audioTrack" then apply_audioTrack v
       else player_call name v) w
  end.
Proof.
  unfold apply_option, persisted_truthy.
  destruct (option_enabled options name); [|reflexivity]. cbn [negb].
  destruct (get_prop d name) as [v|]; [|reflexivity].
  destruct (truthy v); reflexivity.
Qed.

Lemma bind_run {A B} (m : M A) (k : A -> M B) w :
  bind m k w = match m w with
               | Ret a w' => k a w'
               | Throw e w' => Throw e w'
               end.
Proof. reflexivity. Qed.

Lemma subscribe_run options r w :
  ((if o_muted options || o_volume options
    then player_on PLAYER_ACTIONS.volumeChange
                   (OnVolumeChange (o_muted options) (o_volume options) r)
    else ret tt) ;;
   (if o_playbackRate options
    then player_on PLAYER_ACTIONS.rateChange (OnRateChange r)
    else ret tt) ;;
   (if o_captions options
    then player_on PLAYER_ACTIONS.textTrackChange (OnTextTrackChange r)
    else ret tt) ;;
   (if o_audioTrack options
    then audioTracks_addEventListener "change" (OnAudioTrackChange r)
    else ret tt)) w
  = Ret tt (with_player (subscribe options r (player w)) w).
Proof.
  destruct w as [p st con hp]. destruct p.
  unfold with_player, subscribe, subscriptions, audio_subscriptions.
  destruct options as [[] [] [] [] []];
    cbn; rewrite ?app_nil_r, <- ?app_assoc; reflexivity.
Qed.

(** [onPlayerReady] when the stored text decodes: the record goes on the
    heap, the pass applies it to the player, the listeners are subscribed. *)
Lemma onPlayerReady_run options w d :
  decode (items (localStorage w) !! PLUGIN_CONFIG.key) = Some d ->
  onPlayerReady options w =
  Ret tt (mkWorld (startup_player options d (length (heap w)) (player w))
                  (read_storage w) (console w) (heap w ++ [d])).
Proof.
  intros Hd. unfold decode in Hd.
  unfold onPlayerReady, bind at 1 2 3, modify_player, localStorage_getItem, JSON_parse_arg.
  cbn [player localStorage console heap with_storage items].
  destruct (JSON_parse _) as [parsed|]; [|discriminate].
  injection Hd as <-. unfold ret at 1. unfold bind at 1, alloc. cbn [player localStorage console heap].
  unfold bind at 1, get_player. cbn [player localStorage console heap].
  set (record := if truthy parsed then parsed else VObj []).
  unfold startup_player, restore, read_storage, supported_rates.
  cbv zeta. unfold with_storage. cbn [player localStorage console heap].
  generalize (addClass "vjs-persist-controls" (player w)). intros p0.
  generalize (match p_playbackRates p0 with
              | Some r => r | None => default [] (p_options_playbackRates p0) end).
  intros rates.
  unfold PLUGIN_CONFIG.persistOptions.
  rewrite bind_run. cbn [forEach].
  rewrite bind_run, apply_option_eq.
  destruct (persisted_truthy options record "volume") as [v1|];
    cbn -[bind apply_option includes show_track swap_audioTrack];
    rewrite bind_run, apply_option_eq;
    (destruct (persisted_truthy options record "muted") as [v2|];
     cbn -[bind apply_option includes show_track swap_audioTrack];
     rewrite bind_run, apply_option_eq;
     (destruct (persisted_truthy options record "playbackRate") as [v3|];
      cbn -[bind apply_option includes show_track swap_audioTrack];
      try destruct (includes rates v3);
      cbn -[bind apply_option includes show_track swap_audioTrack];
      rewrite bind_run, apply_option_eq;
      (destruct (persisted_truthy options record "captions") as [v4|];
       cbn -[bind apply_option includes show_track swap_audioTrack];
       rewrite bind_run, apply_option_eq;
       (destruct (persisted_truthy options record "audioTrack") as [v5|];
        cbn -[bind includes show_track swap_audioTrack];
        rewrite subscribe_run; reflexivity)))).
Qed.

Lemma onPlayerReady_throws options w :
  decode (items (localStorage w) !! PLUGIN_CONFIG.key) = None ->
  onPlayerReady options w =
  Throw SyntaxError
        (mkWorld (addClass "vjs-persist-controls" (player w))
                 (read_storage w) (console w) (heap w)).
Proof.
  intros Hd. unfold decode in Hd.
  unfold onPlayerReady, bind at 1 2 3, modify_player, localStorage_getItem, JSON_parse_arg.
  cbn [player localStorage console heap with_storage items].
  destruct (JSON_parse _) as [parsed|]; [discriminate|]. reflexivity.
Qed.

(** With a store that takes writes, the activation queues the callback
    that will run [onPlayerReady] with the merged options. *)
Lemma persistControls_queues options w :
  writable (localStorage w) = true ->
  exists w',
    persistControls options w = Ret tt w'
    /\ ready_queue (player w')
       = ready_queue (player w) ++ [merge PLUGIN_CONFIG.defaultOptions options]
    /\ listeners (player w') = listeners (player w)
    /\ heap w' = heap w
    /\ items (localStorage w') !! PLUGIN_CONFIG.key
       = items (localStorage w) !! PLUGIN_CONFIG.key.
Proof.
  intros Hw. unfold persistControls. rewrite bind_run, (probe_accepted w Hw).
  cbn [negb]. eexists. split; [reflexivity|]. cbn.
  repeat split. rewrite lookup_delete_ne, lookup_insert_ne by discriminate. reflexivity.
Qed.

End Plugin.

(** ** Finding a track *)

Section Tracks.
Local Open Scope string_scope.
Local Open Scope list_scope.

Lemma find_index_Some {A} (p : A -> bool) (l : list A) i :
  find_index p l = Some i ->
  exists x, l !! i = Some x /\ p x = true
            /\ forall j y, j < i -> l !! j = Some y -> p y = false.
Proof.
  revert i. induction l as [|a l IH]; intros i; simpl; [discriminate|].
  destruct (p a) eqn:Ea.
  - intros [= <-]. exists a. split; [reflexivity|]. split; [exact Ea|]. intros j y Hj. lia.
  - destruct (find_index p l) as [k|] eqn:Ek; simpl; [|discriminate].
    intros [= <-]. destruct (IH k eq_refl) as (x & Hx & Hp & Hfirst).
    exists x. split; [exact Hx|]. split; [exact Hp|].
    intros [|j] y Hj; simpl.
    + intros [= <-]. exact Ea.
    + apply Hfirst. lia.
Qed.

Lemma find_index_None {A} (p : A -> bool) (l : list A) :
  find_index p l = None <-> existsb p l = false.
Proof.
  induction l as [|a l IH]; simpl; [tauto|].
  destruct (p a); simpl; [split; discriminate|].
  destruct (find_index p l); simpl.
  - split; [discriminate|]. intros H. apply IH in H. discriminate.
  - tauto.
Qed.

Lemma find_index_exists {A} (p : A -> bool) (l : list A) :
  existsb p l = true -> exists i, find_index p l = Some i.
Proof.
  intros H. destruct (find_index p l) as [i|] eqn:E; [eauto|].
  apply find_index_None in E. congruence.
Qed.

Lemma alter_as_insert {A} (f : A -> A) (l : list A) i x :
  l !! i = Some x -> alter f i l = <[i := f x]> l.
Proof.
  revert i. induction l as [|a l IH]; intros [|i]; simpl; try discriminate.
  - intros [= ->]. reflexivity.
  - intros H. f_equal. apply IH, H.
Qed.

(** The [captions] branch, in the words of the claim. *)
Lemma show_track_spec v tracks :
  (existsb tt_default tracks = true ->
   exists i t, tracks !! i = Some t /\ tt_default t = true
               /\ (forall k t', k < i -> tracks !! k = Some t' -> tt_default t' = false)
               /\ show_track v tracks = <[i := set_mode "showing" t]> tracks)
  /\ (existsb tt_default tracks = false ->
      existsb (text_language_is v) tracks = true ->
      exists j t, tracks !! j = Some t /\ text_language_is v t = true
                  /\ (forall k t', k < j -> tracks !! k = Some t' ->
                                   text_language_is v t' = false)
                  /\ show_track v tracks = <[j := set_mode "showing" t]> tracks)
  /\ (existsb tt_default tracks = false ->
      existsb (text_language_is v) tracks = false ->
      show_track v tracks = tracks).
Proof.
  unfold show_track. fold (text_language_is v). repeat split.
  - intros H. destruct (find_index_exists _ _ H) as [i Ei]. rewrite Ei.
    destruct (find_index_Some _ _ _ Ei) as (t & Ht & Hd & Hfirst).
    exists i, t. repeat split; auto. apply alter_as_insert, Ht.
  - intros Hd Hl. apply find_index_None in Hd. rewrite Hd.
    destruct (find_index_exists _ _ Hl) as [j Ej]. rewrite Ej.
    destruct (find_index_Some _ _ _ Ej) as (t & Ht & Hm & Hfirst).
    exists j, t. repeat split; auto. apply alter_as_insert, Ht.
  - intros Hd Hl. apply find_index_None in Hd, Hl. rewrite Hd, Hl. reflexivity.
Qed.

(** Exactly one enabled track: every track but the one found is disabled. *)
Lemma one_enabled tracks i :
  length (List.filter at_enabled tracks) = 1 ->
  find_index at_enabled tracks = Some i ->
  forall k t, k <> i -> tracks !! k = Some t -> at_enabled t = false.
Proof.
  revert i. induction tracks as [|a l IH]; intros i; simpl; [discriminate|].
  destruct (at_enabled a) eqn:Ea.
  - simpl. intros Hlen [= <-] [|k] t Hk; [congruence|]. simpl. intros Ht.
    destruct (at_enabled t) eqn:Et; [|reflexivity].
    assert (In t (List.filter at_enabled l)) as Hin.
    { apply filter_In. split; [|exact Et]. apply list_elem_of_In.
      apply list_elem_of_lookup. eauto. }
    destruct (List.filter at_enabled l); [destruct Hin | simpl in Hlen; lia].
  - intros Hlen. destruct (find_index at_enabled l) as [j|] eqn:Ej; simpl; [|discriminate].
    intros [= <-] [|k] t Hk; simpl.
    + intros [= <-]. exact Ea.
    + apply (IH j Hlen eq_refl). lia.
Qed.

Lemma one_enabled_found tracks :
  length (List.filter at_enabled tracks) = 1 ->
  exists i, find_index at_enabled tracks = Some i.
Proof.
  intros H. apply find_index_exists. apply existsb_exists.
  destruct (List.filter at_enabled tracks) as [|t l] eqn:E; [discriminate|].
  assert (In t (List.filter at_enabled tracks)) as Hin by (rewrite E; left; reflexivity).
  apply filter_In in Hin. exists t. exact Hin.
Qed.

Lemma set_enabled_same t : set_enabled (at_enabled t) t = t.
Proof. destruct t. reflexivity. Qed.

Lemma disable_the_enabled tracks i :
  length (List.filter at_enabled tracks) = 1 ->
  find_index at_enabled tracks = Some i ->
  alter (set_enabled false) i tracks = map (set_enabled false) tracks.
Proof.
  intros Hlen Hi. apply list_eq. intros k.
  rewrite list_lookup_alter. change (map (set_enabled false) tracks !! k)
    with ((set_enabled false <$> tracks) !! k). rewrite list_lookup_fmap.
  destruct (decide (i = k)) as [->|Hne]; [reflexivity|].
  destruct (tracks !! k) as [t|] eqn:Et; [|reflexivity]. simpl.
  rewrite <- (one_enabled tracks i Hlen Hi k t) by (auto; congruence).
  rewrite set_enabled_same. reflexivity.
Qed.

Lemma filter_all_disabled tracks :
  List.filter at_enabled (map (set_enabled false) tracks) = [].
Proof. induction tracks as [|a l IH]; simpl; [reflexivity | exact IH]. Qed.

Lemma one_enabled_after tracks j t :
  tracks !! j = Some t ->
  length (List.filter at_enabled
            (<[j := set_enabled true t]> (map (set_enabled false) tracks))) = 1.
Proof.
  revert j. induction tracks as [|a l IH]; intros [|j]; simpl; try discriminate.
  - intros _. rewrite filter_all_disabled. reflexivity.
  - intros H. apply IH, H.
Qed.

(** The [audioTrack] branch, in the words of the claim. *)
Lemma swap_audioTrack_spec v tracks :
  length (List.filter at_enabled tracks) = 1 ->
  (existsb (audio_language_is v) tracks = true ->
   exists j t, tracks !! j = Some t /\ audio_language_is v t = true
               /\ (forall k t', k < j -> tracks !! k = Some t' ->
                                audio_language_is v t' = false)
               /\ swap_audioTrack v tracks
                  = <[j := set_enabled true t]> (map (set_enabled false) tracks))
  /\ (existsb (audio_language_is v) tracks = false -> swap_audioTrack v tracks = tracks).
Proof.
  intros Hlen. unfold swap_audioTrack. fold (audio_language_is v). split.
  - intros Hm. destruct (find_index_exists _ _ Hm) as [j Ej]. rewrite Ej.
    destruct (one_enabled_found tracks Hlen) as [i Ei]. rewrite Ei.
    destruct (find_index_Some _ _ _ Ej) as (t & Ht & Hl & Hfirst).
    exists j, t. repeat split; auto.
    rewrite (disable_the_enabled tracks i Hlen Ei).
    rewrite (alter_as_insert _ _ j (set_enabled false t)).
    + reflexivity.
    + change (map (set_enabled false) tracks !! j)
        with ((set_enabled false <$> tracks) !! j).
      rewrite list_lookup_fmap, Ht. reflexivity.
  - intros Hm. apply find_index_None in Hm. rewrite Hm.
    destruct (find_index at_enabled tracks); reflexivity.
Qed.

End Tracks.

(** ** What the start-up pass leaves in the player *)

Section Startup.
Local Open Scope string_scope.
Local Open Scope list_scope.

Lemma restore_frame {B} (proj : Player -> B) options d name f p :
  (forall v q, proj (f v q) = proj q) ->
  proj (restore options d name f p) = proj p.
Proof. intros H. unfold restore. destruct persisted_truthy; [apply H | reflexivity]. Qed.

Lemma addClass_frame {B} (proj : Player -> B) c p :
  proj (set_classes (classes p ++ [c]) p) = proj p ->
  proj (addClass c p) = proj p.
Proof. intros H. unfold addClass. destruct existsb; [reflexivity | exact H]. Qed.

Ltac frames proj :=
  repeat first
    [ rewrite (restore_frame proj) by (intros; first [reflexivity | destruct includes; reflexivity])
    | rewrite (addClass_frame proj) by reflexivity ].

Lemma startup_textTracks options d r p :
  textTracks (startup_player options d r p) =
  match persisted_truthy options d "captions" with
  | Some v => show_track v (textTracks p)
  | None => textTracks p
  end.
Proof.
  unfold startup_player, subscribe. cbn [textTracks set_audio_listeners set_listeners].
  rewrite (restore_frame textTracks) by reflexivity. unfold restore at 1.
  destruct (persisted_truthy options d "captions"); cbn [textTracks set_textTracks]; frames textTracks;
    reflexivity.
Qed.

Lemma startup_audioTracks options d r p :
  audioTracks (startup_player options d r p) =
  match persisted_truthy options d "audioTrack" with
  | Some v => swap_audioTrack v (audioTracks p)
  | None => audioTracks p
  end.
Proof.
  unfold startup_player, subscribe. cbn [audioTracks set_audio_listeners set_listeners].
  unfold restore at 1.
  destruct (persisted_truthy options d "audioTrack"); cbn [audioTracks set_audioTracks];
    frames audioTracks; reflexivity.
Qed.

Lemma startup_muted options d r p :
  p_muted (startup_player options d r p) =
  match persisted_truthy options d "muted" with
  | Some v => v
  | None => p_muted p
  end.
Proof.
  unfold startup_player, subscribe. cbn [p_muted set_audio_listeners set_listeners].
  do 3 rewrite (restore_frame p_muted) by (intros; first [reflexivity | destruct includes; reflexivity]).
  unfold restore at 1.
  destruct (persisted_truthy options d "muted"); cbn [p_muted set_muted]; frames p_muted;
    reflexivity.
Qed.

Lemma startup_volume options d r p :
  p_volume (startup_player options d r p) =
  match persisted_truthy options d "volume" with
  | Some v => v
  | None => p_volume p
  end.
Proof.
  unfold startup_player, subscribe. cbn [p_volume set_audio_listeners set_listeners].
  do 4 rewrite (restore_frame p_volume) by (intros; first [reflexivity | destruct includes; reflexivity]).
  unfold restore at 1.
  destruct (persisted_truthy options d "volume"); cbn [p_volume set_volume]; frames p_volume;
    reflexivity.
Qed.

Lemma supported_rates_addClass c p :
  supported_rates (addClass c p) = supported_rates p.
Proof. unfold addClass. destruct existsb; reflexivity. Qed.

Lemma startup_playbackRate options d r p :
  p_playbackRate (startup_player options d r p) =
  match persisted_truthy options d "playbackRate" with
  | Some v => if includes (supported_rates p) v then v else p_playbackRate p
  | None => p_playbackRate p
  end.
Proof.
  unfold startup_player, subscribe. cbn [p_playbackRate set_audio_listeners set_listeners].
  cbv zeta. rewrite supported_rates_addClass.
  do 2 rewrite (restore_frame p_playbackRate) by reflexivity.
  unfold restore at 1.
  destruct (persisted_truthy options d "playbackRate"); [destruct includes|];
    cbn [p_playbackRate set_playbackRate]; frames p_playbackRate; reflexivity.
Qed.

Lemma startup_listeners options d r p :
  listeners (startup_player options d r p) = listeners p ++ subscriptions options r.
Proof.
  unfold startup_player, subscribe. cbn [listeners set_audio_listeners set_listeners].
  frames listeners. reflexivity.
Qed.

Lemma startup_audio_listeners options d r p :
  audio_listeners (startup_player options d r p)
  = audio_listeners p ++ audio_subscriptions options r.
Proof.
  unfold startup_player, subscribe. cbn [audio_listeners set_audio_listeners set_listeners].
  frames audio_listeners. reflexivity.
Qed.

Lemma startup_has_textTracks_ options d r p :
  has_textTracks_ (startup_player options d r p) = has_textTracks_ p.
Proof.
  unfold startup_player, subscribe.
  cbn [has_textTracks_ set_audio_listeners set_listeners].
  frames has_textTracks_. reflexivity.
Qed.

Lemma persisted_truthy_Some options d name v :
  option_enabled options name = true ->
  get_prop d name = Some v -> truthy v = true ->
  persisted_truthy options d name = Some v.
Proof. intros He Hg Ht. unfold persisted_truthy. rewrite He, Hg, Ht. reflexivity. Qed.

Lemma persisted_truthy_falsy options d name v :
  get_prop d name = Some v -> truthy v = false ->
  persisted_truthy options d name = None.
Proof.
  intros Hg Ht. unfold persisted_truthy. rewrite Hg, Ht.
  destruct option_enabled; reflexivity.
Qed.

End Startup.

(** ** Start-up: properties *)

Section StartupClaims.
Local Open Scope string_scope.
Local Open Scope list_scope.

(** C1, as amended.  Decoding tolerates an absent record, not a malformed
    one: [decode] of no text is the empty record, but text that is not JSON
    makes [JSON.parse] throw, and the [SyntaxError] leaves [onPlayerReady]
    after the class was added and the store was read, before any preference
    is applied, any record made or any listener subscribed. *)
Theorem decode_tolerates_absent_not_malformed (options : Options) (w : World) (s : string) :
  items (localStorage w) !! PLUGIN_CONFIG.key = Some s ->
  JSON_parse s = None ->
  decode None = Some (VObj [])
  /\ decode (Some s) = None
  /\ onPlayerReady options w =
     Throw SyntaxError
           (mkWorld (addClass "vjs-persist-controls" (player w))
                    (read_storage w) (console w) (heap w)).
Proof.
  intros Hs Hparse. split; [reflexivity|].
  assert (decode (Some s) = None) as Hd by (unfold decode; rewrite Hparse; reflexivity).
  split; [exact Hd|]. apply onPlayerReady_throws. rewrite Hs. exact Hd.
Qed.

Lemma decode_tolerates_absent_not_malformed_witness :
  let w := Examples.a_world (Examples.a_player [] [] []) (Some "not json") in
  items (localStorage w) !! PLUGIN_CONFIG.key = Some "not json"
  /\ JSON_parse "not json" = None
  /\ decode None = Some (VObj [])
  /\ decode (Some "not json") = None
  /\ onPlayerReady PLUGIN_CONFIG.defaultOptions w =
     Throw SyntaxError
           (mkWorld (addClass "vjs-persist-controls" (player w))
                    (read_storage w) (console w) (heap w)).
Proof.
  intros w. split; [reflexivity|]. split; [reflexivity|].
  apply (decode_tolerates_absent_not_malformed PLUGIN_CONFIG.defaultOptions w "not json");
    reflexivity.
Defined.

(** C1 as stated fails on the text [not json]: decoding it does not yield
    the empty record, and the start-up that reads it throws. *)
Lemma decode_not_json_fails :
  decode (Some "not json") <> Some (VObj [])
  /\ exists w',
       onPlayerReady PLUGIN_CONFIG.defaultOptions
         (Examples.a_world (Examples.a_player [] [] []) (Some "not json"))
       = Throw SyntaxError w'.
Proof.
  split; [discriminate|]. eexists. apply onPlayerReady_throws. reflexivity.
Qed.

(** The activation, then the player becoming ready: [onPlayerReady] runs
    with the merged options, on the store as the probe left it. *)
Lemma activation_runs_onPlayerReady options w :
  writable (localStorage w) = true ->
  ready_queue (player w) = [] ->
  exists w1,
    (persistControls options ;; run_ready) w
    = (onPlayerReady (merge PLUGIN_CONFIG.defaultOptions options) ;; ret tt) w1
    /\ heap w1 = heap w
    /\ listeners (player w1) = listeners (player w)
    /\ audio_listeners (player w1) = audio_listeners (player w)
    /\ textTracks (player w1) = textTracks (player w)
    /\ audioTracks (player w1) = audioTracks (player w)
    /\ writable (localStorage w1) = true
    /\ items (localStorage w1) !! PLUGIN_CONFIG.key
       = items (localStorage w) !! PLUGIN_CONFIG.key.
Proof.
  intros Hw Hq. rewrite bind_run. unfold persistControls.
  rewrite bind_run, (probe_accepted w Hw). cbn [negb]. unfold player_ready, modify_player.
  unfold run_ready. rewrite bind_run. unfold get_player. rewrite bind_run.
  unfold modify_player. cbn [player localStorage console heap with_storage ready_queue
                                    set_ready_queue].
  rewrite Hq. cbn [app forEach]. eexists. split; [reflexivity|].
  cbn. repeat split.
  rewrite lookup_delete_ne, lookup_insert_ne by discriminate. reflexivity.
Qed.

(** When the text decodes, the start-up goes through, whatever the record. *)
Lemma onPlayerReady_returns options w d :
  decode (items (localStorage w) !! PLUGIN_CONFIG.key) = Some d ->
  exists w', onPlayerReady options w = Ret tt w'
             /\ player w' = startup_player options d (length (heap w)) (player w)
             /\ heap w' = heap w ++ [d]
             /\ items (localStorage w') = items (localStorage w)
             /\ writable (localStorage w') = writable (localStorage w).
Proof.
  intros Hd. rewrite (onPlayerReady_run options w d Hd). eexists.
  split; [reflexivity|]. repeat split; reflexivity.
Qed.

(** C2, as amended.  With the captions option enabled, for every
    text-track list and every persisted record: when the persisted
    captions value is truthy (a non-empty language), the start-up shows the
    first track flagged as default if there is one, whatever the persisted
    language; otherwise the first track whose language is the persisted
    value; otherwise it changes no track; exactly one track is written to,
    and only its mode.  When the persisted captions value is falsy (the
    empty string) or absent, the start-up changes no track, default or
    not. *)
Theorem captions_default_wins (options : Options) (w : World) (d : value) :
  o_captions options = true ->
  decode (items (localStorage w) !! PLUGIN_CONFIG.key) = Some d ->
  exists w',
    onPlayerReady options w = Ret tt w'
    /\ let tracks := textTracks (player w) in
       let tracks' := textTracks (player w') in
       (forall v,
          get_prop d "captions" = Some v -> truthy v = true ->
          (existsb tt_default tracks = true ->
           exists i t, tracks !! i = Some t /\ tt_default t = true
                       /\ (forall k t', k < i -> tracks !! k = Some t' ->
                                        tt_default t' = false)
                       /\ tracks' = <[i := set_mode "showing" t]> tracks)
          /\ (existsb tt_default tracks = false ->
              existsb (text_language_is v) tracks = true ->
              exists j t, tracks !! j = Some t /\ text_language_is v t = true
                          /\ (forall k t', k < j -> tracks !! k = Some t' ->
                                           text_language_is v t' = false)
                          /\ tracks' = <[j := set_mode "showing" t]> tracks)
          /\ (existsb tt_default tracks = false ->
              existsb (text_language_is v) tracks = false ->
              tracks' = tracks))
       /\ (truthy_opt (get_prop d "captions") = false -> tracks' = tracks).
Proof.
  intros Ho Hd.
  destruct (onPlayerReady_returns options w d Hd) as (w' & Hrun & Hp & _).
  exists w'. split; [exact Hrun|]. cbv zeta. rewrite Hp, startup_textTracks. split.
  - intros v Hg Ht.
    rewrite (persisted_truthy_Some options d "captions" v) by assumption.
    apply show_track_spec.
  - intros Hf. unfold persisted_truthy.
    destruct (option_enabled options "captions"); [|reflexivity].
    destruct (get_prop d "captions") as [v|]; [|reflexivity].
    simpl in Hf. rewrite Hf. reflexivity.
Qed.

Lemma captions_default_wins_witness :
  let tracks := [Examples.fr_text; Examples.en_default] in
  let w := Examples.a_world (Examples.a_player [] tracks [])
                            (Examples.stored [("captions", VStr "fr")]) in
  let w0 := Examples.a_world (Examples.a_player [] tracks [])
                             (Examples.stored_text "captions" "1e-400") in
  o_captions PLUGIN_CONFIG.defaultOptions = true
  /\ decode (items (localStorage w) !! PLUGIN_CONFIG.key)
     = Some (VObj [("captions", VStr "fr")])
  /\ decode (items (localStorage w0) !! PLUGIN_CONFIG.key)
     = Some (VObj [("captions", VNum Examples.n0)])
  /\ (exists w',
        onPlayerReady PLUGIN_CONFIG.defaultOptions w = Ret tt w'
        /\ textTracks (player w')
           = [Examples.fr_text; set_mode "showing" Examples.en_default])
  /\ (exists w',
        onPlayerReady PLUGIN_CONFIG.defaultOptions w0 = Ret tt w'
        /\ textTracks (player w') = tracks).
Proof.
  intros tracks w w0.
  assert (decode (items (localStorage w) !! PLUGIN_CONFIG.key)
          = Some (VObj [("captions", VStr "fr")])) as Hd by (vm_compute; reflexivity).
  assert (decode (items (localStorage w0) !! PLUGIN_CONFIG.key)
          = Some (VObj [("captions", VNum Examples.n0)])) as Hd0 by (vm_compute; reflexivity).
  split; [reflexivity|]. split; [exact Hd|]. split; [exact Hd0|]. split.
  - destruct (captions_default_wins PLUGIN_CONFIG.defaultOptions w _ eq_refl Hd)
      as (w' & Hrun & Htruthy & _).
    exists w'. split; [exact Hrun|].
    destruct (Htruthy (VStr "fr") eq_refl eq_refl) as (Hdefault & _).
    destruct (Hdefault eq_refl) as (i & t & Hi & Hdef & _ & ->).
    destruct i as [|[|i]]; simpl in Hi; try discriminate Hi.
    + injection Hi as <-. discriminate Hdef.
    + injection Hi as <-. reflexivity.
  - destruct (captions_default_wins PLUGIN_CONFIG.defaultOptions w0 _ eq_refl Hd0)
      as (w' & Hrun & _ & Hfalsy).
    exists w'. split; [exact Hrun|]. apply Hfalsy. reflexivity.
Defined.

(** C2 as stated fails when the persisted captions value is the empty
    string, the recorded choice of no captions: the track flagged as default
    is not set to showing, the start-up leaves every track as it was. *)
Lemma empty_captions_default_not_shown :
  let tracks := [Examples.en_default] in
  let w := Examples.a_world (Examples.a_player [] tracks [])
                            (Examples.stored [("captions", VStr EmptyString)]) in
  persisted w = Some (VObj [("captions", VStr EmptyString)])
  /\ existsb tt_default tracks = true
  /\ exists w',
       onPlayerReady PLUGIN_CONFIG.defaultOptions w = Ret tt w'
       /\ textTracks (player w') = tracks
       /\ ~ (exists t, In t (textTracks (player w')) /\ tt_mode t = "showing").
Proof.
  intros tracks w. split; [reflexivity|]. split; [reflexivity|].
  eexists. split.
  { apply (onPlayerReady_run _ w (VObj [("captions", VStr EmptyString)])). reflexivity. }
  split; [reflexivity|].
  intros (t & [<- | []] & Hmode). discriminate.
Qed.

(** C3, as amended.  With the audioTrack option enabled, a truthy
    persisted audioTrack value (any non-empty language) and exactly one
    track enabled: if some track's language is the persisted value, the
    first such track ends enabled and every other track disabled (so the
    track enabled before, when it is another one, is disabled and exactly one
    track is enabled afterwards), languages untouched; if no track's language
    matches, the list is left as it was. *)
Theorem audio_preference_wins (options : Options) (w : World) (d v : value) :
  o_audioTrack options = true ->
  decode (items (localStorage w) !! PLUGIN_CONFIG.key) = Some d ->
  get_prop d "audioTrack" = Some v ->
  truthy v = true ->
  length (List.filter at_enabled (audioTracks (player w))) = 1 ->
  exists w',
    onPlayerReady options w = Ret tt w'
    /\ let tracks := audioTracks (player w) in
       let tracks' := audioTracks (player w') in
       (existsb (audio_language_is v) tracks = true ->
        exists j t, tracks !! j = Some t /\ audio_language_is v t = true
                    /\ (forall k t', k < j -> tracks !! k = Some t' ->
                                     audio_language_is v t' = false)
                    /\ tracks' = <[j := set_enabled true t]> (map (set_enabled false) tracks)
                    /\ length (List.filter at_enabled tracks') = 1)
       /\ (existsb (audio_language_is v) tracks = false -> tracks' = tracks).
Proof.
  intros Ho Hd Hg Ht Hone.
  destruct (onPlayerReady_returns options w d Hd) as (w' & Hrun & Hp & _).
  exists w'. split; [exact Hrun|]. cbv zeta. rewrite Hp, startup_audioTracks.
  rewrite (persisted_truthy_Some options d "audioTrack" v) by assumption.
  destruct (swap_audioTrack_spec v (audioTracks (player w)) Hone) as [Hswap Hkeep].
  split; [|exact Hkeep].
  intros Hm. destruct (Hswap Hm) as (j & t & Hj & Hl & Hfirst & Heq).
  exists j, t. repeat split; auto. rewrite Heq. apply one_enabled_after, Hj.
Qed.

Lemma audio_preference_wins_witness :
  let tracks := [Examples.en_audio; Examples.fr_audio] in
  let w := Examples.a_world (Examples.a_player [] [] tracks)
                            (Examples.stored [("audioTrack", VStr "fr")]) in
  let d := VObj [("audioTrack", VStr "fr")] in
  o_audioTrack PLUGIN_CONFIG.defaultOptions = true
  /\ decode (items (localStorage w) !! PLUGIN_CONFIG.key) = Some d
  /\ get_prop d "audioTrack" = Some (VStr "fr")
  /\ truthy (VStr "fr") = true
  /\ length (List.filter at_enabled (audioTracks (player w))) = 1
  /\ exists w',
       onPlayerReady PLUGIN_CONFIG.defaultOptions w = Ret tt w'
       /\ audioTracks (player w') = [mkAudioTrack "en" false; mkAudioTrack "fr" true].
Proof.
  intros tracks w d. do 5 (split; [reflexivity|]).
  destruct (audio_preference_wins PLUGIN_CONFIG.defaultOptions w d (VStr "fr"))
    as (w' & Hrun & Hmatch & _); try reflexivity.
  exists w'. split; [exact Hrun|].
  destruct (Hmatch eq_refl) as (j & t & Hj & Hl & _ & -> & _).
  destruct j as [|[|j]]; simpl in Hj; try discriminate.
  - injection Hj as <-. discriminate.
  - injection Hj as <-. reflexivity.
Defined.

(** C3 as stated fails when the persisted audioTrack value is the empty
    string, which is what the listener records for a track without a
    language: a track has that very language, yet no flag changes. *)
Lemma empty_audio_language_not_restored :
  let tracks := [Examples.en_audio; Examples.unnamed_audio] in
  let w := Examples.a_world (Examples.a_player [] [] tracks)
                            (Examples.stored [("audioTrack", VStr EmptyString)]) in
  persisted w = Some (VObj [("audioTrack", VStr EmptyString)])
  /\ length (List.filter at_enabled tracks) = 1
  /\ existsb (audio_language_is (VStr EmptyString)) tracks = true
  /\ exists w',
       onPlayerReady PLUGIN_CONFIG.defaultOptions w = Ret tt w'
       /\ audioTracks (player w') = tracks
       /\ audioTracks (player w') !! 1 = Some (mkAudioTrack EmptyString false).
Proof.
  intros tracks w. do 3 (split; [reflexivity|]).
  eexists. split.
  { apply (onPlayerReady_run _ w (VObj [("audioTrack", VStr EmptyString)])). reflexivity. }
  split; reflexivity.
Qed.

(** C4, as amended.  With the option enabled, for every persisted record
    the start-up assigns a persisted muted or volume value to the player
    when the value is truthy (muted is true, the volume is not zero); a
    falsy one (muted is false, a volume of zero) is skipped like an absent
    one and the player keeps the state it had. *)
Theorem muted_volume_assigned_when_truthy (options : Options) (w : World) (d : value) :
  decode (items (localStorage w) !! PLUGIN_CONFIG.key) = Some d ->
  exists w',
    onPlayerReady options w = Ret tt w'
    /\ (forall v, o_muted options = true -> get_prop d "muted" = Some v ->
                  p_muted (player w') = if truthy v then v else p_muted (player w))
    /\ (forall v, o_volume options = true -> get_prop d "volume" = Some v ->
                  p_volume (player w') = if truthy v then v else p_volume (player w))
    /\ (o_muted options = true -> get_prop d "muted" = None ->
        p_muted (player w') = p_muted (player w))
    /\ (o_volume options = true -> get_prop d "volume" = None ->
        p_volume (player w') = p_volume (player w)).
Proof.
  intros Hd.
  destruct (onPlayerReady_returns options w d Hd) as (w' & Hrun & Hp & _).
  exists w'. split; [exact Hrun|]. rewrite Hp, startup_muted, startup_volume.
  repeat split; intros; unfold persisted_truthy, option_enabled;
    cbn [String.eqb Ascii.eqb Bool.eqb];
    repeat match goal with H : _ = _ |- _ => rewrite H end;
    try reflexivity; destruct (truthy v); reflexivity.
Qed.

Lemma muted_volume_assigned_when_truthy_witness :
  let p := set_muted (VBool false) (Examples.a_player [] [] []) in
  let w := Examples.a_world p
             (Examples.stored [("muted", VBool true); ("volume", VNum Examples.n042)]) in
  let d := VObj [("muted", VBool true); ("volume", VNum Examples.n042)] in
  let w0 := Examples.a_world p
              (Examples.stored_text "volume" "1e-400") in
  let d0 := VObj [("volume", VNum Examples.n0)] in
  decode (items (localStorage w) !! PLUGIN_CONFIG.key) = Some d
  /\ decode (items (localStorage w0) !! PLUGIN_CONFIG.key) = Some d0
  /\ (exists w',
        onPlayerReady PLUGIN_CONFIG.defaultOptions w = Ret tt w'
        /\ p_muted (player w') = VBool true
        /\ p_volume (player w') = VNum Examples.n042)
  /\ (exists w',
        onPlayerReady PLUGIN_CONFIG.defaultOptions w0 = Ret tt w'
        /\ p_muted (player w') = VBool false
        /\ p_volume (player w') = VNum Examples.n1).
Proof.
  intros p w d w0 d0.
  assert (decode (items (localStorage w) !! PLUGIN_CONFIG.key) = Some d)
    as Hd by (vm_compute; reflexivity).
  assert (decode (items (localStorage w0) !! PLUGIN_CONFIG.key) = Some d0)
    as Hd0 by (vm_compute; reflexivity).
  split; [exact Hd|]. split; [exact Hd0|]. split.
  - destruct (muted_volume_assigned_when_truthy PLUGIN_CONFIG.defaultOptions w d Hd)
      as (w' & Hrun & Hm & Hv & _).
    exists w'. split; [exact Hrun|]. split.
    + apply (Hm (VBool true)); reflexivity.
    + apply (Hv (VNum Examples.n042)); reflexivity.
  - destruct (muted_volume_assigned_when_truthy PLUGIN_CONFIG.defaultOptions w0 d0 Hd0)
      as (w' & Hrun & _ & Hv & Hm & _).
    exists w'. split; [exact Hrun|]. split.
    + apply Hm; reflexivity.
    + apply (Hv (VNum Examples.n0)); reflexivity.
Defined.

(** C4 as stated fails on a record that holds muted false and volume 0:
    both are present and both options are enabled, yet the player, muted at
    full volume, stays muted at full volume. *)
Lemma muted_false_volume_zero_skipped :
  let w := Examples.a_world (Examples.a_player [] [] [])
             (Examples.stored [("muted", VBool false); ("volume", VNum Examples.n0)]) in
  persisted w = Some (VObj [("muted", VBool false); ("volume", VNum Examples.n0)])
  /\ p_muted (player w) = VBool true
  /\ p_volume (player w) = VNum Examples.n1
  /\ exists w',
       onPlayerReady PLUGIN_CONFIG.defaultOptions w = Ret tt w'
       /\ p_muted (player w') = VBool true
       /\ p_muted (player w') <> VBool false
       /\ p_volume (player w') = VNum Examples.n1
       /\ p_volume (player w') <> VNum Examples.n0.
Proof.
  intros w. do 3 (split; [reflexivity|]).
  eexists. split.
  { apply (onPlayerReady_run _ w
             (VObj [("muted", VBool false); ("volume", VNum Examples.n0)])). reflexivity. }
  repeat split; try reflexivity; discriminate.
Qed.

(** C6, as amended.  With the playbackRate option enabled and a persisted
    playbackRate value: a value that is not among the player's supported
    rates is skipped and the player's rate stays as it was; a value that is
    among them is assigned when it is truthy, that is, when it is not
    zero; a value of zero is skipped like an absent one, whether or not it
    is among the supported rates. *)
Theorem rate_gating (options : Options) (w : World) (d v : value) :
  o_playbackRate options = true ->
  decode (items (localStorage w) !! PLUGIN_CONFIG.key) = Some d ->
  get_prop d "playbackRate" = Some v ->
  exists w',
    onPlayerReady options w = Ret tt w'
    /\ (includes (supported_rates (player w)) v = false ->
        p_playbackRate (player w') = p_playbackRate (player w))
    /\ (includes (supported_rates (player w)) v = true -> truthy v = true ->
        p_playbackRate (player w') = v)
    /\ (truthy v = false ->
        p_playbackRate (player w') = p_playbackRate (player w)).
Proof.
  intros Ho Hd Hg.
  destruct (onPlayerReady_returns options w d Hd) as (w' & Hrun & Hp & _).
  exists w'. split; [exact Hrun|]. rewrite Hp, startup_playbackRate.
  unfold persisted_truthy, option_enabled. cbn [String.eqb Ascii.eqb Bool.eqb].
  rewrite Ho, Hg. repeat split.
  - intros Hin. destruct (truthy v); [rewrite Hin|]; reflexivity.
  - intros Hin Ht. rewrite Ht, Hin. reflexivity.
  - intros Ht. rewrite Ht. reflexivity.
Qed.

Lemma rate_gating_witness :
  let p := Examples.a_player [Examples.n1; Examples.n2] [] [] in
  let w := Examples.a_world p
             (Examples.stored_text "playbackRate" "2.00000000000000000001") in
  let d := VObj [("playbackRate", VNum Examples.n2)] in
  let w3 := Examples.a_world p (Examples.stored_text "playbackRate" "3") in
  o_playbackRate PLUGIN_CONFIG.defaultOptions = true
  /\ decode (items (localStorage w) !! PLUGIN_CONFIG.key) = Some d
  /\ get_prop d "playbackRate" = Some (VNum Examples.n2)
  /\ (exists w',
        onPlayerReady PLUGIN_CONFIG.defaultOptions w = Ret tt w'
        /\ p_playbackRate (player w') = VNum Examples.n2)
  /\ (exists w',
        onPlayerReady PLUGIN_CONFIG.defaultOptions w3 = Ret tt w'
        /\ p_playbackRate (player w') = VNum Examples.n1).
Proof.
  intros p w d w3.
  assert (decode (items (localStorage w) !! PLUGIN_CONFIG.key) = Some d)
    as Hd by (vm_compute; reflexivity).
  assert (exists d3 v3,
            decode (items (localStorage w3) !! PLUGIN_CONFIG.key) = Some d3
            /\ get_prop d3 "playbackRate" = Some v3
            /\ includes (supported_rates (player w3)) v3 = false)
    as (d3 & v3 & Hd3 & Hg3 & Hout) by (vm_compute; eauto).
  split; [reflexivity|]. split; [exact Hd|]. split; [reflexivity|]. split.
  - destruct (rate_gating PLUGIN_CONFIG.defaultOptions w d (VNum Examples.n2)
                eq_refl Hd eq_refl) as (w' & Hrun & _ & Hin & _).
    exists w'. split; [exact Hrun|]. apply Hin; reflexivity.
  - destruct (rate_gating PLUGIN_CONFIG.defaultOptions w3 d3 v3 eq_refl Hd3 Hg3)
      as (w' & Hrun & Hskip & _).
    exists w'. split; [exact Hrun|]. apply Hskip, Hout.
Defined.

(** C6 as stated fails on a player that lists 0 among its rates, with a
    persisted rate of 0: the rate is a member of the supported set, yet it
    is not applied and the player keeps the rate it had. *)
Lemma zero_rate_is_member_not_applied :
  let p := Examples.a_player [Examples.n0; Examples.n1; Examples.n2] [] [] in
  let w := Examples.a_world p (Examples.stored [("playbackRate", VNum Examples.n0)]) in
  persisted w = Some (VObj [("playbackRate", VNum Examples.n0)])
  /\ includes (supported_rates (player w)) (VNum Examples.n0) = true
  /\ p_playbackRate (player w) = VNum Examples.n1
  /\ exists w',
       onPlayerReady PLUGIN_CONFIG.defaultOptions w = Ret tt w'
       /\ p_playbackRate (player w') = VNum Examples.n1
       /\ p_playbackRate (player w') <> VNum Examples.n0.
Proof.
  intros p w.
  assert (persisted w = Some (VObj [("playbackRate", VNum Examples.n0)]))
    as Hd by (vm_compute; reflexivity).
  split; [exact Hd|]. do 2 (split; [reflexivity|]).
  eexists. split; [apply (onPlayerReady_run _ w _ Hd)|].
  split; [reflexivity | discriminate].
Qed.

End StartupClaims.

(** ** The listeners *)

Section Listeners.
Local Open Scope string_scope.
Local Open Scope list_scope.

Lemma lookup_insert_hit {A} (l : list A) r x :
  l !! r = Some x -> forall y, <[r := y]> l !! r = Some y.
Proof. intros H y. apply list_lookup_insert_eq. eapply lookup_lt_Some, H. Qed.

Lemma assign_run r k v w props :
  heap w !! r = Some (VObj props) ->
  assign r k v w =
  Ret tt (mkWorld (player w) (localStorage w) (console w)
                  (<[r := VObj (obj_set k v props)]> (heap w))).
Proof. intros H. unfold assign. rewrite H. reflexivity. Qed.

Lemma deref_run r w d : heap w !! r = Some d -> deref r w = Ret d w.
Proof. intros H. unfold deref. rewrite H. reflexivity. Qed.

Lemma setItem_run k v w :
  writable (localStorage w) = true ->
  localStorage_setItem k v w =
  Ret tt (with_storage
            (mkStorage (<[k := v]> (items (localStorage w))) true
                       (calls (localStorage w) ++ [SetItem k v])) w).
Proof. intros H. unfold localStorage_setItem. rewrite H. reflexivity. Qed.

(** Assign one field, then write the whole record. *)
Lemma assign_and_write r k v w props :
  heap w !! r = Some (VObj props) ->
  writable (localStorage w) = true ->
  (assign r k v ;;
   let* d := deref r in
   localStorage_setItem PLUGIN_CONFIG.key (JSON_stringify d)) w
  = Ret tt (mkWorld (player w)
                    (written (VObj (obj_set k v props)) (localStorage w))
                    (console w)
                    (<[r := VObj (obj_set k v props)]> (heap w))).
Proof.
  intros Hh Hw. rewrite bind_run, (assign_run r k v w props Hh).
  rewrite bind_run. unfold deref. cbn [heap].
  rewrite (lookup_insert_hit _ _ _ Hh).
  rewrite setItem_run by exact Hw. reflexivity.
Qed.

Lemma run_OnVolumeChange (muted volume : bool) r w props :
  heap w !! r = Some (VObj props) ->
  writable (localStorage w) = true ->
  let props1 := if muted then obj_set "muted" (p_muted (player w)) props else props in
  let props2 := if volume then obj_set "volume" (p_volume (player w)) props1 else props1 in
  run_handler (OnVolumeChange muted volume r) w =
  Ret tt (mkWorld (if muted then set_defaultMuted (p_muted (player w)) (player w)
                   else player w)
                  (written (VObj props2) (localStorage w))
                  (console w)
                  (<[r := VObj props2]> (heap w))).
Proof.
  intros Hh Hw. cbv zeta. destruct w as [p st con hp]. cbn [player heap localStorage console] in *.
  unfold run_handler. destruct muted, volume;
    repeat (rewrite bind_run; unfold get_player, modify_player, assign, deref, ret;
            cbn [player heap localStorage console];
            rewrite ?Hh, ?(lookup_insert_hit _ _ _ Hh); cbn [set_prop]; cbv beta iota);
    cbn [p_volume p_muted set_defaultMuted];
    rewrite ?list_insert_insert_eq, ?(list_insert_id _ _ _ Hh);
    rewrite ?(lookup_insert_hit _ _ _ Hh); cbv beta iota;
    rewrite setItem_run by exact Hw; reflexivity.
Qed.

Lemma run_OnRateChange r w props :
  heap w !! r = Some (VObj props) ->
  writable (localStorage w) = true ->
  let props' := obj_set "playbackRate" (p_playbackRate (player w)) props in
  run_handler (OnRateChange r) w =
  Ret tt (mkWorld (set_defaultPlaybackRate (p_playbackRate (player w)) (player w))
                  (written (VObj props') (localStorage w))
                  (console w)
                  (<[r := VObj props']> (heap w))).
Proof.
  intros Hh Hw. cbv zeta. destruct w as [p st con hp]. cbn [player heap localStorage console] in *.
  unfold run_handler.
  repeat (rewrite bind_run; unfold get_player, modify_player, assign, deref;
          cbn [player heap localStorage console];
          rewrite ?Hh, ?(lookup_insert_hit _ _ _ Hh); cbn [set_prop]).
  cbn [p_playbackRate set_defaultPlaybackRate].
  rewrite setItem_run by exact Hw. reflexivity.
Qed.

Lemma run_OnTextTrackChange_undefined r w :
  has_textTracks_ (player w) = false ->
  run_handler (OnTextTrackChange r) w = Throw TypeError w.
Proof.
  intros H. unfold run_handler. rewrite bind_run. unfold player_textTracks_tracks_.
  rewrite H. reflexivity.
Qed.

Lemma run_OnTextTrackChange r w props :
  has_textTracks_ (player w) = true ->
  heap w !! r = Some (VObj props) ->
  writable (localStorage w) = true ->
  let language :=
    match List.find showing (textTracks (player w)) with
    | Some track => tt_language track
    | None => EmptyString
    end in
  let props' := obj_set "captions" (VStr language) props in
  run_handler (OnTextTrackChange r) w =
  Ret tt (mkWorld (player w)
                  (written (VObj props') (localStorage w))
                  (console w)
                  (<[r := VObj props']> (heap w))).
Proof.
  intros Hs Hh Hw. cbv zeta. unfold run_handler. rewrite bind_run.
  unfold player_textTracks_tracks_. rewrite Hs.
  fold showing. destruct (List.find showing (textTracks (player w)));
    apply assign_and_write; assumption.
Qed.

Lemma run_OnAudioTrackChange r w props :
  heap w !! r = Some (VObj props) ->
  writable (localStorage w) = true ->
  run_handler (OnAudioTrackChange r) w =
  match List.find at_enabled (audioTracks (player w)) with
  | Some track =>
      let props' := obj_set "audioTrack" (VStr (at_language track)) props in
      Ret tt (mkWorld (player w)
                      (written (VObj props') (localStorage w))
                      (console w)
                      (<[r := VObj props']> (heap w)))
  | None => Throw TypeError w
  end.
Proof.
  intros Hh Hw. unfold run_handler. rewrite bind_run. unfold get_player.
  destruct (List.find at_enabled (audioTracks (player w)));
    [apply assign_and_write; assumption | reflexivity].
Qed.

Lemma listeners_for_volumechange options r :
  listeners_for "volumechange" (subscriptions options r) =
  if o_muted options || o_volume options
  then [OnVolumeChange (o_muted options) (o_volume options) r] else [].
Proof. destruct options as [[] [] [] [] []]; reflexivity. Qed.

Lemma listeners_for_ratechange options r :
  listeners_for "ratechange" (subscriptions options r) =
  if o_playbackRate options then [OnRateChange r] else [].
Proof. destruct options as [[] [] [] [] []]; reflexivity. Qed.

Lemma listeners_for_texttrackchange options r :
  listeners_for "texttrackchange" (subscriptions options r) =
  if o_captions options then [OnTextTrackChange r] else [].
Proof. destruct options as [[] [] [] [] []]; reflexivity. Qed.

Lemma listeners_for_change options r :
  listeners_for "change" (audio_subscriptions options r) =
  if o_audioTrack options then [OnAudioTrackChange r] else [].
Proof. destruct options as [[] [] [] [] []]; reflexivity. Qed.

(** One listener called by the player, when it returns. *)
Lemma call_one h w w' :
  run_handler h w = Ret tt w' ->
  forEach [h] call_listener w = Ret tt w'.
Proof.
  intros H. cbn [forEach]. rewrite bind_run. unfold call_listener, try_catch.
  rewrite H. reflexivity.
Qed.

Lemma occur_VolumeChanged options r w props m v :
  listening options r w ->
  writable (localStorage w) = true ->
  heap w !! r = Some (VObj props) ->
  let p1 := set_volume v (set_muted m (player w)) in
  let props' := record_after options (player w) (VolumeChanged m v) props in
  occur (VolumeChanged m v) w =
  if o_muted options || o_volume options then
    Ret tt (mkWorld (if o_muted options then set_defaultMuted m p1 else p1)
                    (written (VObj props') (localStorage w))
                    (console w)
                    (<[r := VObj props']> (heap w)))
  else Ret tt (mkWorld p1 (localStorage w) (console w) (heap w)).
Proof.
  intros [Hl _] Hw Hh. cbv zeta. unfold occur. rewrite bind_run. unfold modify_player.
  unfold trigger. rewrite bind_run. unfold get_player. cbn [player listeners set_volume set_muted].
  rewrite Hl, listeners_for_volumechange.
  destruct (o_muted options || o_volume options); [|reflexivity].
  apply call_one.
  rewrite (run_OnVolumeChange _ _ r _ props) by assumption.
  cbn [player localStorage console heap p_muted p_volume set_volume set_muted record_after].
  reflexivity.
Qed.

Lemma occur_RateChanged options r w props v :
  listening options r w ->
  writable (localStorage w) = true ->
  heap w !! r = Some (VObj props) ->
  let p1 := set_playbackRate v (player w) in
  let props' := record_after options (player w) (RateChanged v) props in
  occur (RateChanged v) w =
  if o_playbackRate options then
    Ret tt (mkWorld (set_defaultPlaybackRate v p1)
                    (written (VObj props') (localStorage w))
                    (console w)
                    (<[r := VObj props']> (heap w)))
  else Ret tt (mkWorld p1 (localStorage w) (console w) (heap w)).
Proof.
  intros [Hl _] Hw Hh. cbv zeta. unfold occur. rewrite bind_run. unfold modify_player.
  unfold trigger. rewrite bind_run. unfold get_player. cbn [player listeners set_playbackRate].
  rewrite Hl, listeners_for_ratechange. cbn [record_after].
  destruct (o_playbackRate options); [|reflexivity].
  apply call_one.
  rewrite (run_OnRateChange r _ props) by assumption.
  reflexivity.
Qed.

Lemma occur_TextTracksChanged options r w props tracks :
  listening options r w ->
  writable (localStorage w) = true ->
  heap w !! r = Some (VObj props) ->
  let p1 := set_textTracks tracks (player w) in
  let props' := record_after options (player w) (TextTracksChanged tracks) props in
  occur (TextTracksChanged tracks) w =
  if o_captions options && has_textTracks_ (player w) then
    Ret tt (mkWorld p1
                    (written (VObj props') (localStorage w))
                    (console w)
                    (<[r := VObj props']> (heap w)))
  else Ret tt (mkWorld p1 (localStorage w) (console w) (heap w)).
Proof.
  intros [Hl _] Hw Hh. cbv zeta. unfold occur. rewrite bind_run. unfold modify_player.
  unfold trigger. rewrite bind_run. unfold get_player. cbn [player listeners set_textTracks].
  rewrite Hl, listeners_for_texttrackchange. cbn [record_after].
  destruct (o_captions options); [|reflexivity]. cbn [andb].
  destruct (has_textTracks_ (player w)) eqn:Hs.
  - apply call_one.
    rewrite (run_OnTextTrackChange r _ props) by assumption.
    cbn [player localStorage console heap textTracks set_textTracks].
    destruct (List.find showing tracks); reflexivity.
  - cbn [forEach]. rewrite bind_run. unfold call_listener, try_catch.
    rewrite run_OnTextTrackChange_undefined by exact Hs. reflexivity.
Qed.

Lemma occur_AudioTracksChanged options r w props tracks :
  listening options r w ->
  writable (localStorage w) = true ->
  heap w !! r = Some (VObj props) ->
  let p1 := set_audioTracks tracks (player w) in
  let props' := record_after options (player w) (AudioTracksChanged tracks) props in
  world_of (occur (AudioTracksChanged tracks) w) =
  if o_audioTrack options && existsb at_enabled tracks then
    mkWorld p1 (written (VObj props') (localStorage w)) (console w)
            (<[r := VObj props']> (heap w))
  else mkWorld p1 (localStorage w) (console w) (heap w).
Proof.
  intros [_ Hl] Hw Hh. cbv zeta. unfold occur. rewrite bind_run. unfold modify_player.
  unfold audioTracks_trigger. rewrite bind_run. unfold get_player.
  cbn [player audio_listeners set_audioTracks].
  rewrite Hl, listeners_for_change. cbn [record_after].
  destruct (o_audioTrack options); [|reflexivity]. cbn [andb].
  cbn [forEach]. rewrite bind_run. unfold call_listener, try_catch.
  rewrite (run_OnAudioTrackChange r _ props) by assumption.
  cbn [player localStorage console heap audioTracks set_audioTracks].
  destruct (List.find at_enabled tracks) as [t|] eqn:E.
  - assert (existsb at_enabled tracks = true) as ->.
    { apply find_some in E. apply existsb_exists. eauto. }
    reflexivity.
  - assert (existsb at_enabled tracks = false) as ->.
    { destruct (existsb at_enabled tracks) eqn:Ex; [|reflexivity].
      apply existsb_exists in Ex as (x & Hin & Hx).
      pose proof (find_none _ _ E x Hin). congruence. }
    reflexivity.
Qed.

End Listeners.

(** ** Sessions *)

Section Sessions.
Local Open Scope string_scope.
Local Open Scope list_scope.

(** The two ways a change ends: the listener wrote the record, or nothing
    wrote. *)
Lemma after_write options r w props props' p' :
  listening options r w ->
  heap w !! r = Some (VObj props) ->
  serializable (VObj props') = true ->
  listeners p' = listeners (player w) ->
  audio_listeners p' = audio_listeners (player w) ->
  let w' := mkWorld p' (written (VObj props') (localStorage w)) (console w)
                    (<[r := VObj props']> (heap w)) in
  listening options r w'
  /\ writable (localStorage w') = true
  /\ heap w' !! r = Some (VObj props')
  /\ items (localStorage w') !! PLUGIN_CONFIG.key = Some (JSON_stringify (VObj props'))
  /\ persisted w' = Some (through_JSON (VObj props')).
Proof.
  intros [Hl1 Hl2] Hh Hser Hp1 Hp2. cbv zeta. unfold listening. cbn [player].
  rewrite Hp1, Hp2. split; [split; assumption|]. split; [reflexivity|].
  split; [apply (lookup_insert_hit _ _ _ Hh)|].
  split; [apply lookup_insert_eq|].
  apply persisted_written; [exact Hser | reflexivity].
Qed.

Lemma after_skip options r w p' :
  listening options r w ->
  listeners p' = listeners (player w) ->
  audio_listeners p' = audio_listeners (player w) ->
  let w' := mkWorld p' (localStorage w) (console w) (heap w) in
  listening options r w' /\ localStorage w' = localStorage w /\ heap w' = heap w.
Proof.
  intros [Hl1 Hl2] Hp1 Hp2. cbv zeta. unfold listening. cbn [player].
  rewrite Hp1, Hp2. repeat split; assumption.
Qed.

Lemma existsb_find {A} (f : A -> bool) l :
  existsb f l = match List.find f l with Some _ => true | None => false end.
Proof. induction l as [|x l IH]; simpl; [reflexivity|]. destruct (f x); auto. Qed.

(** The world after one change in a world where the plugin listens, the
    store takes writes and the listeners' record is an object. *)
Lemma occur_world options r w c props :
  listening options r w ->
  writable (localStorage w) = true ->
  heap w !! r = Some (VObj props) ->
  let props' := record_after options (player w) c props in
  exists p',
    listeners p' = listeners (player w)
    /\ audio_listeners p' = audio_listeners (player w)
    /\ has_textTracks_ p' = has_textTracks_ (player w)
    /\ world_of (occur c w) =
       match assigned options (player w) c with
       | [] => mkWorld p' (localStorage w) (console w) (heap w)
       | _ => mkWorld p' (written (VObj props') (localStorage w)) (console w)
                      (<[r := VObj props']> (heap w))
       end.
Proof.
  intros Hl Hw Hh. cbv zeta. destruct c as [m v | v | tracks | tracks].
  - rewrite (occur_VolumeChanged options r w props m v Hl Hw Hh). cbn [assigned].
    destruct (o_muted options), (o_volume options); cbn [orb world_of app];
      eexists; (split; [|split; [|split; [|reflexivity]]]); reflexivity.
  - rewrite (occur_RateChanged options r w props v Hl Hw Hh). cbn [assigned].
    destruct (o_playbackRate options); cbn [world_of];
      eexists; (split; [|split; [|split; [|reflexivity]]]); reflexivity.
  - rewrite (occur_TextTracksChanged options r w props tracks Hl Hw Hh). cbn [assigned].
    destruct (o_captions options && has_textTracks_ (player w)); cbn [world_of];
      eexists; (split; [|split; [|split; [|reflexivity]]]); reflexivity.
  - rewrite (occur_AudioTracksChanged options r w props tracks Hl Hw Hh). cbn [assigned].
    destruct (o_audioTrack options && existsb at_enabled tracks);
      eexists; (split; [|split; [|split; [|reflexivity]]]); reflexivity.
Qed.

(** One change in a session: the listeners stay, the store still takes
    writes, the record is the record with the change's fields assigned, and
    when the listener assigns a field the store holds the text of the whole
    record, which reads as the record does once through JSON; when it
    assigns none the store is as it was. *)
Lemma session_change options r w c props :
  listening options r w ->
  writable (localStorage w) = true ->
  heap w !! r = Some (VObj props) ->
  serializable (VObj props) = true ->
  wf_change c = true ->
  let w' := world_of (occur c w) in
  let props' := record_after options (player w) c props in
  listening options r w'
  /\ writable (localStorage w') = true
  /\ heap w' !! r = Some (VObj props')
  /\ serializable (VObj props') = true
  /\ has_textTracks_ (player w') = has_textTracks_ (player w)
  /\ (assigned options (player w) c <> [] ->
      items (localStorage w') !! PLUGIN_CONFIG.key = Some (JSON_stringify (VObj props'))
      /\ persisted w' = Some (through_JSON (VObj props')))
  /\ (assigned options (player w) c = [] ->
      localStorage w' = localStorage w /\ props' = props).
Proof.
  intros Hl Hw Hh Hser Hc. cbv zeta.
  pose proof (serializable_record_after options (player w) c props Hc Hser) as Hser'.
  pose proof (record_after_unassigned options (player w) c props) as Hsame.
  destruct (occur_world options r w c props Hl Hw Hh) as (p' & Hp1 & Hp2 & Hp3 & ->).
  destruct (assigned options (player w) c) as [|k ks].
  - destruct (after_skip options r w p' Hl Hp1 Hp2) as (Hl' & Hst & Hheap).
    rewrite Hsame by reflexivity.
    split; [exact Hl'|]. split; [exact Hw|]. split; [exact Hh|].
    split; [exact Hser|]. split; [exact Hp3|]. split; [congruence|]. auto.
  - destruct (after_write options r w props _ p' Hl Hh Hser' Hp1 Hp2)
      as (Hl' & Hw' & Hh' & Hi & Hp).
    split; [exact Hl'|]. split; [exact Hw'|]. split; [exact Hh'|].
    split; [exact Hser'|]. split; [exact Hp3|]. split; [auto | discriminate].
Qed.

(** A session stays a session under the changes the player can report. *)
Lemma session_step options r w c :
  session options r w -> wf_change c = true ->
  session options r (world_of (occur c w)).
Proof.
  intros (Hl & Hw & props & Hh & Hser & Hp) Hc.
  destruct (session_change options r w c props Hl Hw Hh Hser Hc)
    as (Hl' & Hw' & Hh' & Hser' & _ & Hwrote & Hnot).
  split; [exact Hl'|]. split; [exact Hw'|].
  exists (record_after options (player w) c props).
  split; [exact Hh'|]. split; [exact Hser'|].
  destruct (assigned options (player w) c) as [|k ks] eqn:E.
  - destruct (Hnot eq_refl) as [Hst Hpr]. rewrite Hpr. unfold persisted in *.
    rewrite Hst. exact Hp.
  - destruct Hwrote as [_ ->]; [discriminate|]. cbn [fmap option_fmap option_map].
    rewrite through_JSON_idem. reflexivity.
Qed.

Lemma session_run options r cs : forall w,
  session options r w -> forallb wf_change cs = true ->
  session options r (run cs w).
Proof.
  induction cs as [|c cs IH]; intros w Hs Hcs; [exact Hs|].
  cbn [forallb] in Hcs. apply andb_true_iff in Hcs as [Hc Hcs].
  unfold run. cbn [fold_left]. apply IH; [|exact Hcs]. apply session_step; assumption.
Qed.

End Sessions.

(** ** Sessions: properties *)

Ltac by_computation := vm_compute; reflexivity.

(** A session on a world that is given, with the record it has. *)
Ltac session_by_computation props :=
  split; [split; by_computation|];
  split; [by_computation|];
  exists props; repeat split; by_computation.

Section SessionClaims.
Local Open Scope string_scope.
Local Open Scope list_scope.

Lemma decode_keys raw d : decode raw = Some d -> keys_ok d = true.
Proof.
  unfold decode. destruct (JSON_parse _) as [v|] eqn:E; [|discriminate].
  intros [= <-]. destruct (truthy v); [exact (JSON_parse_keys _ _ E) | reflexivity].
Qed.

(** The start-up makes a session: on a player without listeners and a
    store that takes writes and holds the text of an object (or nothing). *)
Lemma onPlayerReady_session options w props :
  listeners (player w) = [] -> audio_listeners (player w) = [] ->
  writable (localStorage w) = true ->
  decode (items (localStorage w) !! PLUGIN_CONFIG.key) = Some (VObj props) ->
  numbers_read_back (VObj props) = true ->
  exists w',
    onPlayerReady options w = Ret tt w' /\ session options (length (heap w)) w'
    /\ player w' = startup_player options (VObj props) (length (heap w)) (player w)
    /\ persisted w' = Some (VObj props).
Proof.
  intros Hl Ha Hw Hd Hn. rewrite (onPlayerReady_run options w _ Hd).
  eexists. split; [reflexivity|]. split; [|split; [reflexivity | exact Hd]].
  split; [|split; [exact Hw|]].
  - split; cbn [player].
    + rewrite startup_listeners, Hl. reflexivity.
    + rewrite startup_audio_listeners, Ha. reflexivity.
  - exists props. cbn [heap]. split; [apply list_lookup_middle; reflexivity|].
    split; [apply keys_numbers_serializable; [exact (decode_keys _ _ Hd) | exact Hn]|].
    unfold persisted. cbn [localStorage items read_storage]. rewrite Hd. reflexivity.
Qed.

(** A world the start-up gives on an empty store is a session. *)
Lemma started_session (options : Options) (p : Player) :
  listeners p = [] -> audio_listeners p = [] ->
  session options 0 (Examples.started options p None).
Proof.
  intros Hl Ha. unfold Examples.started.
  rewrite (onPlayerReady_run options _ (VObj [])) by reflexivity.
  cbn [world_of]. split; [|split; [reflexivity|]].
  - split; cbn [player Examples.a_world heap length].
    + rewrite startup_listeners, Hl. reflexivity.
    + rewrite startup_audio_listeners, Ha. reflexivity.
  - exists []. repeat split; reflexivity.
Qed.

Lemma kept_through d props k :
  through_JSON d = through_JSON (VObj props) ->
  through_JSON <$> get_prop d k = through_JSON <$> obj_get k props.
Proof.
  intros H. rewrite <- get_prop_through, H. apply obj_get_through.
Qed.

(** In a session, what is read back after a change, field by field: a
    field the listener assigned has the value assigned, every other field
    is kept. *)
Lemma session_read_back options r w c :
  session options r w -> wf_change c = true ->
  let w' := world_of (occur c w) in
  exists d d' props,
    persisted w = Some d /\ persisted w' = Some d'
    /\ heap w !! r = Some (VObj props)
    /\ (forall k, ~ In k (assigned options (player w) c) ->
                  kept (get_prop d k) (get_prop d' k))
    /\ (forall k, In k (assigned options (player w) c) ->
                  get_prop d' k
                  = through_JSON <$> obj_get k (record_after options (player w) c props))
    /\ (assigned options (player w) c <> [] ->
        forall k, ~ In k (assigned options (player w) c) ->
                  get_prop d' k = through_JSON <$> get_prop d k)
    /\ (assigned options (player w) c = [] -> localStorage w' = localStorage w).
Proof.
  intros (Hl & Hw & props & Hh & Hser & Hp) Hc. cbv zeta.
  destruct (persisted w) as [d|] eqn:Ed; [|discriminate].
  injection Hp as Hp.
  destruct (session_change options r w c props Hl Hw Hh Hser Hc)
    as (_ & _ & _ & _ & _ & Hwrote & Hnot). cbv zeta in Hwrote, Hnot.
  destruct (assigned options (player w) c) as [|k0 ks] eqn:E.
  - destruct (Hnot eq_refl) as [Hst _]. exists d, d, props.
    split; [reflexivity|]. split; [unfold persisted in *; rewrite Hst; exact Ed|].
    split; [exact Hh|]. split; [intros k _; left; reflexivity|].
    split; [intros k []|]. split; [congruence | auto].
  - destruct Hwrote as [_ Hp']; [discriminate|].
    assert (forall k, ~ In k (k0 :: ks) ->
                      get_prop (through_JSON (VObj (record_after options (player w) c props))) k
                      = through_JSON <$> get_prop d k) as Hother.
    { intros k Hk. rewrite get_prop_through. cbn [get_prop].
      rewrite (kept_through d props k Hp).
      f_equal. apply record_after_other. rewrite E. exact Hk. }
    eexists d, _, props. split; [reflexivity|]. split; [exact Hp'|].
    split; [exact Hh|]. split; [intros k Hk; right; apply Hother, Hk|].
    split; [intros k _; apply get_prop_through|].
    split; [intros _; exact Hother | discriminate].
Qed.

(** C7, as amended.  In a session, when the player reports a volume
    change: with the volume option enabled, what is then read back from the
    store has the new volume under [volume] (0.42 when the volume went to
    0.42); with the muted option enabled, it has the player's muted state
    under [muted], whether the volume option is enabled or not, since the
    two options share one listener; with the volume option disabled, the
    [volume] field is kept (read back as it was, or as JSON carries what it
    was), and if the muted option is disabled as well nothing is written at
    all. *)
Theorem volume_write_on_change (options : Options) (r : nat) (w : World) (m v : value) :
  session options r w ->
  wf_value m = true -> wf_value v = true ->
  let w' := world_of (occur (VolumeChanged m v) w) in
  (o_volume options = true ->
   exists d, persisted w' = Some d /\ get_prop d "volume" = Some v)
  /\ (o_muted options = true ->
      exists d, persisted w' = Some d /\ get_prop d "muted" = Some m)
  /\ (o_volume options = false ->
      exists d d', persisted w = Some d /\ persisted w' = Some d'
                   /\ kept (get_prop d "volume") (get_prop d' "volume"))
  /\ (o_volume options = false -> o_muted options = false ->
      localStorage w' = localStorage w).
Proof.
  intros Hs Hm Hv. cbv zeta.
  assert (wf_change (VolumeChanged m v) = true) as Hc by (cbn; rewrite Hm, Hv; reflexivity).
  destruct (session_read_back options r w _ Hs Hc)
    as (d & d' & props & Hd & Hd' & _ & Hkept & Hset & _ & Hquiet).
  cbv zeta in *. cbn [assigned record_after] in *.
  split; [|split; [|split]].
  - intros Ho. exists d'. split; [exact Hd'|]. rewrite Ho in *.
    rewrite Hset by (apply in_or_app; right; left; reflexivity).
    rewrite obj_get_set_eq. cbn. rewrite wf_through_JSON by exact Hv. reflexivity.
  - intros Ho. exists d'. split; [exact Hd'|]. rewrite Ho in *.
    rewrite Hset by (left; reflexivity).
    destruct (o_volume options);
      rewrite ?obj_get_set_ne by discriminate; rewrite obj_get_set_eq;
      cbn; rewrite wf_through_JSON by exact Hm; reflexivity.
  - intros Ho. exists d, d'. split; [exact Hd|]. split; [exact Hd'|].
    apply Hkept. rewrite Ho.
    destruct (o_muted options); cbn; [intros [E | []]; discriminate | tauto].
  - intros Ho Hom. apply Hquiet. rewrite Ho, Hom. reflexivity.
Qed.

Lemma volume_write_on_change_witness :
  let p := Examples.a_player [] [] [] in
  let w := Examples.started PLUGIN_CONFIG.defaultOptions p None in
  let c := VolumeChanged (VBool false) (VNum Examples.n042) in
  let w0 := Examples.started Examples.no_volume p (Examples.stored_text "volume" "1e400") in
  session PLUGIN_CONFIG.defaultOptions 0 w
  /\ session Examples.no_volume 0 w0
  /\ wf_value (VBool false) = true
  /\ wf_value (VNum Examples.n042) = true
  /\ (exists d, persisted (world_of (occur c w)) = Some d
                /\ get_prop d "volume" = Some (VNum Examples.n042))
  /\ (exists d, persisted (world_of (occur c w)) = Some d
                /\ get_prop d "muted" = Some (VBool false))
  /\ (exists d d', persisted w0 = Some d /\ persisted (world_of (occur c w0)) = Some d'
                   /\ get_prop d "volume" = Some (VNum (S754_infinity false))
                   /\ get_prop d' "muted" = Some (VBool false)
                   /\ kept (get_prop d "volume") (get_prop d' "volume")).
Proof.
  intros p w c w0.
  assert (session PLUGIN_CONFIG.defaultOptions 0 w) as Hs
    by (session_by_computation (@nil (string * value))).
  assert (session Examples.no_volume 0 w0) as Hs0
    by (session_by_computation [("volume", VNum (S754_infinity false))]).
  assert (wf_value (VNum Examples.n042) = true) as Hv by by_computation.
  split; [exact Hs|]. split; [exact Hs0|]. split; [reflexivity|]. split; [exact Hv|].
  destruct (volume_write_on_change PLUGIN_CONFIG.defaultOptions 0 w
              (VBool false) (VNum Examples.n042) Hs eq_refl Hv) as (Hon & Hmuted & _).
  split; [apply Hon; reflexivity|]. split; [apply Hmuted; reflexivity|].
  destruct (volume_write_on_change Examples.no_volume 0 w0
              (VBool false) (VNum Examples.n042) Hs0 eq_refl Hv) as (_ & Hmuted0 & Hoff & _).
  destruct (Hoff eq_refl) as (d & d' & Hd & Hd' & Hk).
  destruct (Hmuted0 eq_refl) as (d2 & Hd2 & Hm2).
  exists d, d'. split; [exact Hd|]. split; [exact Hd'|].
  split; [|split; [|exact Hk]].
  - assert (persisted w0 = Some (VObj [("volume", VNum (S754_infinity false))])) as E
      by by_computation.
    rewrite E in Hd. injection Hd as <-. reflexivity.
  - rewrite Hd' in Hd2. injection Hd2 as <-. exact Hm2.
Defined.

(** C7 as stated fails with the volume option disabled and the others at
    their default: the volume change still runs the listener, which writes
    the player's muted state, so the persisted record changes, from the
    empty record to a record with [muted]. *)
Lemma volume_disabled_record_changes :
  let w := Examples.started Examples.no_volume (Examples.a_player [] [] []) None in
  let w' := world_of (occur (VolumeChanged (VBool false) (VNum Examples.n042)) w) in
  o_volume Examples.no_volume = false
  /\ persisted w = Some (VObj [])
  /\ persisted w' = Some (VObj [("muted", VBool false)])
  /\ persisted w' <> persisted w.
Proof.
  intros w w'.
  assert (persisted w = Some (VObj [])) as E by by_computation.
  assert (persisted w' = Some (VObj [("muted", VBool false)])) as E' by by_computation.
  split; [reflexivity|]. split; [exact E|]. split; [exact E'|].
  rewrite E, E'. discriminate.
Qed.

(** C8, as amended.  In a session, after any sequence of changes, a change
    whose listener writes leaves in the store the text of the entire
    in-memory record: the record in memory has every field the listener did
    not assign at the value it had, and what is read back from the store is
    the whole record as JSON carries it, so that every field the listener
    did not assign is read back as what it was before the change, as JSON
    carries that (as it was, but an infinity as [null] and the negative
    zero as [0]); in particular a field whose value goes through JSON
    unchanged, as the values the listeners write do, is read back
    unchanged. *)
Theorem writes_serialize_entire_record
    (options : Options) (r : nat) (w : World) (cs : list change) (c : change) :
  session options r w ->
  forallb wf_change cs = true ->
  wf_change c = true ->
  let w1 := run cs w in
  let w2 := world_of (occur c w1) in
  assigned options (player w1) c <> [] ->
  exists p1 d1 d2,
    persisted w1 = Some p1
    /\ heap w1 !! r = Some d1 /\ through_JSON p1 = through_JSON d1
    /\ heap w2 !! r = Some d2
    /\ items (localStorage w2) !! PLUGIN_CONFIG.key = Some (JSON_stringify d2)
    /\ persisted w2 = Some (through_JSON d2)
    /\ forall k, ~ In k (assigned options (player w1) c) ->
                 get_prop d2 k = get_prop d1 k
                 /\ get_prop (through_JSON d2) k = through_JSON <$> get_prop p1 k
                 /\ (forall x, get_prop p1 k = Some x -> wf_value x = true ->
                                get_prop (through_JSON d2) k = Some x).
Proof.
  intros Hs Hcs Hc. cbv zeta. intros Hwrites.
  destruct (session_run options r cs w Hs Hcs) as (Hl & Hw & props & Hh & Hser & Hp).
  destruct (persisted (run cs w)) as [p1|] eqn:Ep; [|discriminate].
  injection Hp as Hp.
  destruct (session_change options r _ c props Hl Hw Hh Hser Hc)
    as (_ & _ & Hh' & _ & _ & Hwritten & _).
  cbv zeta in *. destruct (Hwritten Hwrites) as [Hi Hp'].
  exists p1, (VObj props), (VObj (record_after options (player (run cs w)) c props)).
  split; [reflexivity|]. split; [exact Hh|]. split; [exact Hp|].
  split; [exact Hh'|]. split; [exact Hi|]. split; [exact Hp'|].
  intros k Hk.
  assert (get_prop (through_JSON (VObj (record_after options (player (run cs w)) c props))) k
          = through_JSON <$> get_prop p1 k) as Hread.
  { rewrite get_prop_through. cbn [get_prop]. rewrite (kept_through p1 props k Hp).
    f_equal. apply record_after_other, Hk. }
  split; [cbn [get_prop]; apply record_after_other, Hk|].
  split; [exact Hread|].
  intros x Hx Hwf. rewrite Hread, Hx. cbn. rewrite wf_through_JSON by exact Hwf.
  reflexivity.
Qed.

Lemma writes_serialize_entire_record_witness :
  let p := Examples.a_player [] [] [] in
  let w := Examples.started PLUGIN_CONFIG.defaultOptions p None in
  let cs := [VolumeChanged (VBool false) (VNum Examples.n042);
             TextTracksChanged [mkTextTrack "fr" false "showing"]] in
  let c := RateChanged (VNum Examples.n2) in
  session PLUGIN_CONFIG.defaultOptions 0 w
  /\ forallb wf_change cs = true
  /\ wf_change c = true
  /\ assigned PLUGIN_CONFIG.defaultOptions (player (run cs w)) c <> []
  /\ exists d2,
       persisted (world_of (occur c (run cs w))) = Some d2
       /\ d2 = VObj [("muted", VBool false); ("volume", VNum Examples.n042);
                     ("captions", VStr "fr"); ("playbackRate", VNum Examples.n2)].
Proof.
  intros p w cs c.
  assert (session PLUGIN_CONFIG.defaultOptions 0 w) as Hs
    by (session_by_computation (@nil (string * value))).
  assert (forallb wf_change cs = true) as Hcs by by_computation.
  assert (wf_change c = true) as Hc by by_computation.
  assert (assigned PLUGIN_CONFIG.defaultOptions (player (run cs w)) c <> []) as Ha
    by discriminate.
  split; [exact Hs|]. split; [exact Hcs|]. split; [exact Hc|]. split; [exact Ha|].
  destruct (writes_serialize_entire_record PLUGIN_CONFIG.defaultOptions 0 w cs c
              Hs Hcs Hc Ha) as (p1 & d1 & d2 & _ & _ & _ & Hh2 & _ & Hp2 & _).
  exists (through_JSON d2). split; [exact Hp2|].
  assert (heap (world_of (occur c (run cs w))) !! 0
          = Some (VObj [("muted", VBool false); ("volume", VNum Examples.n042);
                        ("captions", VStr "fr"); ("playbackRate", VNum Examples.n2)]))
    as E by by_computation.
  rewrite E in Hh2. injection Hh2 as <-. by_computation.
Defined.

(** C8 as stated fails on a record read from the text [{"volume":1e400}]:
    the start-up reads an infinity, the rate listener then writes the whole
    record, and the volume, which the listener did not assign, is stored as
    [null]: its value is not preserved. *)
Lemma infinite_sibling_is_written_as_null :
  let p := Examples.a_player [Examples.n1; Examples.n2] [] [] in
  let w := Examples.started PLUGIN_CONFIG.defaultOptions p
                            (Examples.stored_text "volume" "1e400") in
  let c := RateChanged (VNum Examples.n2) in
  let w' := world_of (occur c w) in
  session PLUGIN_CONFIG.defaultOptions 0 w
  /\ wf_change c = true
  /\ assigned PLUGIN_CONFIG.defaultOptions (player w) c = ["playbackRate"]
  /\ persisted w = Some (VObj [("volume", VNum (S754_infinity false))])
  /\ persisted w' = Some (VObj [("volume", VNull); ("playbackRate", VNum Examples.n2)])
  /\ exists d d',
       persisted w = Some d /\ persisted w' = Some d'
       /\ get_prop d "volume" = Some (VNum (S754_infinity false))
       /\ get_prop d' "volume" = Some VNull
       /\ get_prop d' "volume" <> get_prop d "volume".
Proof.
  intros p w c w'.
  assert (persisted w = Some (VObj [("volume", VNum (S754_infinity false))])) as E
    by by_computation.
  assert (persisted w' = Some (VObj [("volume", VNull); ("playbackRate", VNum Examples.n2)]))
    as E' by by_computation.
  split; [session_by_computation [("volume", VNum (S754_infinity false))]|].
  split; [by_computation|]. split; [reflexivity|]. split; [exact E|]. split; [exact E'|].
  do 2 eexists. split; [exact E|]. split; [exact E'|].
  split; [reflexivity|]. split; [reflexivity | discriminate].
Qed.




(** The volume listener with the muted option: whatever becomes of the
    record and of the write, the player's muted state has gone into its
    defaultMuted slot. *)
Lemma run_OnVolumeChange_defaultMuted volume r w :
  let w' := world_of (run_handler (OnVolumeChange true volume r) w) in
  p_defaultMuted (player w') = p_muted (player w)
  /\ p_muted (player w') = p_muted (player w).
Proof.
  cbv zeta. destruct w as [p st con hp]. unfold run_handler.
  rewrite bind_run, bind_run. unfold get_player. cbv beta iota.
  rewrite bind_run. unfold modify_player. cbn [player localStorage console heap].
  unfold assign. cbn [heap player localStorage console].
  destruct (hp !! r) as [d|]; [|split; reflexivity].
  destruct (set_prop d "muted" (p_muted p)) as [d'|]; [|split; reflexivity].
  cbv beta iota. rewrite bind_run.
  destruct volume.
  - rewrite bind_run. unfold get_player. cbv beta iota.
    cbn [player localStorage console heap].
    destruct (_ !! r) as [d2|]; [|split; reflexivity].
    destruct (set_prop d2 "volume" _) as [d3|]; [|split; reflexivity].
    cbv beta iota. rewrite bind_run. unfold deref. cbn [heap].
    destruct (_ !! r); [|split; reflexivity].
    unfold localStorage_setItem. cbn [localStorage]. destruct (writable st); split; reflexivity.
  - unfold ret. cbv beta iota. rewrite bind_run. unfold deref. cbn [heap].
    destruct (_ !! r); [|split; reflexivity].
    unfold localStorage_setItem. cbn [localStorage]. destruct (writable st); split; reflexivity.
Qed.

(** C10.  With the muted option enabled, on every volume-change event the
    listener puts the player's current muted state into the player's
    defaultMuted slot, besides persisting the record. *)
Theorem volume_change_sets_defaultMuted
    (options : Options) (r : nat) (w : World) (m v : value) :
  listening options r w ->
  o_muted options = true ->
  let w' := world_of (occur (VolumeChanged m v) w) in
  p_muted (player w') = m /\ p_defaultMuted (player w') = m.
Proof.
  intros [Hl _] Ho. cbv zeta. unfold occur. rewrite bind_run. unfold modify_player.
  unfold trigger. rewrite bind_run. unfold get_player.
  cbn [player listeners set_volume set_muted].
  rewrite Hl, listeners_for_volumechange, Ho. cbn [orb forEach].
  rewrite bind_run. unfold call_listener, try_catch.
  match goal with
  | |- context [run_handler ?h ?w0] =>
      pose proof (run_OnVolumeChange_defaultMuted (o_volume options) r w0) as [Hd Hm];
      destruct (run_handler h w0) as [[] w1 | e w1]
  end; cbn [world_of player p_muted set_volume set_muted] in *; auto.
Qed.

Lemma volume_change_sets_defaultMuted_witness :
  let p := Examples.a_player [] [] [] in
  let w := Examples.started PLUGIN_CONFIG.defaultOptions p None in
  listening PLUGIN_CONFIG.defaultOptions 0 w
  /\ o_muted PLUGIN_CONFIG.defaultOptions = true
  /\ p_defaultMuted (player w) = VBool true
  /\ p_defaultMuted
       (player (world_of (occur (VolumeChanged (VBool false) (VNum Examples.n042)) w)))
     = VBool false.
Proof.
  intros p w.
  assert (listening PLUGIN_CONFIG.defaultOptions 0 w) as Hl
    by (split; reflexivity).
  split; [exact Hl|]. split; [reflexivity|]. split; [reflexivity|].
  apply (volume_change_sets_defaultMuted PLUGIN_CONFIG.defaultOptions 0 w
           (VBool false) (VNum Examples.n042) Hl eq_refl).
Defined.

(** From one page load to the next: the plugin is activated on an
    empty store, the player becomes ready, the user turns the volume to 0.42
    and unmutes; on the next load the store holds the record, and the
    start-up gives a player that starts at full volume its volume back.
    The muted state it does not give back: the player starts muted and
    stays so. *)
Lemma persist_then_restore :
  let p := Examples.a_player [] [] [] in
  let w1 := world_of ((persistControls Examples.no_options ;; run_ready)
                        (Examples.a_world p None)) in
  let w2 := world_of (occur (VolumeChanged (VBool false) (VNum Examples.n042)) w1) in
  let reloaded := mkWorld p (mkStorage (items (localStorage w2)) true []) [] [] in
  let w3 := world_of ((persistControls Examples.no_options ;; run_ready) reloaded) in
  items (localStorage w2) !! PLUGIN_CONFIG.key
  = Examples.stored [("muted", VBool false); ("volume", VNum Examples.n042)]
  /\ p_volume (player w3) = VNum Examples.n042
  /\ p_muted (player w3) = VBool true.
Proof. repeat split; vm_compute; reflexivity. Qed.

End SessionClaims.

(** ** What a computation leaves alone *)

Section Effects.
Local Open Scope string_scope.
Local Open Scope list_scope.

Variable R : World -> World -> Prop.
Hypothesis R_refl : forall w, R w w.
Hypothesis R_trans : forall w1 w2 w3, R w1 w2 -> R w2 w3 -> R w1 w3.
(** [R] looks at the store's content only. *)
Hypothesis R_items : forall w w',
  writable (localStorage w') = writable (localStorage w) ->
  items (localStorage w') = items (localStorage w) -> R w w'.

Lemma keeps_ret {A} (a : A) : keeps R (ret a).
Proof. intros w. apply R_refl. Qed.

Lemma keeps_throw {A} (e : exn) : keeps R (@throw A e).
Proof. intros w. apply R_refl. Qed.

Lemma keeps_bind {A B} (m : M A) (k : A -> M B) :
  keeps R m -> (forall a, keeps R (k a)) -> keeps R (bind m k).
Proof.
  intros Hm Hk w. unfold bind. specialize (Hm w).
  destruct (m w) as [a w1 | e w1]; cbn [world_of] in *; [|exact Hm].
  eapply R_trans; [exact Hm | apply Hk].
Qed.

Lemma keeps_try_catch {A} (body : M A) (handler : exn -> M A) :
  keeps R body -> (forall e, keeps R (handler e)) -> keeps R (try_catch body handler).
Proof.
  intros Hb Hh w. unfold try_catch. specialize (Hb w).
  destruct (body w) as [a w1 | e w1]; cbn [world_of] in *; [exact Hb|].
  eapply R_trans; [exact Hb | apply Hh].
Qed.

Lemma keeps_forEach {A} (l : list A) (f : A -> M unit) :
  (forall x, keeps R (f x)) -> keeps R (forEach l f).
Proof.
  intros Hf. induction l as [|x l IH]; cbn [forEach]; [apply keeps_ret|].
  apply keeps_bind; [apply Hf | intros _; exact IH].
Qed.

Lemma keeps_modify_player f : keeps R (modify_player f).
Proof. intros w. apply R_items; reflexivity. Qed.

Lemma keeps_get_player : keeps R get_player.
Proof. intros w. apply R_refl. Qed.

Lemma keeps_player_textTracks_tracks_ : keeps R player_textTracks_tracks_.
Proof.
  intros w. unfold player_textTracks_tracks_.
  destruct (has_textTracks_ (player w)); apply R_refl.
Qed.

Lemma keeps_alloc v : keeps R (alloc v).
Proof. intros w. apply R_items; reflexivity. Qed.

Lemma keeps_deref r : keeps R (deref r).
Proof. intros w. unfold deref. destruct (heap w !! r); apply R_refl. Qed.

Lemma keeps_assign r k v : keeps R (assign r k v).
Proof.
  intros w. unfold assign. destruct (heap w !! r) as [d|]; [|apply R_refl].
  destruct (set_prop d k v); [apply R_items; reflexivity | apply R_refl].
Qed.

Lemma keeps_getItem k : keeps R (localStorage_getItem k).
Proof. intros w. apply R_items; reflexivity. Qed.

Lemma keeps_log msg : keeps R (videojs_log msg).
Proof. intros w. apply R_items; reflexivity. Qed.

Lemma keeps_JSON_parse_arg raw : keeps R (JSON_parse_arg raw).
Proof. unfold JSON_parse_arg. destruct (JSON_parse _); [apply keeps_ret | apply keeps_throw]. Qed.

Lemma keeps_player_call name v : keeps R (player_call name v).
Proof.
  unfold player_call.
  repeat match goal with |- keeps _ (if ?b then _ else _) => destruct b end;
    first [apply keeps_modify_player | apply keeps_throw].
Qed.

Lemma keeps_apply_option options d rates name : keeps R (apply_option options d rates name).
Proof.
  unfold apply_option. destruct (negb _); [apply keeps_ret|]. cbv zeta.
  destruct (get_prop d name) as [v|]; [|apply keeps_ret].
  destruct (truthy v); [|apply keeps_ret].
  repeat match goal with |- keeps _ (if ?b then _ else _) => destruct b end;
    first [apply keeps_ret | apply keeps_modify_player | apply keeps_player_call].
Qed.

(** The start-up reads the store and writes nothing to it. *)
Lemma keeps_onPlayerReady options : keeps R (onPlayerReady options).
Proof.
  unfold onPlayerReady. cbv zeta.
  apply keeps_bind; [apply keeps_modify_player | intros _].
  apply keeps_bind; [apply keeps_getItem | intros raw].
  apply keeps_bind; [apply keeps_JSON_parse_arg | intros parsed].
  apply keeps_bind; [apply keeps_alloc | intros data].
  apply keeps_bind; [apply keeps_get_player | intros p].
  apply keeps_bind; [apply keeps_forEach; intros; apply keeps_apply_option | intros _].
  repeat (apply keeps_bind; [|intros _]);
    match goal with |- keeps _ (if ?b then _ else _) => destruct b end;
    first [apply keeps_modify_player | apply keeps_ret].
Qed.

Lemma keeps_run_ready : keeps R run_ready.
Proof.
  unfold run_ready.
  apply keeps_bind; [apply keeps_get_player | intros p].
  apply keeps_bind; [apply keeps_modify_player | intros _].
  apply keeps_forEach. intros. apply keeps_onPlayerReady.
Qed.

(** What remains to be known of a listener is its write. *)
Hypothesis R_write : forall v, keeps R (localStorage_setItem PLUGIN_CONFIG.key v).

Lemma keeps_write r : keeps R (let* d := deref r in
                               localStorage_setItem PLUGIN_CONFIG.key (JSON_stringify d)).
Proof. apply keeps_bind; [apply keeps_deref | intros; apply R_write]. Qed.

Lemma keeps_run_handler h : keeps R (run_handler h).
Proof.
  destruct h as [muted volume data | data | data | data]; unfold run_handler.
  - apply keeps_bind; [|intros _; apply keeps_bind; [|intros _; apply keeps_write]].
    + destruct muted; [|apply keeps_ret].
      apply keeps_bind; [apply keeps_get_player | intros p].
      apply keeps_bind; [apply keeps_modify_player | intros _; apply keeps_assign].
    + destruct volume; [|apply keeps_ret].
      apply keeps_bind; [apply keeps_get_player | intros p; apply keeps_assign].
  - apply keeps_bind; [apply keeps_get_player | intros p]. cbv zeta.
    apply keeps_bind; [apply keeps_modify_player | intros _].
    apply keeps_bind; [apply keeps_assign | intros _; apply keeps_write].
  - apply keeps_bind; [apply keeps_player_textTracks_tracks_ | intros tracks]. cbv zeta.
    destruct (List.find _ _);
      (apply keeps_bind; [apply keeps_assign | intros _; apply keeps_write]).
  - apply keeps_bind; [apply keeps_get_player | intros p]. cbv zeta.
    destruct (List.find _ _); [|apply keeps_throw].
    apply keeps_bind; [apply keeps_assign | intros _; apply keeps_write].
Qed.

Lemma keeps_listeners hs : keeps R (forEach hs call_listener).
Proof.
  apply keeps_forEach. intros h. unfold call_listener.
  apply keeps_try_catch; [apply keeps_run_handler | intros; apply keeps_ret].
Qed.

Lemma keeps_occur c : keeps R (occur c).
Proof.
  destruct c; unfold occur, trigger, audioTracks_trigger;
    (apply keeps_bind; [apply keeps_modify_player | intros _]);
    (apply keeps_bind; [apply keeps_get_player | intros p; apply keeps_listeners]).
Qed.

End Effects.

(** ** The store through a page's life *)

Section Store.
Local Open Scope string_scope.
Local Open Scope list_scope.

Lemma same_foreign_refl w : same_foreign_items w w.
Proof. split; [reflexivity | intros; reflexivity]. Qed.

Lemma same_foreign_trans w1 w2 w3 :
  same_foreign_items w1 w2 -> same_foreign_items w2 w3 -> same_foreign_items w1 w3.
Proof.
  intros [H1 H2] [H3 H4]. split; [congruence|].
  intros k Hk Ht. rewrite H4, H2 by assumption. reflexivity.
Qed.

Lemma same_foreign_of_items w w' :
  writable (localStorage w') = writable (localStorage w) ->
  items (localStorage w') = items (localStorage w) -> same_foreign_items w w'.
Proof. intros Hw Hi. split; [exact Hw | intros; rewrite Hi; reflexivity]. Qed.

Lemma same_foreign_setItem k v :
  k = PLUGIN_CONFIG.key \/ k = "persist-controls-test" ->
  keeps same_foreign_items (localStorage_setItem k v).
Proof.
  intros Hk w. unfold localStorage_setItem.
  destruct (writable (localStorage w)) eqn:E; cbn [world_of];
    (split; cbn; [congruence|]); intros k' H1 H2; [|reflexivity].
  apply lookup_insert_ne. destruct Hk; congruence.
Qed.

Lemma same_foreign_probe : keeps same_foreign_items checkLocalStorageAvailability.
Proof.
  unfold checkLocalStorageAvailability. cbv zeta.
  apply (keeps_try_catch _ same_foreign_trans);
    [|intros; apply (keeps_ret _ same_foreign_refl)].
  apply (keeps_bind _ same_foreign_trans);
    [apply same_foreign_setItem; right; reflexivity | intros _].
  apply (keeps_bind _ same_foreign_trans);
    [|intros; apply (keeps_ret _ same_foreign_refl)].
  intros w. split; cbn; [reflexivity|]. intros k _ Hk.
  apply lookup_delete_ne. congruence.
Qed.

Lemma same_foreign_persistControls options :
  keeps same_foreign_items (persistControls options).
Proof.
  unfold persistControls.
  apply (keeps_bind _ same_foreign_trans); [apply same_foreign_probe | intros b].
  destruct (negb b).
  - apply (keeps_log _ same_foreign_of_items).
  - apply (keeps_modify_player _ same_foreign_of_items).
Qed.

Lemma same_foreign_perform a : keeps same_foreign_items (perform a).
Proof.
  destruct a as [options | | c]; cbn [perform].
  - apply same_foreign_persistControls.
  - apply (keeps_run_ready _ same_foreign_refl same_foreign_trans same_foreign_of_items).
  - apply (keeps_occur _ same_foreign_refl same_foreign_trans same_foreign_of_items).
    intros v. apply same_foreign_setItem. left. reflexivity.
Qed.

Lemma same_foreign_lifetime acts : forall w, same_foreign_items w (lifetime acts w).
Proof.
  induction acts as [|a acts IH]; intros w; [apply same_foreign_refl|].
  unfold lifetime. cbn [fold_left].
  eapply same_foreign_trans; [apply same_foreign_perform | apply IH].
Qed.

Lemma same_record_refl w : same_record_text w w.
Proof. split; reflexivity. Qed.

Lemma same_record_trans w1 w2 w3 :
  same_record_text w1 w2 -> same_record_text w2 w3 -> same_record_text w1 w3.
Proof. intros [H1 H2] [H3 H4]. split; congruence. Qed.

Lemma same_record_of_items w w' :
  writable (localStorage w') = writable (localStorage w) ->
  items (localStorage w') = items (localStorage w) -> same_record_text w w'.
Proof. intros Hw Hi. split; [exact Hw | rewrite Hi; reflexivity]. Qed.

Lemma same_record_probe : keeps same_record_text checkLocalStorageAvailability.
Proof.
  intros w. unfold checkLocalStorageAvailability, try_catch, bind, localStorage_setItem.
  destruct (writable (localStorage w)) eqn:E; cbn; (split; cbn; [congruence|]);
    [|reflexivity].
  rewrite lookup_delete_ne, lookup_insert_ne by discriminate. reflexivity.
Qed.

Lemma same_record_quiet a : is_change a = false -> keeps same_record_text (perform a).
Proof.
  destruct a as [options | | c]; cbn [perform is_change]; intros H; [| |discriminate].
  - unfold persistControls.
    apply (keeps_bind _ same_record_trans); [apply same_record_probe | intros b].
    destruct (negb b).
    + apply (keeps_log _ same_record_of_items).
    + apply (keeps_modify_player _ same_record_of_items).
  - apply (keeps_run_ready _ same_record_refl same_record_trans same_record_of_items).
Qed.

Lemma same_record_lifetime acts : forall w,
  forallb (fun a => negb (is_change a)) acts = true -> same_record_text w (lifetime acts w).
Proof.
  induction acts as [|a acts IH]; intros w Hq; [apply same_record_refl|].
  cbn [forallb] in Hq. apply andb_true_iff in Hq as [Ha Hq].
  unfold lifetime. cbn [fold_left].
  eapply same_record_trans; [|apply IH, Hq].
  apply same_record_quiet. destruct (is_change a); [discriminate | reflexivity].
Qed.

(** X1.  Through a whole life of the page with the plugin, any number of
    activations, of times the player becomes ready and of changes the player
    reports, in any order and on any store, the plugin touches two keys of
    the store and no other: every key but [persist-controls] and
    [persist-controls-test] holds at the end what it held at the start. *)
Theorem only_own_keys_are_touched (acts : list action) (w : World) (k : string) :
  k <> PLUGIN_CONFIG.key -> k <> "persist-controls-test" ->
  items (localStorage (lifetime acts w)) !! k = items (localStorage w) !! k.
Proof. intros Hk Ht. apply (same_foreign_lifetime acts w); assumption. Qed.

Lemma only_own_keys_are_touched_witness :
  let w := mkWorld (Examples.a_player [] [] [])
                   (mkStorage (<["theme" := "dark"]> Examples.no_items) true []) [] [] in
  let acts := [Activate Examples.no_options; BecomeReady;
               Change (VolumeChanged (VBool false) (VNum Examples.n042))] in
  "theme" <> PLUGIN_CONFIG.key
  /\ "theme" <> "persist-controls-test"
  /\ items (localStorage (lifetime acts w)) !! "theme" = Some "dark".
Proof.
  intros w acts. split; [discriminate|]. split; [discriminate|].
  rewrite (only_own_keys_are_touched acts w "theme"); [reflexivity | discriminate | discriminate].
Defined.

(** X2.  The record is written by the listeners only: as long as the
    player reports no change, whatever is activated and however often the
    player becomes ready (the start-up may return or throw), the text under
    [persist-controls] is what it was, and so is whether the store takes
    writes. *)
Theorem record_is_written_by_listeners_only (acts : list action) (w : World) :
  forallb (fun a => negb (is_change a)) acts = true ->
  items (localStorage (lifetime acts w)) !! PLUGIN_CONFIG.key
  = items (localStorage w) !! PLUGIN_CONFIG.key
  /\ writable (localStorage (lifetime acts w)) = writable (localStorage w).
Proof. intros Hq. destruct (same_record_lifetime acts w Hq) as [Hw Hi]. split; assumption. Qed.

Lemma record_is_written_by_listeners_only_witness :
  let w := Examples.a_world (Examples.a_player [] [] []) (Some "not json") in
  let acts := [Activate Examples.no_options; BecomeReady; Activate Examples.no_options] in
  forallb (fun a => negb (is_change a)) acts = true
  /\ items (localStorage (lifetime acts w)) !! PLUGIN_CONFIG.key = Some "not json"
  /\ writable (localStorage (lifetime acts w)) = true.
Proof.
  intros w acts. split; [reflexivity|].
  destruct (record_is_written_by_listeners_only acts w eq_refl) as [Hi Hw].
  rewrite Hi, Hw. split; reflexivity.
Defined.

End Store.

(** ** The probe, the activation and the start-up, on any world *)

Section Activation.
Local Open Scope string_scope.
Local Open Scope list_scope.

(** X3.  The probe never throws and never fails to answer: on every store
    it returns whether the store takes writes.  It changes neither the
    player nor the log, and in the store no key but its own test key, which
    is gone afterwards when the store takes writes (an item the page kept
    under that key is lost) and is as before when it does not. *)
Theorem probe_answers_and_spares_the_store (w : World) :
  exists w',
    checkLocalStorageAvailability w = Ret (writable (localStorage w)) w'
    /\ player w' = player w /\ heap w' = heap w /\ console w' = console w
    /\ writable (localStorage w') = writable (localStorage w)
    /\ (forall k, k <> "persist-controls-test" ->
                  items (localStorage w') !! k = items (localStorage w) !! k)
    /\ items (localStorage w') !! "persist-controls-test"
       = if writable (localStorage w) then None
         else items (localStorage w) !! "persist-controls-test".
Proof.
  destruct (writable (localStorage w)) eqn:E.
  - rewrite (probe_accepted w E). eexists. split; [reflexivity|]. cbn.
    repeat split.
    + intros k Hk. rewrite lookup_delete_ne, lookup_insert_ne by congruence. reflexivity.
    + apply lookup_delete_eq.
  - rewrite (probe_refused w E). eexists. split; [reflexivity|]. cbn.
    repeat split.
Qed.

(** The activation on any store. *)
Lemma persistControls_result (options : UserOptions) (w : World) :
  exists w',
    persistControls options w = Ret tt w'
    /\ set_ready_queue [] (player w') = set_ready_queue [] (player w)
    /\ heap w' = heap w
    /\ items (localStorage w') !! PLUGIN_CONFIG.key
       = items (localStorage w) !! PLUGIN_CONFIG.key.
Proof.
  unfold persistControls. rewrite bind_run.
  destruct (writable (localStorage w)) eqn:E.
  - rewrite (probe_accepted w E). cbn [negb]. eexists. split; [reflexivity|]. cbn.
    repeat split.
    rewrite lookup_delete_ne, lookup_insert_ne by discriminate. reflexivity.
  - rewrite (probe_refused w E). cbn [negb]. eexists. split; [reflexivity|]. cbn.
    repeat split.
Qed.

(** X4.  The activation never throws, whatever the store and the options:
    it returns having changed nothing of the player but the queue of ready
    callbacks, no object and not the record's text.  When the store takes
    writes it has queued one callback, with the defaults merged under the
    caller's options, and logged nothing; when it does not, it has queued
    nothing and logged one notice. *)
Theorem persistControls_never_throws (options : UserOptions) (w : World) :
  exists w',
    persistControls options w = Ret tt w'
    /\ set_ready_queue [] (player w') = set_ready_queue [] (player w)
    /\ heap w' = heap w
    /\ items (localStorage w') !! PLUGIN_CONFIG.key
       = items (localStorage w) !! PLUGIN_CONFIG.key
    /\ if writable (localStorage w)
       then ready_queue (player w')
            = ready_queue (player w) ++ [merge PLUGIN_CONFIG.defaultOptions options]
            /\ console w' = console w
       else ready_queue (player w') = ready_queue (player w)
            /\ console w' = console w ++ ["localStorage unavailable."].
Proof.
  unfold persistControls. rewrite bind_run.
  destruct (writable (localStorage w)) eqn:E.
  - rewrite (probe_accepted w E). cbn [negb]. eexists. split; [reflexivity|]. cbn.
    repeat split.
    rewrite lookup_delete_ne, lookup_insert_ne by discriminate. reflexivity.
  - rewrite (probe_refused w E). cbn [negb]. eexists. split; [reflexivity|]. cbn.
    repeat split.
Qed.

Lemma persisted_truthy_disabled options d name :
  option_enabled options name = false -> persisted_truthy options d name = None.
Proof. intros H. unfold persisted_truthy. rewrite H. reflexivity. Qed.

Lemma startup_or_not options w :
  (exists d, decode (items (localStorage w) !! PLUGIN_CONFIG.key) = Some d
             /\ world_of (onPlayerReady options w)
                = mkWorld (startup_player options d (length (heap w)) (player w))
                          (read_storage w) (console w) (heap w ++ [d]))
  \/ world_of (onPlayerReady options w)
     = mkWorld (addClass "vjs-persist-controls" (player w))
               (read_storage w) (console w) (heap w).
Proof.
  destruct (decode (items (localStorage w) !! PLUGIN_CONFIG.key)) as [d|] eqn:E.
  - left. exists d. split; [reflexivity|].
    rewrite (onPlayerReady_run options w d E). reflexivity.
  - right. rewrite (onPlayerReady_throws options w E). reflexivity.
Qed.

Lemma addClass_fields c p :
  p_volume (addClass c p) = p_volume p
  /\ p_muted (addClass c p) = p_muted p
  /\ p_playbackRate (addClass c p) = p_playbackRate p
  /\ textTracks (addClass c p) = textTracks p
  /\ audioTracks (addClass c p) = audioTracks p
  /\ listeners (addClass c p) = listeners p
  /\ audio_listeners (addClass c p) = audio_listeners p
  /\ p_defaultMuted (addClass c p) = p_defaultMuted p
  /\ p_defaultPlaybackRate (addClass c p) = p_defaultPlaybackRate p
  /\ ready_queue (addClass c p) = ready_queue p.
Proof. unfold addClass. destruct existsb; repeat split; reflexivity. Qed.

Lemma listeners_for_app event (l1 l2 : list (string * Handler)) :
  listeners_for event (l1 ++ l2) = listeners_for event l1 ++ listeners_for event l2.
Proof. unfold listeners_for. rewrite filter_app, map_app. reflexivity. Qed.

(** X5.  A preference whose option is off is left alone by the start-up,
    on every player and whatever the store holds (a record, nothing, text
    that does not parse): the player's value for it is what it was, and no
    listener is subscribed for its event.  For the volume and the muted
    state, which share an event, the listener is left out when both are
    off. *)
Theorem disabled_option_is_left_alone (options : Options) (w : World) :
  let p := player w in
  let p' := player (world_of (onPlayerReady options w)) in
  (o_volume options = false -> p_volume p' = p_volume p)
  /\ (o_muted options = false -> p_muted p' = p_muted p)
  /\ (o_volume options = false -> o_muted options = false ->
      listeners_for "volumechange" (listeners p') = listeners_for "volumechange" (listeners p))
  /\ (o_playbackRate options = false ->
      p_playbackRate p' = p_playbackRate p
      /\ listeners_for "ratechange" (listeners p') = listeners_for "ratechange" (listeners p))
  /\ (o_captions options = false ->
      textTracks p' = textTracks p
      /\ listeners_for "texttrackchange" (listeners p')
         = listeners_for "texttrackchange" (listeners p))
  /\ (o_audioTrack options = false ->
      audioTracks p' = audioTracks p /\ audio_listeners p' = audio_listeners p).
Proof.
  cbv zeta.
  pose proof (addClass_fields "vjs-persist-controls" (player w))
    as (Hv & Hm & Hr & Ht & Ha & Hl & Hal & _).
  destruct (startup_or_not options w) as [(d & _ & ->) | ->]; cbn [player].
  - rewrite startup_volume, startup_muted, startup_playbackRate, startup_textTracks,
      startup_audioTracks, startup_listeners, startup_audio_listeners.
    rewrite !listeners_for_app.
    rewrite listeners_for_volumechange, listeners_for_ratechange, listeners_for_texttrackchange.
    unfold audio_subscriptions.
    repeat split; intros;
      rewrite ?persisted_truthy_disabled by (cbn; assumption);
      repeat match goal with H : _ = false |- _ => rewrite H end;
      cbn [orb]; rewrite ?app_nil_r; reflexivity.
  - rewrite Hv, Hm, Hr, Ht, Ha, Hl, Hal. repeat split.
Qed.

Lemma persisted_truthy_empty options name :
  persisted_truthy options (VObj []) name = None.
Proof. unfold persisted_truthy. destruct option_enabled; reflexivity. Qed.

Lemma startup_player_empty options r p :
  startup_player options (VObj []) r p
  = subscribe options r (addClass "vjs-persist-controls" p).
Proof.
  unfold startup_player, restore. cbv zeta.
  rewrite !persisted_truthy_empty. reflexivity.
Qed.

(** X6.  A first visit.  When the store has nothing under the plugin's key,
    or the text of a falsy JSON value ([null], [false], [0], the empty
    string), the start-up goes through with the empty record: the player
    gets the class and the listeners of the enabled options and is otherwise
    untouched, and the one object made is the empty record. *)
Theorem first_visit_starts_from_the_empty_record (options : Options) (w : World) :
  match items (localStorage w) !! PLUGIN_CONFIG.key with
  | None => True
  | Some s => exists v, JSON_parse s = Some v /\ truthy v = false
  end ->
  onPlayerReady options w =
  Ret tt (mkWorld (subscribe options (length (heap w))
                             (addClass "vjs-persist-controls" (player w)))
                  (read_storage w) (console w) (heap w ++ [VObj []])).
Proof.
  intros Hs. rewrite <- startup_player_empty. apply onPlayerReady_run.
  unfold decode. destruct (items (localStorage w) !! PLUGIN_CONFIG.key) as [s|].
  - destruct Hs as (v & -> & ->). reflexivity.
  - reflexivity.
Qed.

Lemma first_visit_starts_from_the_empty_record_witness :
  let w := Examples.a_world (Examples.a_player [] [Examples.en_default] [Examples.en_audio])
                            (Some "null") in
  (exists v, JSON_parse "null" = Some v /\ truthy v = false)
  /\ onPlayerReady PLUGIN_CONFIG.defaultOptions w =
     Ret tt (mkWorld (subscribe PLUGIN_CONFIG.defaultOptions 0
                                (addClass "vjs-persist-controls" (player w)))
                     (read_storage w) (console w) [VObj []]).
Proof.
  intros w.
  assert (exists v, JSON_parse "null" = Some v /\ truthy v = false) as Hs
    by (exists VNull; split; reflexivity).
  split; [exact Hs|].
  apply (first_visit_starts_from_the_empty_record PLUGIN_CONFIG.defaultOptions w Hs).
Defined.

End Activation.

(** ** The listeners no property above is about *)

Section OtherListeners.
Local Open Scope string_scope.
Local Open Scope list_scope.

(** X7.  With the playback-rate option on, on every rate-change event the
    listener puts the player's current rate into the player's default
    playback rate; in a session it then persists it: the record read back
    from the store has the new rate under [playbackRate] and every other
    field as JSON carries what it was (as it was, but an infinity as
    [null] and the negative zero as [0]). *)
Theorem rate_change_is_default_and_persisted
    (options : Options) (r : nat) (w : World) (v : value) :
  session options r w ->
  o_playbackRate options = true ->
  wf_value v = true ->
  let w' := world_of (occur (RateChanged v) w) in
  p_playbackRate (player w') = v
  /\ p_defaultPlaybackRate (player w') = v
  /\ exists d d',
       persisted w = Some d /\ persisted w' = Some d'
       /\ get_prop d' "playbackRate" = Some v
       /\ forall k, k <> "playbackRate" -> get_prop d' k = through_JSON <$> get_prop d k.
Proof.
  intros Hs Ho Hv. cbv zeta. pose proof Hs as (Hl & Hw & props & Hh & _).
  destruct (session_read_back options r w (RateChanged v) Hs Hv)
    as (d & d' & props' & Hd & Hd' & _ & _ & Hset & Hother & _).
  cbv zeta in *. cbn [assigned record_after] in *. rewrite Ho in *.
  rewrite (occur_RateChanged options r w props v Hl Hw Hh), Ho in *.
  cbn [world_of player] in *.
  split; [reflexivity|]. split; [reflexivity|].
  exists d, d'. split; [exact Hd|]. split; [exact Hd'|]. split.
  - rewrite Hset by (left; reflexivity). rewrite obj_get_set_eq. cbn.
    rewrite wf_through_JSON by exact Hv. reflexivity.
  - intros k Hk. apply Hother; [discriminate|]. intros [E | []]. congruence.
Qed.

Lemma rate_change_is_default_and_persisted_witness :
  let p := Examples.a_player [Examples.n1; Examples.n2] [] [] in
  let w := Examples.started PLUGIN_CONFIG.defaultOptions p None in
  let w' := world_of (occur (RateChanged (VNum Examples.n2)) w) in
  session PLUGIN_CONFIG.defaultOptions 0 w
  /\ wf_value (VNum Examples.n2) = true
  /\ p_defaultPlaybackRate (player w) = VNum Examples.n1
  /\ p_playbackRate (player w') = VNum Examples.n2
  /\ p_defaultPlaybackRate (player w') = VNum Examples.n2
  /\ exists d d',
       persisted w = Some d /\ persisted w' = Some d'
       /\ get_prop d' "playbackRate" = Some (VNum Examples.n2)
       /\ forall k, k <> "playbackRate" -> get_prop d' k = through_JSON <$> get_prop d k.
Proof.
  intros p w w'.
  assert (session PLUGIN_CONFIG.defaultOptions 0 w) as Hs
    by (session_by_computation (@nil (string * value))).
  assert (wf_value (VNum Examples.n2) = true) as Hv by by_computation.
  split; [exact Hs|]. split; [exact Hv|]. split; [reflexivity|].
  apply (rate_change_is_default_and_persisted PLUGIN_CONFIG.defaultOptions 0 w
           (VNum Examples.n2) Hs eq_refl Hv).
Defined.

(** X8.  In a session with the muted option on, a volume-change event
    persists the player's muted state, [false] as well as [true]: the record
    read back from the store has it under [muted], and every field but
    [muted] and [volume] as JSON carries what it was (as it was, but an
    infinity as [null] and the negative zero as [0]). *)
Theorem muted_state_is_persisted
    (options : Options) (r : nat) (w : World) (m v : value) :
  session options r w ->
  o_muted options = true ->
  wf_value m = true -> wf_value v = true ->
  let w' := world_of (occur (VolumeChanged m v) w) in
  exists d d',
    persisted w = Some d /\ persisted w' = Some d'
    /\ get_prop d' "muted" = Some m
    /\ forall k, k <> "muted" -> k <> "volume" ->
                 get_prop d' k = through_JSON <$> get_prop d k.
Proof.
  intros Hs Ho Hm Hv. cbv zeta.
  assert (wf_change (VolumeChanged m v) = true) as Hc by (cbn; rewrite Hm, Hv; reflexivity).
  destruct (session_read_back options r w _ Hs Hc)
    as (d & d' & props & Hd & Hd' & _ & _ & Hset & Hother & _).
  cbv zeta in *. cbn [assigned record_after] in *. rewrite Ho in *.
  exists d, d'. split; [exact Hd|]. split; [exact Hd'|]. split.
  - rewrite Hset by (left; reflexivity).
    destruct (o_volume options);
      rewrite ?obj_get_set_ne by discriminate; rewrite obj_get_set_eq;
      cbn; rewrite wf_through_JSON by exact Hm; reflexivity.
  - intros k Hk1 Hk2. apply Hother; [discriminate|].
    destruct (o_volume options); cbn; intuition congruence.
Qed.

Lemma muted_state_is_persisted_witness :
  let p := Examples.a_player [] [] [] in
  let w := Examples.started PLUGIN_CONFIG.defaultOptions p None in
  let w' := world_of (occur (VolumeChanged (VBool false) (VNum Examples.n042)) w) in
  session PLUGIN_CONFIG.defaultOptions 0 w
  /\ wf_value (VNum Examples.n042) = true
  /\ exists d d',
       persisted w = Some d /\ persisted w' = Some d'
       /\ get_prop d' "muted" = Some (VBool false)
       /\ forall k, k <> "muted" -> k <> "volume" ->
                    get_prop d' k = through_JSON <$> get_prop d k.
Proof.
  intros p w w'.
  assert (session PLUGIN_CONFIG.defaultOptions 0 w) as Hs
    by (session_by_computation (@nil (string * value))).
  assert (wf_value (VNum Examples.n042) = true) as Hv by by_computation.
  split; [exact Hs|]. split; [exact Hv|].
  apply (muted_state_is_persisted PLUGIN_CONFIG.defaultOptions 0 w
           (VBool false) (VNum Examples.n042) Hs eq_refl eq_refl Hv).
Defined.

Lemma find_enabled_exists tracks t :
  List.find at_enabled tracks = Some t -> existsb at_enabled tracks = true.
Proof. intros E. apply find_some in E. apply existsb_exists. eauto. Qed.

(** X9.  In a session with the audio-track option on, when the audio track
    list reports a change and some track is enabled, the record read back
    from the store has under [audioTrack] the language of the first enabled
    track of the list, and every other field as JSON carries what it was
    (as it was, but an infinity as [null] and the negative zero as [0]). *)
Theorem audio_language_is_persisted
    (options : Options) (r : nat) (w : World) (tracks : list AudioTrack) (t : AudioTrack) :
  session options r w ->
  o_audioTrack options = true ->
  List.find at_enabled tracks = Some t ->
  let w' := world_of (occur (AudioTracksChanged tracks) w) in
  exists d d',
    persisted w = Some d /\ persisted w' = Some d'
    /\ get_prop d' "audioTrack" = Some (VStr (at_language t))
    /\ forall k, k <> "audioTrack" -> get_prop d' k = through_JSON <$> get_prop d k.
Proof.
  intros Hs Ho Ht. cbv zeta.
  destruct (session_read_back options r w (AudioTracksChanged tracks) Hs eq_refl)
    as (d & d' & props & Hd & Hd' & _ & _ & Hset & Hother & _).
  cbv zeta in *. cbn [assigned record_after] in *.
  rewrite Ho, Ht, (find_enabled_exists _ _ Ht) in *. cbn [andb] in *.
  exists d, d'. split; [exact Hd|]. split; [exact Hd'|]. split.
  - rewrite Hset by (left; reflexivity). rewrite obj_get_set_eq. reflexivity.
  - intros k Hk. apply Hother; [discriminate|]. intros [E | []]. congruence.
Qed.

Lemma audio_language_is_persisted_witness :
  let p := Examples.a_player [] [] [Examples.en_audio; Examples.fr_audio] in
  let w := Examples.started PLUGIN_CONFIG.defaultOptions p None in
  let tracks := [mkAudioTrack "en" false; mkAudioTrack "fr" true] in
  let w' := world_of (occur (AudioTracksChanged tracks) w) in
  session PLUGIN_CONFIG.defaultOptions 0 w
  /\ List.find at_enabled tracks = Some (mkAudioTrack "fr" true)
  /\ exists d d',
       persisted w = Some d /\ persisted w' = Some d'
       /\ get_prop d' "audioTrack" = Some (VStr "fr")
       /\ forall k, k <> "audioTrack" -> get_prop d' k = through_JSON <$> get_prop d k.
Proof.
  intros p w tracks w'.
  assert (session PLUGIN_CONFIG.defaultOptions 0 w) as Hs
    by (session_by_computation (@nil (string * value))).
  split; [exact Hs|]. split; [reflexivity|].
  apply (audio_language_is_persisted PLUGIN_CONFIG.defaultOptions 0 w tracks
           (mkAudioTrack "fr" true) Hs eq_refl eq_refl).
Defined.

Lemma find_enabled_none tracks :
  existsb at_enabled tracks = false -> List.find at_enabled tracks = None.
Proof.
  intros Hn. destruct (List.find at_enabled tracks) as [t|] eqn:E; [|reflexivity].
  apply find_enabled_exists in E. congruence.
Qed.

(** X10.  The audio listener reads the language of the enabled track
    without testing that there is one.  When the track list reports a change
    that leaves no track enabled, the listener throws a [TypeError] before it
    touches the record; video.js goes on, and in a session the store, the
    record and the listeners are as before, so the language persisted
    earlier stays. *)
Theorem audio_change_without_enabled_track
    (options : Options) (r : nat) (w : World) (tracks : list AudioTrack) :
  session options r w ->
  o_audioTrack options = true ->
  existsb at_enabled tracks = false ->
  let w1 := with_player (set_audioTracks tracks (player w)) w in
  run_handler (OnAudioTrackChange r) w1 = Throw TypeError w1
  /\ occur (AudioTracksChanged tracks) w = Ret tt w1
  /\ session options r w1
  /\ persisted w1 = persisted w.
Proof.
  intros Hs Ho Hn. cbv zeta. pose proof Hs as (Hl & Hw & props & Hh & Hwf & Hp).
  assert (run_handler (OnAudioTrackChange r)
            (with_player (set_audioTracks tracks (player w)) w)
          = Throw TypeError (with_player (set_audioTracks tracks (player w)) w)) as Hthrow.
  { unfold run_handler. rewrite bind_run. unfold get_player.
    cbn [with_player player audioTracks set_audioTracks].
    rewrite (find_enabled_none tracks Hn). reflexivity. }
  split; [exact Hthrow|].
  assert (occur (AudioTracksChanged tracks) w
          = Ret tt (with_player (set_audioTracks tracks (player w)) w)) as Hoccur.
  { unfold occur. rewrite bind_run. unfold modify_player. fold (with_player (set_audioTracks tracks (player w)) w).
    unfold audioTracks_trigger. rewrite bind_run. unfold get_player.
    cbn [with_player player audio_listeners set_audioTracks].
    destruct Hl as [_ Hal]. rewrite Hal, listeners_for_change, Ho.
    cbn [forEach]. rewrite bind_run. unfold call_listener, try_catch.
    fold (with_player (set_audioTracks tracks (player w)) w). rewrite Hthrow. reflexivity. }
  split; [exact Hoccur|].
  split; [|reflexivity].
  pose proof (session_step options r w (AudioTracksChanged tracks) Hs eq_refl) as Hs'.
  rewrite Hoccur in Hs'. exact Hs'.
Qed.

Lemma audio_change_without_enabled_track_witness :
  let p := Examples.a_player [] [] [Examples.en_audio; Examples.fr_audio] in
  let w := Examples.started PLUGIN_CONFIG.defaultOptions p
             (Examples.stored [("audioTrack", VStr "en")]) in
  let tracks := [mkAudioTrack "en" false; mkAudioTrack "fr" false] in
  let w1 := with_player (set_audioTracks tracks (player w)) w in
  session PLUGIN_CONFIG.defaultOptions 0 w
  /\ run_handler (OnAudioTrackChange 0) w1 = Throw TypeError w1
  /\ occur (AudioTracksChanged tracks) w = Ret tt w1
  /\ session PLUGIN_CONFIG.defaultOptions 0 w1
  /\ persisted w1 = persisted w.
Proof.
  intros p w tracks w1.
  assert (session PLUGIN_CONFIG.defaultOptions 0 w) as Hs
    by (session_by_computation [("audioTrack", VStr "en")]).
  split; [exact Hs|].
  apply (audio_change_without_enabled_track PLUGIN_CONFIG.defaultOptions 0 w tracks
           Hs eq_refl eq_refl).
Defined.

End OtherListeners.

(** ** Fields that no listener assigns *)

Section QuietFields.
Local Open Scope string_scope.
Local Open Scope list_scope.

Lemma assigned_enabled options p c k :
  In k (assigned options p c) -> option_enabled options k = true.
Proof.
  destruct c as [m v | v | tracks | tracks]; cbn [assigned].
  - destruct (o_muted options) eqn:Em, (o_volume options) eqn:Ev; cbn;
      intros H; repeat destruct H as [<- | H]; try contradiction; cbn; assumption.
  - destruct (o_playbackRate options) eqn:E; cbn;
      intros H; repeat destruct H as [<- | H]; try contradiction; cbn; assumption.
  - destruct (o_captions options) eqn:E; cbn; [destruct has_textTracks_|]; cbn;
      intros H; repeat destruct H as [<- | H]; try contradiction; cbn; assumption.
  - destruct (o_audioTrack options) eqn:E; cbn; [destruct existsb|]; cbn;
      intros H; repeat destruct H as [<- | H]; try contradiction; cbn; assumption.
Qed.

Lemma kept_refl x : kept x x.
Proof. left. reflexivity. Qed.

Lemma kept_trans x y z : kept x y -> kept y z -> kept x z.
Proof.
  intros [-> | ->] [-> | ->]; [left | right | right | right]; try reflexivity.
  destruct x as [v|]; cbn; [rewrite through_JSON_idem|]; reflexivity.
Qed.

Lemma quiet_field_run options r k cs : forall w,
  session options r w ->
  forallb wf_change cs = true ->
  option_enabled options k = false ->
  exists d d',
    persisted w = Some d /\ persisted (run cs w) = Some d'
    /\ kept (get_prop d k) (get_prop d' k).
Proof.
  induction cs as [|c cs IH]; intros w Hs Hcs Hk.
  - pose proof Hs as (_ & _ & props & _ & _ & Hp).
    destruct (persisted w) as [d|] eqn:E; [|discriminate].
    exists d, d. split; [reflexivity|]. split; [exact E | apply kept_refl].
  - cbn [forallb] in Hcs. apply andb_true_iff in Hcs as [Hc Hcs].
    destruct (session_read_back options r w c Hs Hc)
      as (d & d1 & props & Hd & Hd1 & _ & Hkept & _).
    destruct (IH _ (session_step options r w c Hs Hc) Hcs Hk) as (d1' & d' & Hd1' & Hd' & Hk').
    cbv zeta in *. assert (d1' = d1) as -> by congruence.
    exists d, d'. split; [exact Hd|]. split; [exact Hd'|].
    eapply kept_trans; [|exact Hk']. apply Hkept.
    intros Hin. apply assigned_enabled in Hin. congruence.
Qed.

(** X11.  In a session, through any sequence of changes, a field of the
    record that belongs to no enabled option is kept: the field of a
    preference whose option is off, and any field that is none of the
    plugin's (one a later version or another script left in the record), is
    read back from the store at the end as it was at the start, or as JSON
    carries what it was (an infinity as [null], the negative zero as [0])
    once a listener has written the record. *)
Theorem fields_without_an_enabled_option_are_kept
    (options : Options) (r : nat) (w : World) (cs : list change) (k : string) :
  session options r w ->
  forallb wf_change cs = true ->
  option_enabled options k = false ->
  exists d d',
    persisted w = Some d /\ persisted (run cs w) = Some d'
    /\ kept (get_prop d k) (get_prop d' k).
Proof. intros Hs Hcs Hk. apply (quiet_field_run options r k cs w Hs Hcs Hk). Qed.

Lemma fields_without_an_enabled_option_are_kept_witness :
  let p := Examples.a_player [] [] [] in
  let w := Examples.started PLUGIN_CONFIG.defaultOptions p
             (Examples.stored [("quality", VStr "hd")]) in
  let cs := [VolumeChanged (VBool false) (VNum Examples.n042);
             RateChanged (VNum Examples.n2)] in
  session PLUGIN_CONFIG.defaultOptions 0 w
  /\ forallb wf_change cs = true
  /\ option_enabled PLUGIN_CONFIG.defaultOptions "quality" = false
  /\ exists d d',
       persisted w = Some d /\ persisted (run cs w) = Some d'
       /\ get_prop d "quality" = Some (VStr "hd")
       /\ get_prop d' "quality" = Some (VStr "hd").
Proof.
  intros p w cs.
  assert (session PLUGIN_CONFIG.defaultOptions 0 w) as Hs
    by (session_by_computation [("quality", VStr "hd")]).
  assert (forallb wf_change cs = true) as Hcs by by_computation.
  split; [exact Hs|]. split; [exact Hcs|]. split; [reflexivity|].
  destruct (fields_without_an_enabled_option_are_kept PLUGIN_CONFIG.defaultOptions 0 w cs
              "quality" Hs Hcs eq_refl) as (d & d' & Hd & Hd' & Hk).
  assert (persisted w = Some (VObj [("quality", VStr "hd")])) as E by by_computation.
  exists d, d'. split; [exact Hd|]. split; [exact Hd'|].
  rewrite E in Hd. injection Hd as <-. split; [reflexivity|].
  destruct Hk as [-> | ->]; reflexivity.
Defined.

End QuietFields.

(** ** From one page load to the next *)

Section Reload.
Local Open Scope string_scope.
Local Open Scope list_scope.

(** The next start-up, on a store that holds under the plugin's key what
    a world [w'] holds there, takes the record persisted in [w']. *)
Lemma next_startup options2 w' w2 d :
  persisted w' = Some d ->
  items (localStorage w2) !! PLUGIN_CONFIG.key
  = items (localStorage w') !! PLUGIN_CONFIG.key ->
  onPlayerReady options2 w2 =
  Ret tt (mkWorld (startup_player options2 d (length (heap w2)) (player w2))
                  (read_storage w2) (console w2) (heap w2 ++ [d])).
Proof.
  intros Hp Hi. apply onPlayerReady_run. rewrite Hi. exact Hp.
Qed.

Lemma persisted_truthy_enabled options d name :
  option_enabled options name = true ->
  persisted_truthy options d name =
  match get_prop d name with
  | Some v => if truthy v then Some v else None
  | None => None
  end.
Proof. intros H. unfold persisted_truthy. rewrite H. reflexivity. Qed.

(** In a session, what is read back after a change has, under a field the
    listener assigned, the value assigned when that value goes through
    JSON unchanged. *)
Lemma assigned_read_back options r w c k v :
  session options r w -> wf_change c = true ->
  (forall props, obj_get k (record_after options (player w) c props) = Some v) ->
  In k (assigned options (player w) c) ->
  wf_value v = true ->
  exists d', persisted (world_of (occur c w)) = Some d' /\ get_prop d' k = Some v.
Proof.
  intros Hs Hc Hrec Hin Hv.
  destruct (session_read_back options r w c Hs Hc)
    as (d & d' & props & _ & Hd' & _ & _ & Hset & _).
  exists d'. split; [exact Hd'|]. rewrite (Hset k Hin), Hrec. cbn.
  rewrite wf_through_JSON by exact Hv. reflexivity.
Qed.

(** In a session, a change leaves the store with text that decodes. *)
Lemma session_persisted options r w c :
  session options r w -> wf_change c = true ->
  exists d', persisted (world_of (occur c w)) = Some d'.
Proof.
  intros Hs Hc.
  destruct (session_read_back options r w c Hs Hc) as (d & d' & props & _ & Hd' & _).
  eauto.
Qed.

(** X12.  The volume and the muted state survive a reload, zero and
    unmuted excepted.  After a volume change in a session with the volume
    option on, the next start-up with the option on, on any player over a
    store with the same record text, returns and gives the player that
    volume, unless the volume is 0: then the player keeps the volume it
    starts with.  Likewise the muted state with the muted option: [true] is
    given back, [false] is not. *)
Theorem volume_and_muted_survive_a_reload
    (options options2 : Options) (r : nat) (w w2 : World) (m v : value) :
  session options r w ->
  wf_value m = true -> wf_value v = true ->
  items (localStorage w2) !! PLUGIN_CONFIG.key
  = items (localStorage (world_of (occur (VolumeChanged m v) w))) !! PLUGIN_CONFIG.key ->
  exists w3,
    onPlayerReady options2 w2 = Ret tt w3
    /\ (o_volume options = true -> o_volume options2 = true ->
        p_volume (player w3) = if truthy v then v else p_volume (player w2))
    /\ (o_muted options = true -> o_muted options2 = true ->
        p_muted (player w3) = if truthy m then m else p_muted (player w2)).
Proof.
  intros Hs Hm Hv Hi.
  assert (wf_change (VolumeChanged m v) = true) as Hc by (cbn; rewrite Hm, Hv; reflexivity).
  destruct (session_persisted options r w _ Hs Hc) as (d' & Hp').
  rewrite (next_startup options2 _ w2 _ Hp' Hi). eexists. split; [reflexivity|].
  cbn [player]. split; intros Ho Ho2.
  - destruct (assigned_read_back options r w _ "volume" v Hs Hc) as (d2 & Hd2 & Hg);
      [ intros props; cbn [record_after]; rewrite Ho; apply obj_get_set_eq
      | cbn [assigned]; rewrite Ho; apply in_or_app; right; left; reflexivity
      | exact Hv |].
    assert (d2 = d') as -> by congruence.
    rewrite startup_volume, persisted_truthy_enabled, Hg by exact Ho2.
    destruct (truthy v); reflexivity.
  - destruct (assigned_read_back options r w _ "muted" m Hs Hc) as (d2 & Hd2 & Hg);
      [ intros props; cbn [record_after]; rewrite Ho;
        destruct (o_volume options); rewrite ?obj_get_set_ne by discriminate;
        apply obj_get_set_eq
      | cbn [assigned]; rewrite Ho; left; reflexivity
      | exact Hm |].
    assert (d2 = d') as -> by congruence.
    rewrite startup_muted, persisted_truthy_enabled, Hg by exact Ho2.
    destruct (truthy m); reflexivity.
Qed.

Lemma volume_and_muted_survive_a_reload_witness :
  let p := Examples.a_player [] [] [] in
  let w := Examples.started PLUGIN_CONFIG.defaultOptions p None in
  let w' := world_of (occur (VolumeChanged (VBool false) (VNum Examples.n042)) w) in
  let w2 := mkWorld p (mkStorage (items (localStorage w')) true []) [] [] in
  session PLUGIN_CONFIG.defaultOptions 0 w
  /\ exists w3,
       onPlayerReady PLUGIN_CONFIG.defaultOptions w2 = Ret tt w3
       /\ (o_volume PLUGIN_CONFIG.defaultOptions = true ->
           o_volume PLUGIN_CONFIG.defaultOptions = true ->
           p_volume (player w3) = VNum Examples.n042)
       /\ (o_muted PLUGIN_CONFIG.defaultOptions = true ->
           o_muted PLUGIN_CONFIG.defaultOptions = true ->
           p_muted (player w3) = VBool true).
Proof.
  intros p w w' w2.
  assert (session PLUGIN_CONFIG.defaultOptions 0 w) as Hs
    by (session_by_computation (@nil (string * value))).
  assert (items (localStorage w2) !! PLUGIN_CONFIG.key
          = items (localStorage w') !! PLUGIN_CONFIG.key) as Hi
    by (vm_compute; reflexivity).
  split; [exact Hs|].
  assert (wf_value (VNum Examples.n042) = true) as Hv by by_computation.
  apply (volume_and_muted_survive_a_reload PLUGIN_CONFIG.defaultOptions
           PLUGIN_CONFIG.defaultOptions 0 w w2 (VBool false) (VNum Examples.n042)
           Hs eq_refl Hv Hi).
Defined.

(** X13.  The playback rate survives a reload when the next player
    supports it.  After a rate change in a session with the option on, the
    next start-up with the option on, over a store with the same record
    text, returns and gives the player that rate if it is not 0 and is among
    the rates that player supports; otherwise the player keeps the rate it
    starts with. *)
Theorem playback_rate_survives_a_reload
    (options options2 : Options) (r : nat) (w w2 : World) (v : value) :
  session options r w ->
  o_playbackRate options = true ->
  wf_value v = true ->
  o_playbackRate options2 = true ->
  items (localStorage w2) !! PLUGIN_CONFIG.key
  = items (localStorage (world_of (occur (RateChanged v) w))) !! PLUGIN_CONFIG.key ->
  exists w3,
    onPlayerReady options2 w2 = Ret tt w3
    /\ p_playbackRate (player w3)
       = if truthy v && includes (supported_rates (player w2)) v
         then v else p_playbackRate (player w2).
Proof.
  intros Hs Ho Hv Ho2 Hi.
  destruct (assigned_read_back options r w (RateChanged v) "playbackRate" v Hs Hv)
    as (d' & Hp' & Hg);
    [ intros props; cbn [record_after]; rewrite Ho; apply obj_get_set_eq
    | cbn [assigned]; rewrite Ho; left; reflexivity
    | exact Hv |].
  rewrite (next_startup options2 _ w2 _ Hp' Hi). eexists. split; [reflexivity|].
  cbn [player].
  rewrite startup_playbackRate, persisted_truthy_enabled, Hg by exact Ho2.
  destruct (truthy v); reflexivity.
Qed.

Lemma playback_rate_survives_a_reload_witness :
  let p := Examples.a_player [Examples.n1; Examples.n2] [] [] in
  let w := Examples.started PLUGIN_CONFIG.defaultOptions p None in
  let w' := world_of (occur (RateChanged (VNum Examples.n2)) w) in
  let w2 := mkWorld p (mkStorage (items (localStorage w')) true []) [] [] in
  session PLUGIN_CONFIG.defaultOptions 0 w
  /\ p_playbackRate p = VNum Examples.n1
  /\ exists w3,
       onPlayerReady PLUGIN_CONFIG.defaultOptions w2 = Ret tt w3
       /\ p_playbackRate (player w3) = VNum Examples.n2.
Proof.
  intros p w w' w2.
  assert (session PLUGIN_CONFIG.defaultOptions 0 w) as Hs
    by (session_by_computation (@nil (string * value))).
  assert (items (localStorage w2) !! PLUGIN_CONFIG.key
          = items (localStorage w') !! PLUGIN_CONFIG.key) as Hi
    by (vm_compute; reflexivity).
  split; [exact Hs|]. split; [reflexivity|].
  assert (wf_value (VNum Examples.n2) = true) as Hv by by_computation.
  apply (playback_rate_survives_a_reload PLUGIN_CONFIG.defaultOptions
           PLUGIN_CONFIG.defaultOptions 0 w w2 (VNum Examples.n2)
           Hs eq_refl Hv eq_refl Hi).
Defined.

(** X14.  The captions language survives a reload; captions turned off are
    remembered as nothing to do.  After a change of the text tracks in a
    session with the captions option on, on a player whose private
    text-track list is set, the next start-up with the option on, over a
    store with the same record text, returns and does to the
    player's text tracks what the captions branch does with the language of
    the track that was showing (its default track if it has one, else the
    first track in that language, set to showing); when no track was
    showing, or the one showing had the empty language, it leaves every
    track as it is. *)
Theorem captions_survive_a_reload
    (options options2 : Options) (r : nat) (w w2 : World) (tracks : list TextTrack) :
  session options r w ->
  o_captions options = true ->
  has_textTracks_ (player w) = true ->
  o_captions options2 = true ->
  items (localStorage w2) !! PLUGIN_CONFIG.key
  = items (localStorage (world_of (occur (TextTracksChanged tracks) w))) !! PLUGIN_CONFIG.key ->
  exists w3,
    onPlayerReady options2 w2 = Ret tt w3
    /\ textTracks (player w3)
       = if String.eqb (showing_language tracks) EmptyString
         then textTracks (player w2)
         else show_track (VStr (showing_language tracks)) (textTracks (player w2)).
Proof.
  intros Hs Ho Hslot Ho2 Hi.
  destruct (assigned_read_back options r w (TextTracksChanged tracks) "captions"
              (VStr (showing_language tracks)) Hs eq_refl)
    as (d' & Hp' & Hg);
    [ intros props; cbn [record_after]; rewrite Ho, Hslot; unfold showing_language;
      destruct (List.find showing tracks); apply obj_get_set_eq
    | cbn [assigned]; rewrite Ho, Hslot; left; reflexivity
    | reflexivity |].
  rewrite (next_startup options2 _ w2 _ Hp' Hi). eexists. split; [reflexivity|].
  cbn [player].
  rewrite startup_textTracks, persisted_truthy_enabled, Hg by exact Ho2.
  cbn [truthy]. destruct (String.eqb _ EmptyString); reflexivity.
Qed.

Lemma captions_survive_a_reload_witness :
  let p := Examples.a_player [] [Examples.en_text; Examples.fr_text] [] in
  let w := Examples.started PLUGIN_CONFIG.defaultOptions p None in
  let tracks := [Examples.en_text; mkTextTrack "fr" false "showing"] in
  let w' := world_of (occur (TextTracksChanged tracks) w) in
  let w2 := mkWorld p (mkStorage (items (localStorage w')) true []) [] [] in
  session PLUGIN_CONFIG.defaultOptions 0 w
  /\ has_textTracks_ (player w) = true
  /\ exists w3,
       onPlayerReady PLUGIN_CONFIG.defaultOptions w2 = Ret tt w3
       /\ textTracks (player w3) = [Examples.en_text; mkTextTrack "fr" false "showing"].
Proof.
  intros p w tracks w' w2.
  assert (session PLUGIN_CONFIG.defaultOptions 0 w) as Hs
    by (session_by_computation (@nil (string * value))).
  assert (items (localStorage w2) !! PLUGIN_CONFIG.key
          = items (localStorage w') !! PLUGIN_CONFIG.key) as Hi
    by (vm_compute; reflexivity).
  split; [exact Hs|]. split; [reflexivity|].
  apply (captions_survive_a_reload PLUGIN_CONFIG.defaultOptions
           PLUGIN_CONFIG.defaultOptions 0 w w2 tracks Hs eq_refl eq_refl eq_refl Hi).
Defined.

(** X15.  The audio language survives a reload.  After a change of the
    audio tracks that leaves a track enabled, in a session with the
    audio-track option on, the next start-up with the option on, over a
    store with the same record text, returns and does to the player's audio
    tracks what the audio branch does with the language of the first enabled
    track; when that language is the empty one it leaves every track as it
    is. *)
Theorem audio_language_survives_a_reload
    (options options2 : Options) (r : nat) (w w2 : World)
    (tracks : list AudioTrack) (t : AudioTrack) :
  session options r w ->
  o_audioTrack options = true ->
  List.find at_enabled tracks = Some t ->
  o_audioTrack options2 = true ->
  items (localStorage w2) !! PLUGIN_CONFIG.key
  = items (localStorage (world_of (occur (AudioTracksChanged tracks) w))) !! PLUGIN_CONFIG.key ->
  exists w3,
    onPlayerReady options2 w2 = Ret tt w3
    /\ audioTracks (player w3)
       = if String.eqb (at_language t) EmptyString
         then audioTracks (player w2)
         else swap_audioTrack (VStr (at_language t)) (audioTracks (player w2)).
Proof.
  intros Hs Ho Ht Ho2 Hi.
  destruct (assigned_read_back options r w (AudioTracksChanged tracks) "audioTrack"
              (VStr (at_language t)) Hs eq_refl)
    as (d' & Hp' & Hg);
    [ intros props; cbn [record_after]; rewrite Ho, Ht; apply obj_get_set_eq
    | cbn [assigned]; rewrite Ho, (find_enabled_exists _ _ Ht); left; reflexivity
    | reflexivity |].
  rewrite (next_startup options2 _ w2 _ Hp' Hi). eexists. split; [reflexivity|].
  cbn [player].
  rewrite startup_audioTracks, persisted_truthy_enabled, Hg by exact Ho2.
  cbn [truthy]. destruct (String.eqb _ EmptyString); reflexivity.
Qed.

Lemma audio_language_survives_a_reload_witness :
  let p := Examples.a_player [] [] [Examples.en_audio; Examples.fr_audio] in
  let w := Examples.started PLUGIN_CONFIG.defaultOptions p None in
  let tracks := [mkAudioTrack "en" false; mkAudioTrack "fr" true] in
  let w' := world_of (occur (AudioTracksChanged tracks) w) in
  let w2 := mkWorld p (mkStorage (items (localStorage w')) true []) [] [] in
  session PLUGIN_CONFIG.defaultOptions 0 w
  /\ List.find at_enabled tracks = Some (mkAudioTrack "fr" true)
  /\ exists w3,
       onPlayerReady PLUGIN_CONFIG.defaultOptions w2 = Ret tt w3
       /\ audioTracks (player w3) = [mkAudioTrack "en" false; mkAudioTrack "fr" true].
Proof.
  intros p w tracks w' w2.
  assert (session PLUGIN_CONFIG.defaultOptions 0 w) as Hs
    by (session_by_computation (@nil (string * value))).
  assert (items (localStorage w2) !! PLUGIN_CONFIG.key
          = items (localStorage w') !! PLUGIN_CONFIG.key) as Hi
    by (vm_compute; reflexivity).
  split; [exact Hs|]. split; [reflexivity|].
  apply (audio_language_survives_a_reload PLUGIN_CONFIG.defaultOptions
           PLUGIN_CONFIG.defaultOptions 0 w w2 tracks (mkAudioTrack "fr" true)
           Hs eq_refl eq_refl eq_refl Hi).
Defined.

End Reload.

(** ** A record that is not an object *)

Section NotAnObject.
Local Open Scope string_scope.
Local Open Scope list_scope.

Variable options : Options.
Variable r : nat.
Variable d : value.
Hypothesis d_serializable : serializable d = true.

Lemma still_refl w : still options r d w w.
Proof. intros Hl Hh Hp. auto. Qed.

Lemma still_trans w1 w2 w3 :
  still options r d w1 w2 -> still options r d w2 w3 -> still options r d w1 w3.
Proof.
  intros H1 H2 Hl Hh Hp. destruct (H1 Hl Hh Hp) as (Hl' & Hh' & Hp'). auto.
Qed.

Lemma player_only_still w w' : player_only w w' -> still options r d w w'.
Proof.
  intros (H1 & H2 & H3 & H4) [Hl Ha] Hh Hp. unfold listening, persisted.
  rewrite H1, H2, H3, H4. auto.
Qed.

Lemma still_modify_player f :
  (forall p, listeners (f p) = listeners p /\ audio_listeners (f p) = audio_listeners p) ->
  keeps (still options r d) (modify_player f).
Proof.
  intros Hf w. apply player_only_still. destruct (Hf (player w)) as [H1 H2].
  repeat split; assumption.
Qed.

(** *** An array: the assignment is lost, the write puts the text back *)

Lemma still_assign_array k v elems :
  d = VArr elems -> keeps (still options r d) (assign r k v).
Proof.
  intros -> w Hl Hh Hp. unfold assign. rewrite Hh. cbn [set_prop world_of].
  split; [exact Hl|]. split; [|exact Hp].
  cbn [heap]. apply list_lookup_insert_eq. eapply lookup_lt_Some, Hh.
Qed.

Lemma still_write_array elems :
  d = VArr elems ->
  keeps (still options r d)
        (let* d := deref r in localStorage_setItem PLUGIN_CONFIG.key (JSON_stringify d)).
Proof.
  intros Hd w Hl Hh Hp. rewrite bind_run. unfold deref. rewrite Hh.
  unfold localStorage_setItem. destruct (writable (localStorage w)); cbn [world_of].
  - split; [exact Hl|]. split; [exact Hh|]. right.
    unfold persisted. cbn [with_storage localStorage items].
    rewrite lookup_insert_eq. apply decode_stringify; [exact d_serializable|].
    rewrite Hd. reflexivity.
  - split; [exact Hl|]. split; [exact Hh | exact Hp].
Qed.

Lemma still_run_handler_array h elems :
  d = VArr elems -> data_of h = r -> keeps (still options r d) (run_handler h).
Proof.
  intros Hd. pose proof still_trans as T. pose proof still_refl as Z.
  pose proof (fun k v => still_assign_array k v elems Hd) as HA.
  pose proof (still_write_array elems Hd) as HW.
  destruct h as [muted volume data | data | data | data]; cbn [data_of]; intros ->;
    unfold run_handler.
  - apply (keeps_bind _ T); [|intros _; apply (keeps_bind _ T); [|intros _; apply HW]].
    + destruct muted; [|apply (keeps_ret _ Z)].
      apply (keeps_bind _ T); [apply (keeps_get_player _ Z) | intros p].
      apply (keeps_bind _ T); [|intros _; apply HA].
      apply still_modify_player. intros; split; reflexivity.
    + destruct volume; [|apply (keeps_ret _ Z)].
      apply (keeps_bind _ T); [apply (keeps_get_player _ Z) | intros p; apply HA].
  - apply (keeps_bind _ T); [apply (keeps_get_player _ Z) | intros p]. cbv zeta.
    apply (keeps_bind _ T); [apply still_modify_player; intros; split; reflexivity | intros _].
    apply (keeps_bind _ T); [apply HA | intros _; apply HW].
  - apply (keeps_bind _ T); [apply (keeps_player_textTracks_tracks_ _ Z) | intros p].
    cbv zeta.
    destruct (List.find _ _);
      (apply (keeps_bind _ T); [apply HA | intros _; apply HW]).
  - apply (keeps_bind _ T); [apply (keeps_get_player _ Z) | intros p]. cbv zeta.
    destruct (List.find _ _); [|apply (keeps_throw _ Z)].
    apply (keeps_bind _ T); [apply HA | intros _; apply HW].
Qed.

(** *** A primitive: the first assignment throws *)

Hypothesis d_primitive : forall k v, set_prop d k v = None.

Lemma player_only_refl w : player_only w w.
Proof. repeat split. Qed.

Lemma player_only_trans w1 w2 w3 :
  player_only w1 w2 -> player_only w2 w3 -> player_only w1 w3.
Proof.
  intros (A1 & A2 & A3 & A4) (B1 & B2 & B3 & B4). repeat split; congruence.
Qed.

Lemma halts_assign k v : halts r d (assign r k v).
Proof.
  intros w Hh. unfold assign. rewrite Hh, d_primitive.
  do 2 eexists. split; [reflexivity | apply player_only_refl].
Qed.

Lemma halts_bind {A B} (m : M A) (k : A -> M B) : halts r d m -> halts r d (bind m k).
Proof.
  intros Hm w Hh. destruct (Hm w Hh) as (e & w' & E & Hq).
  exists e, w'. rewrite bind_run, E. auto.
Qed.

Lemma passes_bind {A B} (m : M A) (k : A -> M B) :
  passes m -> (forall a, halts r d (k a)) -> halts r d (bind m k).
Proof.
  intros Hm Hk w Hh. destruct (Hm w) as (a & w1 & E & Hq).
  assert (heap w1 !! r = Some d) as Hh1.
  { destruct Hq as (_ & _ & -> & _). exact Hh. }
  destruct (Hk a w1 Hh1) as (e & w' & E' & Hq').
  exists e, w'. rewrite bind_run, E. split; [exact E' | eapply player_only_trans; eauto].
Qed.

Lemma passes_get_player : passes get_player.
Proof. intros w. do 2 eexists. split; [reflexivity | apply player_only_refl]. Qed.

Lemma passes_ret {A} (a : A) : passes (ret a).
Proof. intros w. do 2 eexists. split; [reflexivity | apply player_only_refl]. Qed.

Lemma passes_modify_player f :
  (forall p, listeners (f p) = listeners p /\ audio_listeners (f p) = audio_listeners p) ->
  passes (modify_player f).
Proof.
  intros Hf w. destruct (Hf (player w)) as [H1 H2].
  do 2 eexists. split; [reflexivity | repeat split; assumption].
Qed.

Lemma halts_run_handler h : subscribed h = true -> data_of h = r -> halts r d (run_handler h).
Proof.
  destruct h as [muted volume data | data | data | data]; cbn [data_of subscribed];
    intros Hsub ->; unfold run_handler.
  - destruct muted.
    + apply halts_bind. apply passes_bind; [apply passes_get_player | intros p].
      apply passes_bind; [|intros _; apply halts_assign].
      apply passes_modify_player. intros; split; reflexivity.
    + apply passes_bind; [apply passes_ret | intros _].
      destruct volume; [|discriminate Hsub].
      apply halts_bind. apply passes_bind; [apply passes_get_player | intros p].
      apply halts_assign.
  - apply passes_bind; [apply passes_get_player | intros p]. cbv zeta.
    apply passes_bind; [apply passes_modify_player; intros; split; reflexivity | intros _].
    apply halts_bind, halts_assign.
  - intros w Hh. rewrite bind_run. unfold player_textTracks_tracks_.
    destruct (has_textTracks_ (player w)).
    + destruct (List.find _ _); apply (halts_bind _ _ (halts_assign _ _) w Hh).
    + do 2 eexists. split; [reflexivity | apply player_only_refl].
  - apply passes_bind; [apply passes_get_player | intros p]. cbv zeta.
    destruct (List.find _ _).
    + apply halts_bind, halts_assign.
    + intros w _. do 2 eexists. split; [reflexivity | apply player_only_refl].
Qed.

Lemma still_run_handler_primitive h :
  subscribed h = true -> data_of h = r -> keeps (still options r d) (run_handler h).
Proof.
  intros Hsub Hdata w Hl Hh Hp.
  destruct (halts_run_handler h Hsub Hdata w Hh) as (e & w' & -> & Hq).
  apply (player_only_still _ _ Hq); assumption.
Qed.

End NotAnObject.

Section NotAnObjectRuns.
Local Open Scope string_scope.
Local Open Scope list_scope.

Variable options : Options.
Variable r : nat.
Variable d : value.
Hypothesis d_not_object : is_object d = false.
Hypothesis d_serializable : serializable d = true.

Lemma still_run_handler h :
  subscribed h = true -> data_of h = r -> keeps (still options r d) (run_handler h).
Proof.
  intros Hsub Hdata.
  destruct d as [| b | n | s | elems | props] eqn:E; try discriminate d_not_object;
    try (apply still_run_handler_primitive; [intros; reflexivity | assumption | assumption]).
  apply (still_run_handler_array options r (VArr elems) d_serializable h elems eq_refl Hdata).
Qed.

Lemma still_listeners hs :
  Forall (fun h => subscribed h = true /\ data_of h = r) hs ->
  keeps (still options r d) (forEach hs call_listener).
Proof.
  induction 1 as [|h hs [Hs Hh] _ IH]; cbn [forEach];
    [apply (keeps_ret _ (still_refl options r d))|].
  apply (keeps_bind _ (still_trans options r d)); [|intros _; exact IH].
  unfold call_listener.
  apply (keeps_try_catch _ (still_trans options r d));
    [apply still_run_handler; assumption
    | intros; apply (keeps_ret _ (still_refl options r d))].
Qed.

Lemma listeners_for_In event (ls : list (string * Handler)) h :
  In h (listeners_for event ls) -> In h (map snd ls).
Proof.
  unfold listeners_for. intros H. apply in_map_iff in H as (x & <- & Hin).
  apply in_map. apply list_elem_of_In in Hin. apply list_elem_of_filter in Hin as [_ Hin].
  apply list_elem_of_In. exact Hin.
Qed.

Lemma subscriptions_data event :
  Forall (fun h => subscribed h = true /\ data_of h = r)
         (listeners_for event (subscriptions options r)).
Proof.
  apply List.Forall_forall. intros h Hin. apply listeners_for_In in Hin.
  unfold subscriptions in Hin.
  destruct (o_muted options || o_volume options) eqn:E, (o_playbackRate options),
    (o_captions options); cbn in Hin;
    repeat (destruct Hin as [<- | Hin]; [split; [exact E || reflexivity | reflexivity]|]);
    contradiction.
Qed.

Lemma audio_subscriptions_data event :
  Forall (fun h => subscribed h = true /\ data_of h = r)
         (listeners_for event (audio_subscriptions options r)).
Proof.
  apply List.Forall_forall. intros h Hin. apply listeners_for_In in Hin.
  unfold audio_subscriptions in Hin.
  destruct (o_audioTrack options); cbn in Hin;
    repeat (destruct Hin as [<- | Hin]; [split; reflexivity|]); contradiction.
Qed.

Lemma still_occur c : keeps (still options r d) (occur c).
Proof.
  intros w Hl Hh Hp. pose proof Hl as [Hl1 Hl2].
  destruct c as [m v | v | tracks | tracks]; unfold occur;
    rewrite bind_run; unfold modify_player; unfold trigger, audioTracks_trigger;
    rewrite bind_run; unfold get_player;
    cbn [player listeners audio_listeners set_volume set_muted set_playbackRate
         set_textTracks set_audioTracks];
    rewrite ?Hl1, ?Hl2;
    first [apply (still_listeners _ (subscriptions_data _))
          | apply (still_listeners _ (audio_subscriptions_data _))];
    first [split; cbn [player listeners audio_listeners]; assumption | assumption].
Qed.

Lemma still_run cs : forall w, still options r d w (run cs w).
Proof.
  induction cs as [|c cs IH]; intros w; [apply still_refl|].
  unfold run. cbn [fold_left]. eapply still_trans; [apply still_occur | apply IH].
Qed.

End NotAnObjectRuns.

Section NotAnObjectProperties.
Local Open Scope string_scope.
Local Open Scope list_scope.

Lemma persisted_truthy_non_object options d name :
  is_object d = false -> persisted_truthy options d name = None.
Proof.
  intros H. unfold persisted_truthy.
  destruct d; try discriminate H; destruct option_enabled; reflexivity.
Qed.

Lemma startup_player_non_object options d r p :
  is_object d = false ->
  startup_player options d r p = subscribe options r (addClass "vjs-persist-controls" p).
Proof.
  intros H. unfold startup_player, restore. cbv zeta.
  rewrite !persisted_truthy_non_object by exact H. reflexivity.
Qed.

Lemma through_JSON_not_object d :
  is_object d = false -> is_object (through_JSON d) = false.
Proof.
  intros H. destruct d as [| b | n | s | elems | props];
    try discriminate H; try reflexivity.
  destruct n; reflexivity.
Qed.

(** X16.  When the text under the plugin's key is JSON but not an object
    (a number other than 0, a non-empty string, [true], an array), the
    start-up takes that value for its record.  It returns, restores nothing
    (the player gets the class and the listeners only), and from then on no
    change is ever persisted: a listener's assignment throws on a primitive
    and is lost on an array, so after any sequence of changes the store
    still decodes to that value, as it was or (an array, once written
    back) as JSON carries it, never to a record with a preference. *)
Theorem record_that_is_not_an_object_stays
    (options : Options) (w : World) (s : string) (d : value) (cs : list change) :
  listeners (player w) = [] -> audio_listeners (player w) = [] ->
  items (localStorage w) !! PLUGIN_CONFIG.key = Some s ->
  JSON_parse s = Some d -> truthy d = true -> is_object d = false ->
  numbers_read_back d = true ->
  exists w1,
    onPlayerReady options w = Ret tt w1
    /\ player w1 = subscribe options (length (heap w))
                             (addClass "vjs-persist-controls" (player w))
    /\ exists d',
         persisted (run cs w1) = Some d'
         /\ (d' = d \/ d' = through_JSON d)
         /\ is_object d' = false.
Proof.
  intros Hl Ha Hs Hparse Ht Hobj Hn.
  assert (decode (items (localStorage w) !! PLUGIN_CONFIG.key) = Some d) as Hd.
  { rewrite Hs. unfold decode. rewrite Hparse, Ht. reflexivity. }
  rewrite (onPlayerReady_run options w d Hd). eexists. split; [reflexivity|].
  cbn [player]. split; [apply startup_player_non_object, Hobj|].
  destruct (still_run options (length (heap w)) d Hobj
              (JSON_parse_serializable _ _ Hparse Hn) cs
              (mkWorld (startup_player options d (length (heap w)) (player w))
                       (read_storage w) (console w) (heap w ++ [d])))
    as (_ & _ & Hk).
  - split; cbn [player].
    + rewrite startup_listeners, Hl. reflexivity.
    + rewrite startup_audio_listeners, Ha. reflexivity.
  - cbn [heap]. apply list_lookup_middle. reflexivity.
  - left. exact Hd.
  - destruct Hk as [Hk | Hk]; rewrite Hk; cbn; eexists; (split; [reflexivity|]).
    + split; [left; reflexivity | exact Hobj].
    + split; [right; reflexivity | apply through_JSON_not_object, Hobj].
Qed.

Lemma record_that_is_not_an_object_stays_witness :
  let w := Examples.a_world (Examples.a_player [] [] []) (Some "[1e400]") in
  let d := VArr [VNum (S754_infinity false)] in
  let cs := [VolumeChanged (VBool false) (VNum Examples.n042);
             RateChanged (VNum Examples.n2)] in
  JSON_parse "[1e400]" = Some d
  /\ exists w1,
    onPlayerReady PLUGIN_CONFIG.defaultOptions w = Ret tt w1
    /\ player w1 = subscribe PLUGIN_CONFIG.defaultOptions 0
                             (addClass "vjs-persist-controls" (player w))
    /\ exists d',
         persisted (run cs w1) = Some d'
         /\ (d' = d \/ d' = through_JSON d)
         /\ is_object d' = false.
Proof.
  intros w d cs.
  assert (JSON_parse "[1e400]" = Some d) as Hparse by by_computation.
  split; [exact Hparse|].
  apply (record_that_is_not_an_object_stays PLUGIN_CONFIG.defaultOptions w "[1e400]"
           d cs eq_refl eq_refl eq_refl Hparse eq_refl eq_refl eq_refl).
Defined.

End NotAnObjectProperties.

(** ** The earlier versions of the plugin *)

Section Versions.
Local Open Scope string_scope.
Local Open Scope list_scope.

Lemma NoAudio_onPlayerReady options w :
  NoAudio.onPlayerReady options w = onPlayerReady (without_audioTrack options) w.
Proof. destruct options as [m v r c a]. destruct c; reflexivity. Qed.

Lemma NoTracks_onPlayerReady options w :
  NoTracks.onPlayerReady options w = onPlayerReady (without_tracks options) w.
Proof. destruct options as [m v r c a]. destruct r; reflexivity. Qed.

(** One callback in the queue: the activation's. *)
Lemma ready_one (f : Options -> M unit) (o : Options) w :
  ready_queue (player w) = [o] ->
  (let* p := get_player in
   modify_player (set_ready_queue []) ;;
   forEach (ready_queue p) f) w
  = (f o ;; ret tt)
      (mkWorld (set_ready_queue [] (player w)) (localStorage w) (console w) (heap w)).
Proof.
  intros Hq. rewrite bind_run. unfold get_player. rewrite bind_run. unfold modify_player.
  rewrite Hq. reflexivity.
Qed.

Lemma activation_then_ready
    (defaults : Options) (f : Options -> M unit) (options : UserOptions) w :
  ready_queue (player w) = [] ->
  ((let* isLocalStorageAvailable := checkLocalStorageAvailability in
    if negb isLocalStorageAvailable then videojs_log "localStorage unavailable."
    else player_ready (merge defaults options)) ;;
   (let* p := get_player in
    modify_player (set_ready_queue []) ;;
    forEach (ready_queue p) f)) w
  = match checkLocalStorageAvailability w with
    | Ret true w1 =>
        (f (merge defaults options) ;; ret tt)
          (mkWorld (set_ready_queue [] (player w1)) (localStorage w1) (console w1) (heap w1))
    | Ret false w1 =>
        Ret tt (mkWorld (set_ready_queue [] (player w1)) (localStorage w1)
                        (console w1 ++ ["localStorage unavailable."]) (heap w1))
    | Throw e w1 => Throw e w1
    end.
Proof.
  intros Hq. rewrite bind_run, bind_run.
  destruct (writable (localStorage w)) eqn:E.
  - rewrite (probe_accepted w E). cbn [negb]. unfold player_ready, modify_player.
    rewrite ready_one with (o := merge defaults options); [reflexivity|].
    cbn [player with_storage ready_queue set_ready_queue]. rewrite Hq. reflexivity.
  - rewrite (probe_refused w E). cbn [negb]. unfold videojs_log.
    rewrite bind_run. unfold get_player. rewrite bind_run. unfold modify_player.
    cbn [player with_storage]. rewrite Hq. reflexivity.
Qed.

(** X17.  [src/plugin.js], the version without audio tracks, behaves
    exactly as the full version with the audio-track option off.  Its
    start-up, on every world and with any options (whatever [audioTrack] the
    caller may have passed), returns or throws as the full one does with
    [audioTrack] off and ends in the same world: same player, store, log and
    objects.  So does its activation followed by the player becoming ready,
    against the full version called with [audioTrack: false]. *)
Theorem version_without_audio_is_audio_off :
  (forall (options : Options) (w : World),
      NoAudio.onPlayerReady options w = onPlayerReady (without_audioTrack options) w)
  /\ (forall (options : UserOptions) (w : World),
         ready_queue (player w) = [] ->
         (NoAudio.persistControls options ;; NoAudio.run_ready) w
         = (persistControls (audio_off options) ;; run_ready) w).
Proof.
  split; [exact NoAudio_onPlayerReady|]. intros options w Hq.
  unfold NoAudio.persistControls, NoAudio.run_ready, persistControls, run_ready.
  rewrite !activation_then_ready by exact Hq.
  destruct (checkLocalStorageAvailability w) as [[] w1 | e w1]; try reflexivity.
  rewrite !bind_run, NoAudio_onPlayerReady. reflexivity.
Qed.

(** X18.  The first version of the plugin, without captions and audio
    tracks, behaves exactly as the full version with the captions and
    audio-track options off: its start-up on every world and with any
    options, and its activation followed by the player becoming ready. *)
Theorem version_without_tracks_is_tracks_off :
  (forall (options : Options) (w : World),
      NoTracks.onPlayerReady options w = onPlayerReady (without_tracks options) w)
  /\ (forall (options : UserOptions) (w : World),
         ready_queue (player w) = [] ->
         (NoTracks.persistControls options ;; NoTracks.run_ready) w
         = (persistControls (tracks_off options) ;; run_ready) w).
Proof.
  split; [exact NoTracks_onPlayerReady|]. intros options w Hq.
  unfold NoTracks.persistControls, NoTracks.run_ready, persistControls, run_ready.
  rewrite !activation_then_ready by exact Hq.
  destruct (checkLocalStorageAvailability w) as [[] w1 | e w1]; try reflexivity.
  rewrite !bind_run, NoTracks_onPlayerReady. reflexivity.
Qed.

End Versions.

(** ** What the start-up may do to the tracks *)

Section TracksSafety.
Local Open Scope string_scope.
Local Open Scope list_scope.

Lemma Forall2_alter_same {A} (R : A -> A -> Prop) (f : A -> A) i : forall l,
  (forall x, R x x) -> (forall x, R x (f x)) -> Forall2 R l (alter f i l).
Proof.
  intros l Hr Hf. revert i. induction l as [|a l IH]; intros i; [constructor|].
  destruct i as [|i]; cbn; constructor; auto.
  clear IH. induction l; constructor; auto.
Qed.

Lemma Forall2_same {A} (R : A -> A -> Prop) l : (forall x, R x x) -> Forall2 R l l.
Proof. intros Hr. induction l; constructor; auto. Qed.

Lemma Forall2_compose {A} (R : A -> A -> Prop) l1 l2 l3 :
  (forall x y z, R x y -> R y z -> R x z) ->
  Forall2 R l1 l2 -> Forall2 R l2 l3 -> Forall2 R l1 l3.
Proof.
  intros Ht H12. revert l3. induction H12 as [|x y l1 l2 Hxy _ IH]; intros l3 H23.
  - inversion H23. constructor.
  - inversion H23 as [|y' z l2' l3' Hyz Hrest]; subst. constructor; eauto.
Qed.

Lemma show_track_safe v tracks : Forall2 shown_or_same tracks (show_track v tracks).
Proof.
  assert (forall t, shown_or_same t t) as Hr by (intros t; repeat split; left; reflexivity).
  assert (forall t, shown_or_same t (set_mode "showing" t)) as Hf
    by (intros t; repeat split; right; reflexivity).
  unfold show_track. destruct (find_index tt_default tracks);
    [|destruct (find_index _ tracks)];
    first [apply Forall2_alter_same; assumption | apply Forall2_same; assumption].
Qed.

Lemma alter_enabled j : forall (tracks : list AudioTrack),
  j < length tracks -> existsb at_enabled (alter (set_enabled true) j tracks) = true.
Proof.
  induction j as [|j IH]; intros [|a l] Hj; cbn in *; try lia.
  rewrite IH by lia. apply orb_true_r.
Qed.

Lemma find_index_lt {A} (p : A -> bool) (l : list A) i :
  find_index p l = Some i -> i < length l.
Proof.
  intros H. destruct (find_index_Some p l i H) as (x & Hx & _).
  eapply lookup_lt_Some, Hx.
Qed.

Lemma swap_audioTrack_safe v tracks :
  Forall2 (fun t t' => at_language t' = at_language t) tracks (swap_audioTrack v tracks)
  /\ (existsb at_enabled tracks = true ->
      existsb at_enabled (swap_audioTrack v tracks) = true).
Proof.
  set (R := fun t t' : AudioTrack => at_language t' = at_language t).
  assert (forall t, R t t) as Hr by reflexivity.
  assert (forall b t, R t (set_enabled b t)) as Hf by reflexivity.
  assert (forall x y z, R x y -> R y z -> R x z) as Ht by (unfold R; congruence).
  unfold swap_audioTrack.
  destruct (find_index (fun track => strict_eq_str (at_language track) v) tracks)
    as [j|] eqn:Ej.
  - split.
    + destruct (find_index at_enabled tracks) as [i|].
      * eapply Forall2_compose; [exact Ht | |];
          apply Forall2_alter_same; auto.
      * apply Forall2_alter_same; auto.
    + intros _. apply alter_enabled.
      apply find_index_lt in Ej.
      destruct (find_index at_enabled tracks); rewrite ?length_alter; exact Ej.
  - destruct (find_index at_enabled tracks); split; auto using Forall2_same.
Qed.

(** X19.  The start-up never turns captions off and never changes what a
    text track is: on every player, with any options and whatever the store
    holds, each text track has afterwards the language and the default flag
    it had, and its mode is the mode it had or [showing]. *)
Theorem startup_only_turns_captions_on (options : Options) (w : World) :
  Forall2 shown_or_same
          (textTracks (player w))
          (textTracks (player (world_of (onPlayerReady options w)))).
Proof.
  assert (forall t, shown_or_same t t) as Hr by (intros t; repeat split; left; reflexivity).
  pose proof (addClass_fields "vjs-persist-controls" (player w)) as (_ & _ & _ & Ht & _).
  destruct (startup_or_not options w) as [(d & _ & ->) | ->]; cbn [player].
  - rewrite startup_textTracks. destruct (persisted_truthy options d "captions");
      [apply show_track_safe | apply Forall2_same, Hr].
  - rewrite Ht. apply Forall2_same, Hr.
Qed.

(** X20.  The start-up never silences the player and never changes what
    an audio track is: on every player, with any options and whatever the
    store holds, each audio track has afterwards the language it had, and if
    some track was enabled before, some track is enabled afterwards. *)
Theorem startup_keeps_an_audio_track_enabled (options : Options) (w : World) :
  let before := audioTracks (player w) in
  let after := audioTracks (player (world_of (onPlayerReady options w))) in
  Forall2 (fun t t' => at_language t' = at_language t) before after
  /\ (existsb at_enabled before = true -> existsb at_enabled after = true).
Proof.
  cbv zeta.
  pose proof (addClass_fields "vjs-persist-controls" (player w)) as (_ & _ & _ & _ & Ha & _).
  destruct (startup_or_not options w) as [(d & _ & ->) | ->]; cbn [player].
  - rewrite startup_audioTracks. destruct (persisted_truthy options d "audioTrack");
      [apply swap_audioTrack_safe | split; [apply Forall2_same; reflexivity | auto]].
  - rewrite Ha. split; [apply Forall2_same; reflexivity | auto].
Qed.

End TracksSafety.

(** ** Lives in which the plugin never gets to listen *)

Section Inert.
Local Open Scope string_scope.
Local Open Scope list_scope.

(** A change that no listener hears changes the player's state only. *)
Lemma occur_unheard c w :
  listeners (player w) = [] -> audio_listeners (player w) = [] ->
  exists p',
    occur c w = Ret tt (with_player p' w)
    /\ listeners p' = [] /\ audio_listeners p' = []
    /\ ready_queue p' = ready_queue (player w)
    /\ classes p' = classes (player w).
Proof.
  intros Hl Ha.
  destruct c as [m v | v | tracks | tracks]; unfold occur;
    rewrite bind_run; unfold modify_player; unfold trigger, audioTracks_trigger;
    rewrite bind_run; unfold get_player;
    cbn [player listeners audio_listeners set_volume set_muted set_playbackRate
         set_textTracks set_audioTracks];
    rewrite ?Hl, ?Ha; eexists; (split; [reflexivity|]); cbn; auto.
Qed.

(** The start-up on text that does not parse, for every callback queued. *)
Lemma ready_on_malformed_text (q : list Options) w :
  decode (items (localStorage w) !! PLUGIN_CONFIG.key) = None ->
  let w' := world_of (forEach q onPlayerReady w) in
  listeners (player w') = listeners (player w)
  /\ audio_listeners (player w') = audio_listeners (player w)
  /\ heap w' = heap w
  /\ items (localStorage w') = items (localStorage w).
Proof.
  intros Hd. cbv zeta. destruct q as [|o q]; cbn [forEach]; [repeat split|].
  rewrite bind_run, (onPlayerReady_throws o w Hd). cbn [world_of player heap localStorage].
  pose proof (addClass_fields "vjs-persist-controls" (player w))
    as (_ & _ & _ & _ & _ & Hl & Ha & _).
  repeat split; assumption.
Qed.

Lemma malformed_step a w s :
  items (localStorage w) !! PLUGIN_CONFIG.key = Some s -> JSON_parse s = None ->
  listeners (player w) = [] -> audio_listeners (player w) = [] ->
  let w' := world_of (perform a w) in
  items (localStorage w') !! PLUGIN_CONFIG.key = Some s
  /\ listeners (player w') = [] /\ audio_listeners (player w') = []
  /\ heap w' = heap w.
Proof.
  intros Hs Hparse Hl Ha. cbv zeta.
  assert (decode (Some s) = None) as Hd by (unfold decode; rewrite Hparse; reflexivity).
  destruct a as [options | | c]; cbn [perform].
  - destruct (persistControls_result options w) as (w' & -> & Hp & Hh & Hi).
    cbn [world_of]. rewrite Hi, Hs.
    apply (f_equal listeners) in Hp as Hp1. apply (f_equal audio_listeners) in Hp as Hp2.
    cbn in Hp1, Hp2. rewrite Hp1, Hp2. auto.
  - unfold run_ready. rewrite bind_run. unfold get_player. rewrite bind_run.
    unfold modify_player.
    match goal with
    | |- context [forEach ?q onPlayerReady ?w0] =>
        destruct (ready_on_malformed_text q w0) as (H1 & H2 & H3 & H4);
        [cbn [localStorage]; rewrite Hs; exact Hd|]
    end.
    rewrite H1, H2, H3, H4. cbn. auto.
  - destruct (occur_unheard c w Hl Ha) as (p' & -> & Hl' & Ha' & _).
    cbn [world_of with_player player localStorage heap]. auto.
Qed.

(** X21.  Text under the plugin's key that does not parse is never
    repaired.  On a player without listeners, through a whole life of the
    page (any activations, any number of times the player becomes ready, any
    changes), every start-up throws before it subscribes anything, so no
    listener ever runs and nothing is ever written: at the end the store
    holds the same text under the key, and the player has no listener of the
    plugin's. *)
Theorem malformed_text_is_never_repaired (acts : list action) (w : World) (s : string) :
  items (localStorage w) !! PLUGIN_CONFIG.key = Some s -> JSON_parse s = None ->
  listeners (player w) = [] -> audio_listeners (player w) = [] ->
  let w' := lifetime acts w in
  items (localStorage w') !! PLUGIN_CONFIG.key = Some s
  /\ listeners (player w') = [] /\ audio_listeners (player w') = []
  /\ heap w' = heap w.
Proof.
  intros Hs Hparse. cbv zeta. revert w Hs.
  induction acts as [|a acts IH]; intros w Hs Hl Ha; [auto|].
  unfold lifetime. cbn [fold_left].
  destruct (malformed_step a w s Hs Hparse Hl Ha) as (Hs' & Hl' & Ha' & Hh').
  destruct (IH _ Hs' Hl' Ha') as (H1 & H2 & H3 & H4).
  unfold lifetime in *. rewrite H4, Hh'. auto.
Qed.

Lemma malformed_text_is_never_repaired_witness :
  let w := Examples.a_world (Examples.a_player [] [] []) (Some "not json") in
  let acts := [Activate Examples.no_options; BecomeReady;
               Change (VolumeChanged (VBool false) (VNum Examples.n042));
               Activate Examples.no_options; BecomeReady] in
  let w' := lifetime acts w in
  items (localStorage w') !! PLUGIN_CONFIG.key = Some "not json"
  /\ listeners (player w') = [] /\ audio_listeners (player w') = []
  /\ heap w' = heap w.
Proof.
  intros w acts.
  apply (malformed_text_is_never_repaired acts w "not json"); reflexivity.
Defined.

Lemma refused_step a w :
  writable (localStorage w) = false ->
  ready_queue (player w) = [] ->
  listeners (player w) = [] -> audio_listeners (player w) = [] ->
  let w' := world_of (perform a w) in
  writable (localStorage w') = false
  /\ ready_queue (player w') = []
  /\ listeners (player w') = [] /\ audio_listeners (player w') = []
  /\ heap w' = heap w
  /\ items (localStorage w') = items (localStorage w)
  /\ classes (player w') = classes (player w).
Proof.
  intros Hw Hq Hl Ha. cbv zeta.
  destruct a as [options | | c]; cbn [perform].
  - unfold persistControls. rewrite bind_run, (probe_refused w Hw). cbn.
    repeat split; assumption.
  - unfold run_ready. rewrite bind_run. unfold get_player. rewrite bind_run.
    unfold modify_player. rewrite Hq. cbn. repeat split; assumption.
  - destruct (occur_unheard c w Hl Ha) as (p' & -> & Hl' & Ha' & Hq' & Hc').
    cbn [world_of with_player player localStorage heap].
    rewrite Hq'. repeat split; assumption.
Qed.

(** X22.  A store that refuses writes keeps the plugin out for good.  On a
    player that has no listener and no ready callback yet, through a whole
    life of the page (any activations, any number of times the player
    becomes ready, any changes), no callback is ever queued, no listener
    subscribed, no object made, the class is never added, and the store's
    content stays what it was. *)
Theorem refused_store_keeps_the_plugin_out (acts : list action) (w : World) :
  writable (localStorage w) = false ->
  ready_queue (player w) = [] ->
  listeners (player w) = [] -> audio_listeners (player w) = [] ->
  let w' := lifetime acts w in
  ready_queue (player w') = []
  /\ listeners (player w') = [] /\ audio_listeners (player w') = []
  /\ heap w' = heap w
  /\ items (localStorage w') = items (localStorage w)
  /\ classes (player w') = classes (player w).
Proof.
  cbv zeta. revert w.
  induction acts as [|a acts IH]; intros w Hw Hq Hl Ha; [repeat split; assumption|].
  unfold lifetime. cbn [fold_left].
  destruct (refused_step a w Hw Hq Hl Ha) as (Hw' & Hq' & Hl' & Ha' & Hh' & Hi' & Hc').
  destruct (IH _ Hw' Hq' Hl' Ha') as (H1 & H2 & H3 & H4 & H5 & H6).
  unfold lifetime in *. rewrite H4, H5, H6, Hh', Hi', Hc'. repeat split; assumption.
Qed.

Lemma refused_store_keeps_the_plugin_out_witness :
  let w := Examples.a_disabled_world (Examples.a_player [] [] []) in
  let acts := [Activate Examples.no_options; BecomeReady;
               Change (VolumeChanged (VBool false) (VNum Examples.n042))] in
  let w' := lifetime acts w in
  ready_queue (player w') = []
  /\ listeners (player w') = [] /\ audio_listeners (player w') = []
  /\ heap w' = heap w
  /\ items (localStorage w') = items (localStorage w)
  /\ classes (player w') = classes (player w).
Proof.
  intros w acts.
  apply (refused_store_keeps_the_plugin_out acts w); reflexivity.
Defined.

End Inert.

(** ** From the activation to a session *)

Section Established.
Local Open Scope string_scope.
Local Open Scope list_scope.

Lemma lifetime_app acts1 acts2 w :
  lifetime (acts1 ++ acts2) w = lifetime acts2 (lifetime acts1 w).
Proof. unfold lifetime. apply fold_left_app. Qed.

Lemma lifetime_changes cs : forall w, lifetime (map Change cs) w = run cs w.
Proof.
  induction cs as [|c cs IH]; intros w; [reflexivity|].
  unfold lifetime, run in *. cbn [map fold_left perform]. apply IH.
Qed.

Lemma activation_and_ready options w props :
  writable (localStorage w) = true ->
  ready_queue (player w) = [] ->
  listeners (player w) = [] -> audio_listeners (player w) = [] ->
  decode (items (localStorage w) !! PLUGIN_CONFIG.key) = Some (VObj props) ->
  numbers_read_back (VObj props) = true ->
  session (merge PLUGIN_CONFIG.defaultOptions options) (length (heap w))
          (lifetime [Activate options; BecomeReady] w).
Proof.
  intros Hw Hq Hl Ha Hd Hn. unfold lifetime. cbn [fold_left perform].
  unfold persistControls. rewrite bind_run, (probe_accepted w Hw). cbn [negb].
  unfold player_ready, modify_player. cbn [world_of]. unfold run_ready.
  rewrite ready_one with (o := merge PLUGIN_CONFIG.defaultOptions options);
    [|cbn [player with_storage ready_queue set_ready_queue]; rewrite Hq; reflexivity].
  rewrite bind_run.
  match goal with
  | |- context [onPlayerReady ?o ?w1] =>
      destruct (onPlayerReady_session o w1 props) as (w' & -> & Hs & _)
  end; [cbn; assumption | cbn; assumption | reflexivity | | exact Hn |].
  - cbn [localStorage with_storage items].
    rewrite lookup_delete_ne, lookup_insert_ne by discriminate. exact Hd.
  - cbn [world_of ret]. exact Hs.
Qed.

(** X23.  The page's part makes a session, and the session lasts.  On a
    player with no listener and no ready callback yet, and a store that
    takes writes and holds under the plugin's key nothing, a falsy JSON
    value or the text of an object (whose finite numbers are read back
    from their text, as binary64 numbers are): after the activation and
    the player becoming ready, and then after any sequence of changes, the
    player has exactly the listeners of the merged options, all on one
    record object, and what the store's text decodes to and that object
    are the same once through JSON (the same but for an infinity, stored
    as [null], and the negative zero, stored as [0]). *)
Theorem activation_makes_a_session_that_lasts
    (options : UserOptions) (w : World) (props : list (string * value)) (cs : list change) :
  writable (localStorage w) = true ->
  ready_queue (player w) = [] ->
  listeners (player w) = [] -> audio_listeners (player w) = [] ->
  decode (items (localStorage w) !! PLUGIN_CONFIG.key) = Some (VObj props) ->
  numbers_read_back (VObj props) = true ->
  forallb wf_change cs = true ->
  session (merge PLUGIN_CONFIG.defaultOptions options) (length (heap w))
          (lifetime ([Activate options; BecomeReady] ++ map Change cs) w).
Proof.
  intros Hw Hq Hl Ha Hd Hn Hcs. rewrite lifetime_app, lifetime_changes.
  apply session_run; [|exact Hcs].
  apply (activation_and_ready options w props); assumption.
Qed.

Lemma activation_makes_a_session_that_lasts_witness :
  let w := Examples.a_world (Examples.a_player [] [] [])
                            (Examples.stored_text "volume" "1e400") in
  let props := [("volume", VNum (S754_infinity false))] in
  let cs := [RateChanged (VNum Examples.n2); TextTracksChanged []] in
  let w' := lifetime ([Activate Examples.no_options; BecomeReady] ++ map Change cs) w in
  decode (items (localStorage w) !! PLUGIN_CONFIG.key) = Some (VObj props)
  /\ session (merge PLUGIN_CONFIG.defaultOptions Examples.no_options) 0 w'
  /\ heap w' !! 0
     = Some (VObj [("volume", VNum (S754_infinity false));
                   ("playbackRate", VNum Examples.n2); ("captions", VStr EmptyString)])
  /\ persisted w'
     = Some (VObj [("volume", VNull);
                   ("playbackRate", VNum Examples.n2); ("captions", VStr EmptyString)]).
Proof.
  intros w props cs w'.
  assert (decode (items (localStorage w) !! PLUGIN_CONFIG.key) = Some (VObj props)) as Hd
    by by_computation.
  assert (forallb wf_change cs = true) as Hcs by by_computation.
  split; [exact Hd|]. split; [|split; by_computation].
  apply (activation_makes_a_session_that_lasts Examples.no_options w props cs
           eq_refl eq_refl eq_refl eq_refl Hd eq_refl Hcs).
Defined.

End Established.

(** ** More than one activation *)

Section Twice.
Local Open Scope string_scope.
Local Open Scope list_scope.

Lemma persistControls_accepted options w :
  writable (localStorage w) = true ->
  exists st,
    persistControls options w
    = Ret tt (mkWorld (set_ready_queue
                         (ready_queue (player w)
                          ++ [merge PLUGIN_CONFIG.defaultOptions options]) (player w))
                      st (console w) (heap w))
    /\ writable st = true
    /\ st.(items) !! PLUGIN_CONFIG.key = items (localStorage w) !! PLUGIN_CONFIG.key.
Proof.
  intros Hw. unfold persistControls. rewrite bind_run, (probe_accepted w Hw). cbn [negb].
  eexists. split; [reflexivity|]. cbn. split; [reflexivity|].
  rewrite lookup_delete_ne, lookup_insert_ne by discriminate. reflexivity.
Qed.

Lemma addClass_ready_queue c p : ready_queue (addClass c p) = ready_queue p.
Proof. apply addClass_fields. Qed.

Lemma startup_ready_queue options d r p :
  ready_queue (startup_player options d r p) = ready_queue p.
Proof.
  unfold startup_player, subscribe. cbn [ready_queue set_audio_listeners set_listeners].
  repeat rewrite (restore_frame ready_queue)
    by (intros; first [reflexivity | destruct includes; reflexivity]).
  apply addClass_ready_queue.
Qed.

(** Two activations, then the player becomes ready. *)
Lemma two_activations
    (options1 options2 : UserOptions) (w : World) (d : value) :
  writable (localStorage w) = true ->
  ready_queue (player w) = [] ->
  decode (items (localStorage w) !! PLUGIN_CONFIG.key) = Some d ->
  let o1 := merge PLUGIN_CONFIG.defaultOptions options1 in
  let o2 := merge PLUGIN_CONFIG.defaultOptions options2 in
  let r := length (heap w) in
  exists p' st,
    lifetime [Activate options1; Activate options2; BecomeReady] w
    = mkWorld p' st (console w) (heap w ++ [d; d])
    /\ listeners p' = listeners (player w) ++ subscriptions o1 r ++ subscriptions o2 (S r)
    /\ audio_listeners p'
       = audio_listeners (player w) ++ audio_subscriptions o1 r ++ audio_subscriptions o2 (S r)
    /\ ready_queue p' = []
    /\ has_textTracks_ p' = has_textTracks_ (player w)
    /\ writable st = true
    /\ items st !! PLUGIN_CONFIG.key = items (localStorage w) !! PLUGIN_CONFIG.key.
Proof.
  intros Hw Hq Hd. cbv zeta. unfold lifetime. cbn [fold_left perform].
  destruct (persistControls_accepted options1 w Hw) as (st1 & -> & Hw1 & Hi1).
  cbn [world_of].
  match goal with
  | |- context [persistControls options2 ?w1] =>
      destruct (persistControls_accepted options2 w1 Hw1) as (st2 & -> & Hw2 & Hi2)
  end.
  cbn [world_of player localStorage console heap ready_queue set_ready_queue] in *.
  rewrite Hq. cbn [app].
  unfold run_ready. rewrite bind_run. unfold get_player. rewrite bind_run.
  unfold modify_player. cbn [player ready_queue set_ready_queue localStorage console heap forEach].
  rewrite bind_run.
  rewrite (onPlayerReady_run _ _ d) by (cbn [localStorage]; rewrite Hi2, Hi1; exact Hd).
  rewrite bind_run.
  rewrite (onPlayerReady_run _ _ d)
    by (cbn [localStorage read_storage items]; rewrite Hi2, Hi1; exact Hd).
  cbn [ret world_of player heap localStorage console].
  do 2 eexists. split; [rewrite <- app_assoc; reflexivity|].
  rewrite !startup_listeners, !startup_audio_listeners, !startup_ready_queue,
    !startup_has_textTracks_.
  rewrite length_app. cbn [length]. rewrite Nat.add_1_r.
  rewrite <- !app_assoc.
  cbn [listeners audio_listeners ready_queue has_textTracks_ set_ready_queue app].
  repeat split; cbn [read_storage writable items localStorage]; congruence.
Qed.

(** One activation, then the player becomes ready. *)
Lemma one_activation (options : UserOptions) (w : World) (d : value) :
  writable (localStorage w) = true ->
  ready_queue (player w) = [] ->
  decode (items (localStorage w) !! PLUGIN_CONFIG.key) = Some d ->
  let o := merge PLUGIN_CONFIG.defaultOptions options in
  let r := length (heap w) in
  exists p' st,
    lifetime [Activate options; BecomeReady] w
    = mkWorld p' st (console w) (heap w ++ [d])
    /\ listeners p' = listeners (player w) ++ subscriptions o r
    /\ audio_listeners p' = audio_listeners (player w) ++ audio_subscriptions o r
    /\ has_textTracks_ p' = has_textTracks_ (player w)
    /\ writable st = true
    /\ items st !! PLUGIN_CONFIG.key = items (localStorage w) !! PLUGIN_CONFIG.key.
Proof.
  intros Hw Hq Hd. cbv zeta. unfold lifetime. cbn [fold_left perform].
  destruct (persistControls_accepted options w Hw) as (st1 & -> & Hw1 & Hi1).
  cbn [world_of player localStorage console heap ready_queue set_ready_queue] in *.
  rewrite Hq. cbn [app].
  unfold run_ready. rewrite bind_run. unfold get_player. rewrite bind_run.
  unfold modify_player. cbn [player ready_queue set_ready_queue localStorage console heap forEach].
  rewrite bind_run.
  rewrite (onPlayerReady_run _ _ d) by (cbn [localStorage]; rewrite Hi1; exact Hd).
  cbn [ret world_of player heap localStorage console].
  do 2 eexists. split; [reflexivity|].
  rewrite !startup_listeners, !startup_audio_listeners, !startup_has_textTracks_.
  cbn [listeners audio_listeners has_textTracks_ set_ready_queue].
  repeat split; cbn [read_storage writable items localStorage]; congruence.
Qed.

(** X24.  The plugin has no guard against a second activation.  When the
    page activates it twice before the player is ready, on a store that
    takes writes and holds text that decodes, the player becoming ready runs
    the start-up twice: each run makes a record object of its own from the
    same text and subscribes the listeners of its own options, after those
    the player already has. *)
Theorem every_activation_subscribes_again
    (options1 options2 : UserOptions) (w : World) (d : value) :
  writable (localStorage w) = true ->
  ready_queue (player w) = [] ->
  decode (items (localStorage w) !! PLUGIN_CONFIG.key) = Some d ->
  let o1 := merge PLUGIN_CONFIG.defaultOptions options1 in
  let o2 := merge PLUGIN_CONFIG.defaultOptions options2 in
  let r := length (heap w) in
  let w' := lifetime [Activate options1; Activate options2; BecomeReady] w in
  listeners (player w')
  = listeners (player w) ++ subscriptions o1 r ++ subscriptions o2 (S r)
  /\ audio_listeners (player w')
     = audio_listeners (player w) ++ audio_subscriptions o1 r ++ audio_subscriptions o2 (S r)
  /\ heap w' = heap w ++ [d; d]
  /\ ready_queue (player w') = [].
Proof.
  intros Hw Hq Hd. cbv zeta.
  destruct (two_activations options1 options2 w d Hw Hq Hd)
    as (p' & st & -> & Hl & Ha & Hr & _).
  cbn [player heap]. auto.
Qed.

Lemma every_activation_subscribes_again_witness :
  let w := Examples.a_world (Examples.a_player [] [] []) None in
  let w' := lifetime [Activate Examples.no_options; Activate Examples.no_options;
                      BecomeReady] w in
  listeners (player w')
  = subscriptions PLUGIN_CONFIG.defaultOptions 0 ++ subscriptions PLUGIN_CONFIG.defaultOptions 1
  /\ audio_listeners (player w')
     = audio_subscriptions PLUGIN_CONFIG.defaultOptions 0
       ++ audio_subscriptions PLUGIN_CONFIG.defaultOptions 1
  /\ heap w' = [VObj []; VObj []]
  /\ ready_queue (player w') = [].
Proof.
  intros w.
  apply (every_activation_subscribes_again Examples.no_options Examples.no_options w
           (VObj [])); reflexivity.
Defined.

End Twice.

Section TwiceTheSame.
Local Open Scope string_scope.
Local Open Scope list_scope.

(** Two listeners called by the player, when both return. *)
Lemma call_two h1 h2 w w1 w2 :
  run_handler h1 w = Ret tt w1 -> run_handler h2 w1 = Ret tt w2 ->
  forEach [h1; h2] call_listener w = Ret tt w2.
Proof.
  intros H1 H2. cbn [forEach]. rewrite bind_run. unfold call_listener at 1, try_catch.
  rewrite H1. apply call_one, H2.
Qed.

Lemma lookup_insert_other {A} (l : list A) r r' x y :
  r <> r' -> l !! r' = Some x -> <[r := y]> l !! r' = Some x.
Proof. intros Hne H. rewrite list_lookup_insert_ne by exact Hne. exact H. Qed.

Lemma record_after_flag options p p' c props :
  has_textTracks_ p' = has_textTracks_ p ->
  record_after options p' c props = record_after options p c props.
Proof. intros H. destruct c; cbn [record_after]; rewrite ?H; reflexivity. Qed.

Lemma assigned_flag options p p' c :
  has_textTracks_ p' = has_textTracks_ p ->
  assigned options p' c = assigned options p c.
Proof. intros H. destruct c; cbn [assigned]; rewrite ?H; reflexivity. Qed.

(** One change in a world where the plugin listens, the store takes
    writes and the record is an object, whatever the record holds: the
    text the store holds afterwards. *)
Lemma listening_change options r w c props :
  listening options r w ->
  writable (localStorage w) = true ->
  heap w !! r = Some (VObj props) ->
  let w' := world_of (occur c w) in
  let props' := record_after options (player w) c props in
  listening options r w'
  /\ writable (localStorage w') = true
  /\ heap w' !! r = Some (VObj props')
  /\ has_textTracks_ (player w') = has_textTracks_ (player w)
  /\ items (localStorage w') !! PLUGIN_CONFIG.key
     = match assigned options (player w) c with
       | [] => items (localStorage w) !! PLUGIN_CONFIG.key
       | _ => Some (JSON_stringify (VObj props'))
       end.
Proof.
  intros Hl Hw Hh. cbv zeta.
  pose proof (record_after_unassigned options (player w) c props) as Hsame.
  destruct (occur_world options r w c props Hl Hw Hh) as (p' & Hp1 & Hp2 & Hp3 & ->).
  destruct Hl as [Hl1 Hl2]. unfold listening.
  destruct (assigned options (player w) c) as [|k ks]; cbn [player localStorage heap].
  - rewrite Hsame by reflexivity. rewrite Hp1, Hp2. repeat split; assumption.
  - rewrite Hp1, Hp2. split; [split; assumption|]. split; [reflexivity|].
    split; [apply (lookup_insert_hit _ _ _ Hh)|]. split; [exact Hp3|].
    apply lookup_insert_eq.
Qed.

Ltac two_sessions_after Hne Hh Hh' :=
  intros ->; unfold two_sessions;
  split; [split; [exact Hne|]; split; [assumption|]; split; [assumption|];
          split; [reflexivity|];
          split; [cbn [heap]; apply lookup_insert_other; [congruence|];
                  apply (lookup_insert_hit _ _ _ Hh)
                 |cbn [heap]; apply list_lookup_insert_eq; rewrite length_insert;
                  eapply lookup_lt_Some; exact Hh']|];
  split; [first [reflexivity
                | cbn [has_textTracks_ set_textTracks player]; assumption]|];
  cbn [localStorage written items]; apply lookup_insert_eq.

Ltac two_sessions_quiet :=
  cbn [app forEach ret world_of player localStorage heap];
  intros ->; unfold two_sessions;
  split; [repeat split; assumption|]; split; reflexivity.

(** One change heard by the listeners of both activations: each assigns
    its own record and writes it, and the two records stay equal. *)
Lemma two_sessions_change options r r' props w c :
  two_sessions options r r' props w ->
  let w' := world_of (occur c w) in
  let props' := record_after options (player w) c props in
  two_sessions options r r' props' w'
  /\ has_textTracks_ (player w') = has_textTracks_ (player w)
  /\ items (localStorage w') !! PLUGIN_CONFIG.key
     = match assigned options (player w) c with
       | [] => items (localStorage w) !! PLUGIN_CONFIG.key
       | _ => Some (JSON_stringify (VObj props'))
       end.
Proof.
  intros (Hne & Hl & Ha & Hw & Hh & Hh'). cbv zeta.
  remember (world_of (occur c w)) as w' eqn:Ew. revert Ew.
  destruct c as [m v | v | tracks | tracks]; unfold occur;
    rewrite bind_run; unfold modify_player; unfold trigger, audioTracks_trigger;
    rewrite bind_run; unfold get_player;
    cbn [player listeners audio_listeners set_volume set_muted set_playbackRate
         set_textTracks set_audioTracks];
    rewrite ?Hl, ?Ha, listeners_for_app.
  - rewrite !listeners_for_volumechange. cbn [record_after assigned] in *.
    destruct (o_muted options || o_volume options) eqn:En.
    + cbn [app].
      erewrite call_two;
        [ | apply run_OnVolumeChange; cbn [heap localStorage]; eassumption
          | apply run_OnVolumeChange;
            [cbn [heap]; apply lookup_insert_other; [exact Hne | exact Hh'] | reflexivity] ].
      cbn [world_of]. cbv zeta.
      destruct (o_muted options), (o_volume options); try discriminate En;
        cbn [player p_muted p_volume set_volume set_muted set_defaultMuted app] in *;
        two_sessions_after Hne Hh Hh'.
    + apply orb_false_iff in En as [-> ->]. two_sessions_quiet.
  - rewrite !listeners_for_ratechange. cbn [record_after assigned] in *.
    destruct (o_playbackRate options).
    + cbn [app].
      erewrite call_two;
        [ | apply run_OnRateChange; cbn [heap localStorage]; eassumption
          | apply run_OnRateChange;
            [cbn [heap]; apply lookup_insert_other; [exact Hne | exact Hh'] | reflexivity] ].
      cbn [world_of]. cbv zeta.
      cbn [player p_playbackRate set_playbackRate set_defaultPlaybackRate] in *;
        two_sessions_after Hne Hh Hh'.
    + two_sessions_quiet.
  - rewrite !listeners_for_texttrackchange. cbn [record_after assigned] in *.
    destruct (o_captions options); [|two_sessions_quiet]. cbn [andb app].
    destruct (has_textTracks_ (player w)) eqn:Hslot.
    + erewrite call_two;
        [ | apply run_OnTextTrackChange; cbn [heap localStorage player]; eassumption
          | apply run_OnTextTrackChange;
            [exact Hslot
            |cbn [heap]; apply lookup_insert_other; [exact Hne | exact Hh']
            |reflexivity] ].
      cbn [world_of]. cbv zeta.
      cbn [player textTracks set_textTracks] in *.
      destruct (List.find showing tracks);
        two_sessions_after Hne Hh Hh'.
    + cbn [forEach]. rewrite bind_run. unfold call_listener at 1, try_catch.
      rewrite run_OnTextTrackChange_undefined by exact Hslot.
      unfold ret at 1. cbv beta iota.
      rewrite bind_run. unfold call_listener, try_catch.
      rewrite run_OnTextTrackChange_undefined by exact Hslot.
      cbn [ret world_of player localStorage heap].
      intros ->. unfold two_sessions.
      split; [repeat split; assumption|]. split; [exact Hslot | reflexivity].
  - rewrite !listeners_for_change. cbn [record_after assigned] in *.
    destruct (o_audioTrack options); [|two_sessions_quiet].
    cbn [app andb]. destruct (List.find at_enabled tracks) as [t|] eqn:Et.
    + rewrite (find_enabled_exists _ _ Et).
      erewrite call_two;
        [ | rewrite (run_OnAudioTrackChange r _ props) by (cbn [heap localStorage]; assumption);
            cbn [player audioTracks set_audioTracks]; rewrite Et; reflexivity
          | rewrite (run_OnAudioTrackChange r' _ props)
              by (first [reflexivity
                        | cbn [heap]; apply lookup_insert_other; [exact Hne | exact Hh']]);
            cbn [player audioTracks set_audioTracks]; rewrite Et; reflexivity ].
      cbn [world_of]. two_sessions_after Hne Hh Hh'.
    + rewrite existsb_find, Et.
      cbn [forEach]. rewrite bind_run. unfold call_listener at 1, try_catch.
      rewrite (run_OnAudioTrackChange r _ props) by (cbn [heap localStorage]; assumption).
      cbn [player audioTracks set_audioTracks]. rewrite Et.
      unfold ret at 1. cbv beta iota.
      rewrite bind_run. unfold call_listener, try_catch.
      rewrite (run_OnAudioTrackChange r' _ props) by (cbn [heap localStorage]; assumption).
      cbn [player audioTracks set_audioTracks]. rewrite Et.
      cbn [ret world_of player localStorage heap].
      intros ->. unfold two_sessions.
      split; [repeat split; assumption|]. split; reflexivity.
Qed.

(** The same changes after one activation and after two: the store ends
    with the same text under the plugin's key. *)
Lemma one_and_two_sessions options r1 r r' cs : forall props w1 w2,
  listening options r1 w1 -> writable (localStorage w1) = true ->
  heap w1 !! r1 = Some (VObj props) ->
  two_sessions options r r' props w2 ->
  has_textTracks_ (player w2) = has_textTracks_ (player w1) ->
  items (localStorage w2) !! PLUGIN_CONFIG.key
  = items (localStorage w1) !! PLUGIN_CONFIG.key ->
  items (localStorage (run cs w2)) !! PLUGIN_CONFIG.key
  = items (localStorage (run cs w1)) !! PLUGIN_CONFIG.key.
Proof.
  induction cs as [|c cs IH]; intros props w1 w2 Hl Hw Hh H2 Hflag Hi; [exact Hi|].
  destruct (listening_change options r1 w1 c props Hl Hw Hh)
    as (Hl' & Hw' & Hh' & Hf1 & Hi1).
  destruct (two_sessions_change options r r' props w2 c H2) as (H2' & Hf2 & Hi2).
  cbv zeta in *. unfold run. cbn [fold_left].
  rewrite (record_after_flag options _ _ c props Hflag) in H2', Hi2.
  rewrite (assigned_flag options _ _ c Hflag) in Hi2.
  apply (IH (record_after options (player w1) c props)); try assumption.
  - congruence.
  - rewrite Hi1, Hi2. destruct (assigned options (player w1) c); [exact Hi | reflexivity].
Qed.

(** X25.  A second activation with the same options does no harm to what
    is stored.  On a fresh player and a store that takes writes and holds
    under the key nothing, a falsy JSON value or an object's text: whether
    the page activates the plugin once or twice before the player is ready,
    after any sequence of changes the store decodes to the same record. *)
Theorem second_activation_stores_the_same
    (options : UserOptions) (w : World) (props : list (string * value)) (cs : list change) :
  writable (localStorage w) = true ->
  ready_queue (player w) = [] ->
  listeners (player w) = [] -> audio_listeners (player w) = [] ->
  decode (items (localStorage w) !! PLUGIN_CONFIG.key) = Some (VObj props) ->
  forallb wf_change cs = true ->
  persisted (lifetime ([Activate options; Activate options; BecomeReady] ++ map Change cs) w)
  = persisted (lifetime ([Activate options; BecomeReady] ++ map Change cs) w).
Proof.
  intros Hw Hq Hl Ha Hd Hcs. rewrite !lifetime_app, !lifetime_changes.
  destruct (one_activation options w (VObj props) Hw Hq Hd)
    as (p1 & st1 & -> & Hl1 & Ha1 & Hf1 & Hw1 & Hi1).
  destruct (two_activations options options w (VObj props) Hw Hq Hd)
    as (p2 & st2 & -> & Hl2 & Ha2 & _ & Hf2 & Hw2 & Hi2).
  unfold persisted. f_equal.
  rewrite Hl, Ha in *. cbn [app] in *.
  apply (one_and_two_sessions (merge PLUGIN_CONFIG.defaultOptions options)
           (length (heap w)) (length (heap w)) (S (length (heap w))) cs props).
  - split; assumption.
  - exact Hw1.
  - cbn [heap]. apply list_lookup_middle. reflexivity.
  - split; [lia|]. cbn [player localStorage heap].
    split; [exact Hl2|]. split; [exact Ha2|]. split; [exact Hw2|].
    split; [apply list_lookup_middle; reflexivity|].
    change (heap w ++ [VObj props; VObj props])
      with (heap w ++ [VObj props] ++ [VObj props]).
    rewrite app_assoc. apply list_lookup_middle. rewrite length_app. cbn. lia.
  - cbn [player]. congruence.
  - cbn [localStorage]. congruence.
Qed.

Lemma second_activation_stores_the_same_witness :
  let w := Examples.a_world (Examples.a_player [] [] []) None in
  let cs := [VolumeChanged (VBool false) (VNum Examples.n042);
             RateChanged (VNum Examples.n2)] in
  persisted (lifetime ([Activate Examples.no_options; Activate Examples.no_options;
                        BecomeReady] ++ map Change cs) w)
  = persisted (lifetime ([Activate Examples.no_options; BecomeReady] ++ map Change cs) w).
Proof.
  intros w cs.
  assert (forallb wf_change cs = true) as Hcs by by_computation.
  apply (second_activation_stores_the_same Examples.no_options w [] cs
           eq_refl eq_refl eq_refl eq_refl eq_refl Hcs).
Defined.

End TwiceTheSame.
